(** * The CUE front end: error algebra ([adt]) and lowering of the tree ([cue])

    A shallow embedding of [adt/errors.go] (the Bottom algebra:
    [IsIncomplete], [isIncomplete], [AddChildError], [CombineErrors]) and of
    [cue/ast.go] (the [astVisitor]: [walk], [addDisjunctionElem],
    [wrapClauses], [errf], [insertFile]), with the properties the
    specification states about them and further properties of the code:
    of the functions above, of the scope map ([mapScope], [setScope]), of
    [appendPath], [resolve] and [loadImport], of [ErrorCode.String], of the
    tests [isError] and [isLiteralBottom], and of the [valueError]
    constructors and accessors.

    Go pointers are locations in an explicit store, so that in-place updates
    and aliasing are visible; a nil dereference, a failed type assertion and
    a [panic] are an explicit failure of the model.

    The modules [adt] and [cue] hold the code, [adt_spec] and [cue_spec] the
    vocabulary of the statements, [adt_facts] and [cue_facts] the proofs. *)

From Stdlib Require Import ZArith String Lia DecimalString.
From stdpp Require Import base option list gmap.

Local Open Scope Z_scope.
Set Warnings "-register-all".

(** ** Package adt: error encodings *)
Module adt.

(** [type ErrorCode int], with the six constants declared by [iota]. *)
Definition ErrorCode : Type := Z.

Definition EvalError : ErrorCode := 0.
Definition UserError : ErrorCode := 1.
Definition NotExistError : ErrorCode := 2.
Definition StructuralCycleError : ErrorCode := 3.
Definition IncompleteError : ErrorCode := 4.
Definition CycleError : ErrorCode := 5.

(** [ErrorCode.String]; [NotExistError] has no case of its own in the
    source and prints as unknown. *)
Definition ErrorCode_String (c : ErrorCode) : string :=
  if c =? EvalError then "eval"%string
  else if c =? UserError then "user"%string
  else if c =? StructuralCycleError then "structural cycle"%string
  else if c =? IncompleteError then "incomplete"%string
  else if c =? CycleError then "cycle"%string
  else "unknown"%string.

(** A [*Bottom] is [Some l] for a location of the store, or [None] for nil. *)
Abbreviation loc := nat.

(** Modelled from the spec: the interface [Value] is declared in another
    file; it is "a closed polymorphic type" of which [errors.go] tells the
    Bottom from the rest. A value is the nil interface, a [*Bottom] (which
    may be a nil pointer with a type, as the one [AddChildError] makes from
    [v.ChildErrors]), or a value of another dynamic type. *)
Inductive Value : Type :=
  | NilValue
  | BottomPtr (p : option loc)
  | OtherValue (tag : nat).

Section ErrorAlgebra.

(** The packages [cue/errors] and [cue/ast] are imported: the type of
    [errors.Error] values (nil included), [errors.Append], and the type of
    syntax nodes are taken as given. *)
Variable Error : Type.
Variable errors_Append : Error -> Error -> Error.
Variable Node : Type.

Record Bottom : Type := mkBottom {
  Src : option Node;
  Err : Error;
  Code : ErrorCode;
  HasRecursive : bool;
  ChildError : bool;
  Bottom_Value : Value
}.

Definition set_HasRecursive (f : bool) (b : Bottom) : Bottom :=
  mkBottom (Src b) (Err b) (Code b) f (ChildError b) (Bottom_Value b).

Definition set_Code (c : ErrorCode) (b : Bottom) : Bottom :=
  mkBottom (Src b) (Err b) c (HasRecursive b) (ChildError b) (Bottom_Value b).

(** The store of allocated Bottoms; [&Bottom{...}] appends. *)
Abbreviation heap := (list Bottom).

Definition alloc (h : heap) (b : Bottom) : loc * heap :=
  (length h, h ++ [b]).

(** Dereference of a [*Bottom]; [None] is the nil-pointer panic. *)
Definition deref (h : heap) (p : option loc) : option Bottom :=
  l ← p; h !! l.

(** Modelled from the spec: the struct [Vertex] is declared outside the
    files at hand. It "holds a current Value (possibly a Bottom) and a
    separately tracked aggregate of all child Bottoms seen so far
    (ChildErrors)"; these are the two fields [AddChildError] reads and
    writes, [ChildErrors] being the [*Bottom] that [CombineErrors] returns. *)
Record Vertex : Type := mkVertex {
  Vertex_Value : Value;
  ChildErrors : option loc
}.

(** [func (b *Bottom) IsIncomplete() bool] *)
Definition IsIncomplete (h : heap) (b : option loc) : option bool :=
  match b with
  | None => Some false
  | Some l =>
      x ← h !! l;
      Some ((Code x =? IncompleteError) || (Code x =? CycleError))
  end.

(** The type assertion of [x] to [*Bottom], in its two-result form: the
    pointer and whether the dynamic type is [*Bottom]. *)
Definition assertBottom (x : Value) : option loc * bool :=
  match x with
  | BottomPtr p => (p, true)
  | _ => (None, false)
  end.

(** [func isIncomplete(v *Vertex) bool] *)
Definition isIncomplete (h : heap) (v : option Vertex) : option bool :=
  match v with
  | None => Some true
  | Some v =>
      let '(b, ok) := assertBottom (Vertex_Value v) in
      if ok then IsIncomplete h b else Some false
  end.

(** [func isLiteralBottom(x Expr) bool]; on a nil [*Bottom] the test of
    the code dereferences nil. *)
Definition isLiteralBottom (h : heap) (x : Value) : option bool :=
  let '(b, ok) := assertBottom x in
  if ok then
    r ← deref h b;
    Some (Code r =? UserError)
  else Some false.

(** [func isError(v Value) bool] *)
Definition isError (v : Value) : bool :=
  match v with
  | NilValue => true
  | _ => snd (assertBottom v)
  end.

(** The tail of [CombineErrors]: [&Bottom{Src: src, Err: errors.Append(a.Err,
    b.Err), Code: a.Code}]. *)
Definition mergeBottoms (src : option Node) (a b : Bottom) (h : heap)
  : option loc * heap :=
  let '(l, h') :=
    alloc h (mkBottom src (errors_Append (Err a) (Err b)) (Code a)
               false false NilValue) in
  (Some l, h').

(** [func CombineErrors(src ast.Node, x, y Value) *Bottom] *)
Definition CombineErrors (src : option Node) (x y : Value) (h : heap)
  : option (option loc * heap) :=
  let a := fst (assertBottom x) in
  let b := fst (assertBottom y) in
  match a, b with
  | Some la, Some lb =>
      ba ← h !! la;
      bb ← h !! lb;
      if negb (Code ba =? Code bb) then
        let '(la, ba, lb, bb) :=
          if Code ba >? Code bb then (lb, bb, la, ba) else (la, ba, lb, bb) in
        if Code bb >=? IncompleteError then Some (Some la, h)
        else Some (mergeBottoms src ba bb h)
      else Some (mergeBottoms src ba bb h)
  | Some la, None => Some (Some la, h)
  | None, Some lb => Some (Some lb, h)
  | None, None => Some (None, h)
  end.

(** [func (v *Vertex) AddChildError(recursive *Bottom)]; the receiver is
    passed and returned, the Bottoms live in the store. *)
Definition AddChildError (v : Vertex) (recursive : option loc) (h : heap)
  : option (Vertex * heap) :=
  '(ce, h) ← CombineErrors None (BottomPtr (ChildErrors v))
                (BottomPtr recursive) h;
  let v := mkVertex (Vertex_Value v) ce in
  inc ← IsIncomplete h recursive;
  if inc : bool then Some (v, h)
  else
    let x := Vertex_Value v in
    match fst (assertBottom x) with
    | None =>
        r ← deref h recursive;
        let '(l, h) :=
          alloc h (mkBottom None (Err r) (Code r) true true x) in
        Some (mkVertex (BottomPtr (Some l)) (ChildErrors v), h)
    | Some le =>
        e ← h !! le;
        let h := <[le := set_HasRecursive true e]> h in
        e ← h !! le;
        r ← deref h recursive;
        let h := if Code e >? Code r then <[le := set_Code (Code r) e]> h
                 else h in
        Some (mkVertex (BottomPtr (Some le)) (ChildErrors v), h)
    end.

End ErrorAlgebra.

Arguments mkBottom {Error Node}.
Arguments Src {Error Node}.
Arguments Err {Error Node}.
Arguments Code {Error Node}.
Arguments HasRecursive {Error Node}.
Arguments ChildError {Error Node}.
Arguments Bottom_Value {Error Node}.
Arguments set_HasRecursive {Error Node}.
Arguments set_Code {Error Node}.
Arguments alloc {Error Node}.
Arguments deref {Error Node}.
Arguments IsIncomplete {Error Node}.
Arguments isIncomplete {Error Node}.
Arguments isLiteralBottom {Error Node}.
Arguments mergeBottoms {Error} errors_Append {Node}.
Arguments CombineErrors {Error} errors_Append {Node}.
Arguments AddChildError {Error} errors_Append {Node}.

(** *** Errors handed to the user: [valueError]

    The packages [cue/token] and [cue/errors], the interface [Runtime] and
    the evaluator's [OpContext] are declared elsewhere: their types,
    [token.NoPos] and [errors.NewMessage] are taken as given. A
    [*valueError] is never written after it is built and is modelled by its
    fields. *)
Section ValueErrors.

Variable Runtime : Type.
Variable VertexPtr : Type.
Variable Pos : Type.
Variable NoPos : Pos.
Variable Message : Type.
Variable Args : Type.
Variable errors_NewMessage : string -> Args -> Message.

(** Modelled from the spec: of the "build context" [OpContext] the file
    uses the embedded [Runtime], the field [vertex] and the method [pos],
    "the context's current position". *)
Record OpContext : Type := mkOpContext {
  OpContext_Runtime : Runtime;
  OpContext_vertex : VertexPtr;
  OpContext_pos : Pos
}.

Record valueError : Type := mkValueError {
  valueError_r : Runtime;
  valueError_v : VertexPtr;
  valueError_pos : list Pos;
  valueError_Message : Message
}.

(** [func (c *OpContext) errNode() *Vertex] *)
Definition errNode (c : OpContext) : VertexPtr := OpContext_vertex c.

(** [func (c *OpContext) NewPosf(pos token.Pos, format string, args ...)] *)
Definition NewPosf (c : OpContext) (pos : Pos) (format : string) (args : Args)
  : valueError :=
  mkValueError (OpContext_Runtime c) (errNode c) [pos]
    (errors_NewMessage format args).

(** [func (c *OpContext) Newf(format string, args ...)] *)
Definition Newf (c : OpContext) (format : string) (args : Args)
  : valueError :=
  NewPosf c (OpContext_pos c) format args.

(** [func (e *valueError) Position() token.Pos] *)
Definition Position (e : valueError) : Pos :=
  match valueError_pos e with
  | [] => NoPos
  | p :: _ => p
  end.

(** [func (e *valueError) InputPositions() []token.Pos] *)
Definition InputPositions (e : valueError) : list Pos := valueError_pos e.

End ValueErrors.

Arguments mkOpContext {Runtime VertexPtr Pos}.
Arguments OpContext_pos {Runtime VertexPtr Pos}.
Arguments mkValueError {Runtime VertexPtr Pos Message}.
Arguments valueError_pos {Runtime VertexPtr Pos Message}.
Arguments valueError_v {Runtime VertexPtr Pos Message}.
Arguments valueError_r {Runtime VertexPtr Pos Message}.
Arguments NewPosf {Runtime VertexPtr Pos Message Args}.
Arguments Newf {Runtime VertexPtr Pos Message Args}.
Arguments Position {Runtime VertexPtr Pos} NoPos {Message}.
Arguments InputPositions {Runtime VertexPtr Pos Message}.

End adt.

(** ** Package cue: lowering of the syntax tree *)
Module cue.

(** *** The syntax tree of package [cue/ast]

    A pointer to a syntax node is the node's identifier: every node carries
    one, as every Go node has its address. [Ident.Node] and [Ident.Scope]
    point back into the tree, so they hold identifiers (an alias is looked
    through at once by [walk] and holds its expression). *)
Abbreviation NodeId := nat.

(** The tokens [walk] tells apart; [OtherToken] stands for the rest. *)
Inductive token : Type :=
  | OR | MUL | NOT | ADD | SUB
  | GEQ | GTR | LSS | LEQ | NEQ | MAT | NMAT
  | OtherToken (code : nat).

(** The node types [walk] has a case for, with the fields it reads, and
    [*ast.TemplateLabel], which occurs as a label. [Lbrace.IsValid()],
    [Ellipsis != token.NoPos] and [Optional != token.NoPos] are booleans;
    [Comments] holds the [Position] of each comment group of a field. A
    [*ast.Field] is a [field]; as a node it is [FieldDecl]. *)
Inductive node : Type :=
  | File (id : NodeId) (Decls : list node)
  | EmitDecl (id : NodeId) (Expr : node)
  | ImportDecl (id : NodeId) (Specs : list (NodeId * string))
  | ImportSpec (id : NodeId) (PathValue : string)
  | StructLit (id : NodeId) (LbraceValid : bool) (Elts : list node)
  | ListLit (id : NodeId) (Elts : list node) (Ellipsis : bool)
      (Type_ : option node)
  | ComprehensionDecl (id : NodeId) (Field : field) (Clauses : list clause)
  | FieldDecl (f : field)
  | Alias (id : NodeId) (Expr : node)
  | ListComprehension (id : NodeId) (Expr : node) (Clauses : list clause)
  | Ident (id : NodeId) (Name : string) (Node : identNode)
      (Scope : option NodeId)
  | BottomLit (id : NodeId)
  | BadDecl (id : NodeId)
  | BadExpr (id : NodeId)
  | BasicLit (id : NodeId) (Kind : token) (Value : string)
  | Interpolation (id : NodeId) (Elts : list node)
  | ParenExpr (id : NodeId) (X : node)
  | SelectorExpr (id : NodeId) (X : node) (SelName : string)
  | IndexExpr (id : NodeId) (X Index : node)
  | SliceExpr (id : NodeId) (X : node) (Low High : option node)
  | CallExpr (id : NodeId) (Fun : node) (Args : list node)
  | UnaryExpr (id : NodeId) (Op : token) (X : node)
  | BinaryExpr (id : NodeId) (Op : token) (X Y : node)
  | CommentGroup (id : NodeId)
  | TemplateLabel (id : NodeId) (IdentName : string)
with field : Type :=
  | mkField (id : NodeId) (Label : node) (Optional : bool) (Value : node)
      (Attrs : list string) (Comments : list Z)
with clause : Type :=
  | ForClause (id : NodeId) (Key : option (NodeId * string))
      (ValueName : string) (Source : node)
  | IfClause (id : NodeId) (Condition : node)
with identNode : Type :=
  | NodeNil
  | NodeAlias (Expr : node)
  | NodeOther (id : NodeId).

Definition field_id (f : field) : NodeId :=
  match f with mkField id _ _ _ _ _ => id end.

Definition node_id (n : node) : NodeId :=
  match n with
  | File id _ | EmitDecl id _ | ImportDecl id _ | ImportSpec id _
  | StructLit id _ _ | ListLit id _ _ _ | ComprehensionDecl id _ _
  | Alias id _ | ListComprehension id _ _ | Ident id _ _ _
  | BottomLit id | BadDecl id | BadExpr id | BasicLit id _ _
  | Interpolation id _ | ParenExpr id _ | SelectorExpr id _ _
  | IndexExpr id _ _ | SliceExpr id _ _ _ | CallExpr id _ _
  | UnaryExpr id _ _ | BinaryExpr id _ _ _ | CommentGroup id
  | TemplateLabel id _ => id
  | FieldDecl f => field_id f
  end.

(** *** Values

    The types of the value graph are declared in other files of the
    package. The types [ast.go] only passes around are taken as given. *)
Class Types : Type := {
  op : Type;
  kind : Type;
  label : Type;
  label_eq_dec :: EqDecision label;
  attrs : Type;
  quoteInfo : Type;
  buildInstance : Type;
  extern : Type
}.

(** Pointers to structs, lambdas and yields are locations of their stores. *)
Abbreviation loc := nat.

(** The interface [scope]: a [*structLit] or a [*lambdaExpr]. *)
Inductive scope : Type :=
  | ScopeStruct (l : loc)
  | ScopeLambda (l : loc).

Global Instance scope_eq_dec : EqDecision scope.
Proof. solve_decision. Defined.

(** Modelled from the spec: [baseValue] and its constructors [newExpr],
    [newNode] and [newDecl] are declared in another file; "every variant
    carries a source-position reference", which is the node the value was
    made for, or nil in a zero [baseValue]. *)
Abbreviation baseValue := (option NodeId).

Definition newExpr (n : NodeId) : baseValue := Some n.
Definition newNode (n : NodeId) : baseValue := Some n.
Definition newDecl (n : NodeId) : baseValue := Some n.

(** Modelled from the spec: the struct [bottom] is declared in another
    file; "Bottom, the failure value", has a source position and a message,
    the two fields of the literal [&bottom{baseValue: newExpr(n), msg: "from
    source"}]. *)
Record bottom : Type := mkBottom {
  bottom_base : baseValue;
  msg : string
}.

(** The struct of the literal [&docNode{n: n}]. *)
Record docNode : Type := mkDocNode { docNode_n : NodeId }.

(** The arguments of a message: [errf] is called with strings, syntax
    nodes, tokens and errors. *)
Inductive arg : Type :=
  | ArgString (s : string)
  | ArgNode (n : NodeId)
  | ArgToken (t : token)
  | ArgError (e : string).

(** The struct of the literal [&nodeError{path: ..., n: n, Message:
    errors.Message{Format: format, Args: args}}]. *)
Record nodeError : Type := mkNodeError {
  path : list string;
  nodeError_n : NodeId;
  Format : string;
  Args : list arg
}.

(** The receiver of [walk]. The fields [sel], [doc] and [inSelector] are
    assigned during the walk; a visitor is not touched while one of its
    children is walking, so a child holds its parent as it was when the
    child was made. [inSelector] counts the selectors around the node being
    walked, so it stays within the depth of the tree and far from the
    bounds of [int]. The shared [*astState] is part of [world] below. *)
Inductive astVisitor : Type :=
  | mkVisitor (object : loc) (parent : option astVisitor) (sel : string)
      (doc : option docNode) (inSelector : Z).

Definition object (v : astVisitor) : loc :=
  match v with mkVisitor o _ _ _ _ => o end.
Definition parent (v : astVisitor) : option astVisitor :=
  match v with mkVisitor _ p _ _ _ => p end.
Definition sel (v : astVisitor) : string :=
  match v with mkVisitor _ _ s _ _ => s end.
Definition doc (v : astVisitor) : option docNode :=
  match v with mkVisitor _ _ _ d _ => d end.
Definition inSelector (v : astVisitor) : Z :=
  match v with mkVisitor _ _ _ _ i => i end.

Definition set_sel (s : string) (v : astVisitor) : astVisitor :=
  mkVisitor (object v) (parent v) s (doc v) (inSelector v).
Definition set_doc (d : option docNode) (v : astVisitor) : astVisitor :=
  mkVisitor (object v) (parent v) (sel v) d (inSelector v).
Definition set_inSelector (i : Z) (v : astVisitor) : astVisitor :=
  mkVisitor (object v) (parent v) (sel v) (doc v) i.

(** [func (v *astVisitor) appendPath(a []string) []string] *)
Fixpoint appendPath (v : astVisitor) (a : list string) : list string :=
  match v with
  | mkVisitor _ p s _ _ =>
      let a := match p with
               | Some p => appendPath p a
               | None => a
               end in
      if String.eqb s EmptyString then a else a ++ [s]
  end.

Section Values.
Context {T : Types}.

(** Modelled from the spec: the value types are declared in other files.
    "Value, a closed polymorphic type, one variant per syntax construct
    after lowering": here one constructor per composite literal of [ast.go],
    with the fields the literal sets, [VNil] for the nil interface and
    [VExtern] for the values the functions of other files build. A struct,
    a lambda or a yield is updated after others hold it, so its value is the
    pointer. A "Disjunction" is "an ordered sequence of (Value, isDefault)
    pairs" with a "has defaults" flag. *)
Inductive value : Type :=
  | VNil
  | VTop (b : baseValue)
  | VBasicType (b : baseValue) (k : kind)
  | VBottom (x : bottom)
  | VStringLit (b : baseValue) (str : string)
  | VNodeRef (b : baseValue) (node : scope)
  | VSelectorExpr (b : baseValue) (x : value) (feature : label)
  | VIndexExpr (b : baseValue) (x index : value)
  | VSliceExpr (b : baseValue) (x lo hi : value)
  | VCallExpr (b : baseValue) (x : value) (args : list value)
  | VUnaryExpr (b : baseValue) (o : op) (x : value)
  | VBinaryExpr (b : baseValue) (o : op) (left right : value)
  | VDisjunction (d : disjunction)
  | VList (b : baseValue) (elem : loc) (typ len : value)
  | VInterpolation (b : baseValue) (k : kind) (parts : list value)
  | VListComprehension (b : baseValue) (clauses : value)
  | VFieldComprehension (b : baseValue) (clauses : value) (isTemplate : bool)
  | VFeed (b : baseValue) (src : value) (fn : loc)
  | VGuard (b : baseValue) (condition : value) (val : value)
  | VStructLit (l : loc)
  | VLambdaExpr (l : loc)
  | VYield (l : loc)
  | VExtern (e : extern)
with disjunction : Type :=
  | mkDisjunction (b : baseValue) (values : list dValue) (hasDefaults : bool)
with dValue : Type :=
  | mkDValue (val : value) (marked : bool).

Definition d_base (d : disjunction) : baseValue :=
  match d with mkDisjunction b _ _ => b end.
Definition values (d : disjunction) : list dValue :=
  match d with mkDisjunction _ vs _ => vs end.
Definition hasDefaults (d : disjunction) : bool :=
  match d with mkDisjunction _ _ h => h end.
Definition dValue_val (x : dValue) : value :=
  match x with mkDValue v _ => v end.
Definition marked (x : dValue) : bool :=
  match x with mkDValue _ m => m end.

(** Modelled from the spec: the struct [arc] is declared outside [ast.go],
    which names its fields [feature] and [v]; the others are the ones of
    "arcs (label: feature id; value: Value; optional: bool; attributes;
    leading documentation)", written by [insertValue]. *)
Record arc : Type := mkArc {
  arc_feature : label;
  arc_v : value;
  arc_optional : bool;
  arc_attrs : option attrs;
  arc_docs : option docNode
}.

(** Modelled from the spec: the struct [structLit] is declared in another
    file; a "Record" is "an ordered sequence of arcs, a list of pending field
    comprehensions, at most one template, and an optional emit value", the
    fields [arcs], [comprehensions], [template] and [emit] that [ast.go]
    uses. *)
Record structLit : Type := mkStructLit {
  struct_base : baseValue;
  arcs : list arc;
  emit : value;
  template : value;
  comprehensions : list value
}.

(** Modelled from the spec: [newStruct] is declared in another file;
    [mapScope] uses it for the "stable placeholder node" handed out before
    the contents are filled in, a record with nothing in it. *)
Definition newStruct (b : baseValue) : structLit :=
  mkStructLit b [] VNil VNil [].

(** Modelled from the spec: the structs [lambdaExpr] and [params] are
    declared in another file; the literal [&lambdaExpr{newExpr(n.Source),
    params, nil}] has a source, the parameters and the body, a "lambda with
    two bound names (key, value)" being what two calls of [params.add]
    leave. *)
Record lambdaExpr : Type := mkLambdaExpr {
  lambda_base : baseValue;
  params : list (label * value);
  lambda_value : value
}.

(** The struct of the literal [&yield{baseValue: ...}], with the fields
    [opt], [key] and [value] that [walk] assigns. *)
Record yield : Type := mkYield {
  yield_base : baseValue;
  opt : bool;
  key : value;
  yield_value : value
}.

End Values.

(** *** What [ast.go] calls and does not define

    Functions, tables and constants of other files and packages; a function
    that takes the context is a function of its other arguments.
    - [tokenMap], [predefinedRanges]: the tables of these names;
      [DropOptional] is [internal.DropOptional];
    - [kind_or]: the [|] of two kinds;
    - [strLabel name true] is [v.label(name, true)], [indexLabel i] the
      conversion [label(i)], [zeroLabel] the label [0];
    - [createAttrs] returns the attributes and an error value, [VNil] for
      nil; [insertValue] gives the struct after [insertValue]; [initLit]
      gives the [typ] and [len] that [list.initLit()] sets;
    - [litParser_parse] is [v.litParser.parse] on a [*ast.BasicLit];
      [Unquote] and [ParseQuotes] are the ones of package [literal], with
      [None] and [inr] for an error;
    - [getBuiltinPkg] and [getBuiltinShorthandPkg] return a [*structLit] or
      nil; [LookupImport] is [v.inst.LookupImport], [loadInstance_rootValue
      bimp] is [v.index.loadInstance(bimp).rootValue.evalPartial(ctx)];
    - [mkErr] is [v.mkErr], which returns a [*bottom]. *)
Class Externals {T : Types} : Type := {
  tokenMap : token -> op;
  opUnify : op;
  opGeq : op;
  stringKind : kind;
  bytesKind : kind;
  boolKind : kind;
  intKind : kind;
  floatKind : kind;
  numKind : kind;
  durationKind : kind;
  topKind : kind;
  nonGround : kind;
  kind_or : kind -> kind -> kind;
  strLabel : string -> bool -> label;
  indexLabel : nat -> label;
  zeroLabel : label;
  nodeLabel : node -> label * bool;
  LabelName : node -> string * bool;
  DropOptional : bool;
  createAttrs : baseValue -> list string -> option attrs * value;
  insertValue : structLit -> label -> bool -> value -> option attrs ->
                option docNode -> structLit;
  mkBin : op -> value -> value -> value;
  newBound : baseValue -> op -> kind -> value -> value;
  initLit : baseValue -> list arc -> value * value;
  lenBuiltin : value;
  andBuiltin : value;
  orBuiltin : value;
  predefinedRanges : string -> option value;
  litParser_parse : NodeId -> token -> string -> value;
  Unquote : string -> option string;
  ParseQuotes : string -> string -> (quoteInfo * nat) + string;
  parseString : NodeId -> quoteInfo -> string -> value;
  getBuiltinShorthandPkg : string -> option loc;
  getBuiltinPkg : string -> option loc;
  LookupImport : string -> option buildInstance;
  loadInstance_rootValue : buildInstance -> value;
  mkErr : baseValue -> list arg -> bottom
}.

Section Lowering.
Context {T : Types} {E : Externals}.

(** The state a walk runs in: the receiver [cur], the fields of the shared
    [astState] that [ast.go] uses ([resolveRoot], [astMap], [errors]), and
    the stores of the objects it updates through pointers. [errors.Add]
    appends to the list [errors]; a key absent from [astMap] is a key with
    the nil scope. *)
Record world : Type := mkWorld {
  cur : astVisitor;
  resolveRoot : option loc;
  astMap : gmap NodeId scope;
  errors : list nodeError;
  structs : list structLit;
  lambdas : list lambdaExpr;
  yields : list yield
}.

Definition set_cur (v : astVisitor) (w : world) : world :=
  mkWorld v (resolveRoot w) (astMap w) (errors w) (structs w) (lambdas w)
    (yields w).
Definition set_astMap (m : gmap NodeId scope) (w : world) : world :=
  mkWorld (cur w) (resolveRoot w) m (errors w) (structs w) (lambdas w)
    (yields w).
Definition set_errors (e : list nodeError) (w : world) : world :=
  mkWorld (cur w) (resolveRoot w) (astMap w) e (structs w) (lambdas w)
    (yields w).
Definition set_structs (s : list structLit) (w : world) : world :=
  mkWorld (cur w) (resolveRoot w) (astMap w) (errors w) s (lambdas w)
    (yields w).
Definition set_lambdas (l : list lambdaExpr) (w : world) : world :=
  mkWorld (cur w) (resolveRoot w) (astMap w) (errors w) (structs w) l
    (yields w).
Definition set_yields (y : list yield) (w : world) : world :=
  mkWorld (cur w) (resolveRoot w) (astMap w) (errors w) (structs w)
    (lambdas w) y.

(** A computation ends with a result and a new state, or panics. *)
Inductive Res (A : Type) : Type :=
  | Ok (a : A) (w : world)
  | Panic (reason : string).
Arguments Ok {A}.
Arguments Panic {A}.

Definition M (A : Type) : Type := world -> Res A.

Definition ret {A : Type} (a : A) : M A := fun w => Ok a w.
Definition bind {A B : Type} (m : M A) (f : A -> M B) : M B := fun w =>
  match m w with
  | Ok a w => f a w
  | Panic r => Panic r
  end.

Global Instance M_ret : MRet M := fun A a => ret a.
Global Instance M_bind : MBind M := fun A B f m => bind m f.

Definition panic {A : Type} (reason : string) : M A := fun _ => Panic reason.
Definition get : M world := fun w => Ok w w.
Definition modify (f : world -> world) : M unit := fun w => Ok tt (f w).

Definition getv : M astVisitor := fun w => Ok (cur w) w.
Definition modv (f : astVisitor -> astVisitor) : M unit :=
  modify (fun w => set_cur (f (cur w)) w).

(** A method call [v1.m(...)] on another visitor: [m] runs with [v1] as
    receiver; the caller gets [v1] back as [m] left it. *)
Definition call {A : Type} (v1 : astVisitor) (m : M A) : M (A * astVisitor) :=
  fun w =>
    match m (set_cur v1 w) with
    | Ok a w' => Ok (a, cur w') (set_cur (cur w) w')
    | Panic r => Panic r
    end.

(** Reading and writing through a [*structLit], [*lambdaExpr] or [*yield];
    the composite literals [&T{...}] allocate. *)
Definition nilDeref : string :=
  "invalid memory address or nil pointer dereference".

Definition getStruct (l : loc) : M structLit := fun w =>
  match structs w !! l with
  | Some s => Ok s w
  | None => Panic nilDeref
  end.
Definition modStruct (l : loc) (f : structLit -> structLit) : M unit :=
  s ← getStruct l;
  modify (fun w => set_structs (<[l := f s]> (structs w)) w).
Definition allocStruct (s : structLit) : M loc := fun w =>
  Ok (length (structs w)) (set_structs (structs w ++ [s]) w).

Definition getLambda (l : loc) : M lambdaExpr := fun w =>
  match lambdas w !! l with
  | Some s => Ok s w
  | None => Panic nilDeref
  end.
Definition modLambda (l : loc) (f : lambdaExpr -> lambdaExpr) : M unit :=
  s ← getLambda l;
  modify (fun w => set_lambdas (<[l := f s]> (lambdas w)) w).
Definition allocLambda (s : lambdaExpr) : M loc := fun w =>
  Ok (length (lambdas w)) (set_lambdas (lambdas w ++ [s]) w).

Definition getYield (l : loc) : M yield := fun w =>
  match yields w !! l with
  | Some s => Ok s w
  | None => Panic nilDeref
  end.
Definition modYield (l : loc) (f : yield -> yield) : M unit :=
  s ← getYield l;
  modify (fun w => set_yields (<[l := f s]> (yields w)) w).
Definition allocYield (s : yield) : M loc := fun w =>
  Ok (length (yields w)) (set_yields (yields w ++ [s]) w).

Definition set_emit (x : value) (s : structLit) : structLit :=
  mkStructLit (struct_base s) (arcs s) x (template s) (comprehensions s).
Definition set_template (x : value) (s : structLit) : structLit :=
  mkStructLit (struct_base s) (arcs s) (emit s) x (comprehensions s).
Definition add_comprehension (fc : value) (s : structLit) : structLit :=
  mkStructLit (struct_base s) (arcs s) (emit s) (template s)
    (comprehensions s ++ [fc]).

Definition set_lambda_value (x : value) (f : lambdaExpr) : lambdaExpr :=
  mkLambdaExpr (lambda_base f) (params f) x.
(** Modelled from the spec: [params.add(f, v)] is declared in another
    file; it adds a bound name to the lambda, after those it has. *)
Definition params_add (f : label) (x : value) (fn : lambdaExpr) : lambdaExpr :=
  mkLambdaExpr (lambda_base fn) (params fn ++ [(f, x)]) (lambda_value fn).

Definition set_key (x : value) (y : yield) : yield :=
  mkYield (yield_base y) (opt y) x (yield_value y).
Definition set_yield_value (x : value) (y : yield) : yield :=
  mkYield (yield_base y) (opt y) (key y) x.
Definition set_opt (o : bool) (y : yield) : yield :=
  mkYield (yield_base y) o (key y) (yield_value y).

(** [func (s *astState) mapScope(n ast.Node) (m scope)] *)
Definition mapScope (n : NodeId) : M scope := fun w =>
  match astMap w !! n with
  | Some m => Ok m w
  | None =>
      let m := ScopeStruct (length (structs w)) in
      Ok m (set_astMap (<[n := m]> (astMap w))
              (set_structs (structs w ++ [newStruct (newNode n)]) w))
  end.

(** [func (s *astState) setScope(n ast.Node, v scope)] *)
Definition setScope (n : NodeId) (v : scope) : M unit := fun w =>
  match astMap w !! n with
  | Some m =>
      if bool_decide (m <> v) then Panic "already defined"
      else Ok tt (set_astMap (<[n := v]> (astMap w)) w)
  | None => Ok tt (set_astMap (<[n := v]> (astMap w)) w)
  end.

(** [func (v *astVisitor) errf(n ast.Node, format string, args
    ...interface{}) evaluated] *)
Definition errf (n : NodeId) (format : string) (args : list arg) : M value :=
  v ← getv;
  _ ← modify (fun w =>
         set_errors (errors w ++ [mkNodeError (appendPath v []) n format args])
           w);
  let arguments := ArgString format :: args in
  mret (VBottom (mkErr (newNode n) arguments)).

(** Modelled from the spec: [isBottom] is declared in another file; it
    tells whether a value "is a Bottom". *)
Definition isBottom (x : value) : bool :=
  match x with
  | VBottom _ => true
  | _ => false
  end.

(** [func (v *astVisitor) resolve(n *ast.Ident) value] *)
Definition resolve (id : NodeId) (name : string) : M value :=
  v ← getv;
  w ← get;
  let label := strLabel name true in
  match resolveRoot w with
  | Some r =>
      s ← getStruct r;
      if existsb (fun a => bool_decide (arc_feature a = label)) (arcs s) then
        mret (VSelectorExpr (newExpr id)
                (VNodeRef (newExpr id) (ScopeStruct r)) label)
      else if inSelector v >? 0 then
        match getBuiltinShorthandPkg name with
        | Some p => mret (VNodeRef (newExpr id) (ScopeStruct p))
        | None => mret VNil
        end
      else mret VNil
  | None => mret VNil
  end.

(** [func (v *astVisitor) loadImport(imp *ast.ImportSpec) evaluated] *)
Definition loadImport (id : NodeId) (pathValue : string) : M value :=
  match Unquote pathValue with
  | None => errf id "illformed import spec" []
  | Some path =>
      match getBuiltinPkg path with
      | Some p => mret (VStructLit p)
      | None =>
          match LookupImport path with
          | None => errf id "package %q not found" [ArgString path]
          | Some bimp => mret (loadInstance_rootValue bimp)
          end
      end
  end.

(** The case [*ast.ImportSpec] of [walk]. *)
Definition walkImportSpec (id : NodeId) (pathValue : string) : M value :=
  val ← loadImport id pathValue;
  if negb (isBottom val) then
    match val with
    | VStructLit l => _ ← setScope id (ScopeStruct l); mret VNil
    | _ => panic "interface conversion: value is not *structLit"
    end
  else mret VNil.

(** [strconv.Itoa] on an index. *)
Definition Itoa (i : nat) : string := NilZero.string_of_uint (Nat.to_uint i).


Definition set_hasDefaults (h : bool) (d : disjunction) : disjunction :=
  mkDisjunction (d_base d) (values d) h.
Definition add_value (x : dValue) (d : disjunction) : disjunction :=
  mkDisjunction (d_base d) (values d ++ [x]) (hasDefaults d).

(** *** The loops of [walk] and the functions it is recursive with

    Each takes [walk] as an argument; the recursive definition of [walk]
    below passes itself. *)
Section Loops.
Variable walk : node -> M value.

(** The loop over [n.Decls] in the case [*ast.File]; [v1.object.emit] is
    read before [v1.walk(x.Expr)] runs. *)
Definition walkDecls_with : list node -> astVisitor -> M astVisitor :=
  fix loop (ds : list node) (v1 : astVisitor) : M astVisitor :=
    match ds with
    | [] => mret v1
    | e :: ds =>
        match e with
        | EmitDecl _ x =>
            o ← getStruct (object v1);
            match emit o with
            | VNil =>
                '(r, v1) ← call v1 (walk x);
                _ ← modStruct (object v1) (set_emit r);
                loop ds v1
            | em =>
                '(r, v1) ← call v1 (walk x);
                _ ← modStruct (object v1) (set_emit (mkBin opUnify em r));
                loop ds v1
            end
        | _ =>
            '(_, v1) ← call v1 (walk e);
            loop ds v1
        end
    end.

(** The loop over [n.Elts] in the case [*ast.StructLit]; [Some r] is the
    early [return r]. *)
Definition walkElts_with
  : list node -> astVisitor -> M (option value * astVisitor) :=
  fix loop (es : list node) (v1 : astVisitor)
    : M (option value * astVisitor) :=
    match es with
    | [] => mret (None, v1)
    | e :: es =>
        match e with
        | EmitDecl id _ =>
            '(r, v1) ← call v1
              (errf id "emitting values is only allowed at top level" []);
            mret (Some r, v1)
        | FieldDecl _ | Alias _ _ | ComprehensionDecl _ _ _ =>
            '(_, v1) ← call v1 (walk e);
            loop es v1
        | _ => loop es v1
        end
    end.

(** The loop over [n.Elts] in the case [*ast.ListLit]. *)
Definition walkListElts_with
  : list node -> nat -> list arc -> astVisitor -> M (list arc * astVisitor) :=
  fix loop (es : list node) (i : nat) (arcs : list arc) (v1 : astVisitor)
    : M (list arc * astVisitor) :=
    match es with
    | [] => mret (arcs, v1)
    | e :: es =>
        let v1 := set_sel (Itoa i) v1 in
        '(x, v1) ← call v1 (walk e);
        loop es (S i) (arcs ++ [mkArc (indexLabel i) x false None None]) v1
    end.

(** The loop over [n.Args] in the case [*ast.CallExpr]. *)
Definition walkArgs_with : list node -> list value -> M (list value) :=
  fix loop (es : list node) (args : list value) : M (list value) :=
    match es with
    | [] => mret args
    | a :: es => x ← walk a; loop es (args ++ [x])
    end.

(** The loop [for i := 0; i < len(n.Elts); i += 2] in the case
    [*ast.Interpolation], on the elements from index [i] on. *)
Definition walkParts_with (id : NodeId) (info : quoteInfo)
  : list node -> string -> nat -> list value -> M value :=
  fix loop (es : list node) (prefix : string) (prefixLen : nat)
      (parts : list value) : M value :=
    match es with
    | [] => mret (VInterpolation (newExpr id) stringKind parts)
    | e :: es =>
        match e with
        | BasicLit lid _ lvalue =>
            if negb (String.prefix prefix lvalue) then
              errf lid "invalid interpolation: unmatched ')'" []
            else if (String.length lvalue <? prefixLen)%nat then
              panic "slice bounds out of range"
            else
              let s := String.substring prefixLen
                         (String.length lvalue - prefixLen) lvalue in
              let x := parseString lid info s in
              let parts := parts ++ [x] in
              match es with
              | [] => mret (VInterpolation (newExpr id) stringKind parts)
              | e1 :: es =>
                  x1 ← walk e1;
                  loop es ")"%string 1%nat (parts ++ [x1])
              end
        | _ => errf id "invalid interpolation" []
        end
    end.

(** [func (v *astVisitor) addDisjunctionElem(d *disjunction, n ast.Node,
    mark bool)]; the disjunction under construction is passed and
    returned. *)
Definition addDisjunctionElem_with
  : disjunction -> node -> bool -> M disjunction :=
  fix addDisjunctionElem (d : disjunction) (n : node) (mark : bool)
    : M disjunction :=
    match n with
    | BinaryExpr _ OR x y =>
        d ← addDisjunctionElem d x mark;
        addDisjunctionElem d y mark
    | UnaryExpr _ MUL x =>
        let mark := true in
        let d := set_hasDefaults true d in
        r ← walk x;
        mret (add_value (mkDValue r mark) d)
    | UnaryExpr _ _ _ =>
        let d := set_hasDefaults true d in
        r ← walk n;
        mret (add_value (mkDValue r mark) d)
    | _ =>
        r ← walk n;
        mret (add_value (mkDValue r mark) d)
    end.

(** The first loop of [wrapClauses]: a lambda for every [for] clause. *)
Definition registerClauses : list clause -> M unit :=
  fix loop (cs : list clause) : M unit :=
    match cs with
    | [] => mret tt
    | c :: cs =>
        match c with
        | ForClause id _ _ source =>
            fn ← allocLambda (mkLambdaExpr (newExpr (node_id source)) [] VNil);
            _ ← setScope id (ScopeLambda fn);
            loop cs
        | IfClause _ _ => loop cs
        end
    end.

(** The second loop of [wrapClauses], [for i := len(clauses) - 1; i >= 0;
    i--]: the clauses after the first are wrapped before it. *)
Definition wrapLoop_with : list clause -> value -> M value :=
  fix loop (cs : list clause) (y : value) : M value :=
    match cs with
    | [] => mret y
    | c :: cs =>
        y ← loop cs y;
        match c with
        | ForClause id key valueName source =>
            m ← mapScope id;
            match m with
            | ScopeLambda fn =>
                _ ← modLambda fn (set_lambda_value y);
                let k := match key with
                         | Some (_, name) => name
                         | None => "_"%string
                         end in
                let f := strLabel k true in
                _ ← modLambda fn
                      (params_add f
                         (VBasicType (fst <$> key)
                            (kind_or stringKind intKind)));
                let f := strLabel valueName true in
                _ ← modLambda fn (params_add f (VTop None));
                src ← walk source;
                mret (VFeed (newExpr (node_id source)) src fn)
            | ScopeStruct _ =>
                panic "interface conversion: scope is not *lambdaExpr"
            end
        | IfClause _ condition =>
            c ← walk condition;
            mret (VGuard (newExpr (node_id condition)) c y)
        end
    end.

(** [func wrapClauses(v *astVisitor, y yielder, clauses []ast.Clause)
    yielder] *)
Definition wrapClauses_with (y : value) (clauses : list clause) : M value :=
  _ ← registerClauses clauses;
  wrapLoop_with clauses y.

End Loops.

Definition nilOr (x : option (M value)) : M value :=
  match x with
  | Some m => m
  | None => mret VNil
  end.

(** [func (v *astVisitor) walk(astNode ast.Node) (value value)] *)
Fixpoint walk (astNode : node) : M value :=
  match astNode with
  | File _ Decls =>
      v ← getv;
      let obj := object v in
      let v1 := mkVisitor obj None EmptyString None 0 in
      _ ← walkDecls_with walk Decls v1;
      mret (VStructLit obj)

  | ImportDecl _ Specs =>
      _ ← (fix loop (ss : list (NodeId * string)) : M unit :=
             match ss with
             | [] => mret tt
             | (id, p) :: ss => _ ← walkImportSpec id p; loop ss
             end) Specs;
      mret VNil

  | ImportSpec id PathValue => walkImportSpec id PathValue

  | StructLit id LbraceValid Elts =>
      m ← mapScope id;
      match m with
      | ScopeStruct obj =>
          v ← getv;
          let v1 := mkVisitor obj (Some v) EmptyString None 0 in
          let passDoc :=
            bool_decide (length Elts = 1%nat) && negb LbraceValid
            && bool_decide (doc v <> None) in
          let v1 := if passDoc then set_doc (doc v) v1 else v1 in
          '(r, v1) ← walkElts_with walk Elts v1;
          match r with
          | Some r => mret r
          | None =>
              _ ← (if passDoc then modv (set_doc (doc v1)) else mret tt);
              mret (VStructLit obj)
          end
      | ScopeLambda _ =>
          panic "interface conversion: scope is not *structLit"
      end

  | ListLit id Elts Ellipsis Type_ =>
      v ← getv;
      let v1 := mkVisitor (object v) (Some v) EmptyString None 0 in
      '(arcs, v1) ← walkListElts_with walk Elts 0%nat [] v1;
      s ← allocStruct (mkStructLit (newExpr id) arcs VNil VNil []);
      let '(typ, len) := initLit (newExpr id) arcs in
      if Ellipsis || bool_decide (Type_ <> None) then
        let len := newBound (newExpr id) opGeq intKind len in
        match Type_ with
        | Some t =>
            '(typ, _) ← call v1 (walk t);
            mret (VList (newExpr id) s typ len)
        | None => mret (VList (newExpr id) s typ len)
        end
      else mret (VList (newExpr id) s typ len)

  | ComprehensionDecl id (mkField fid Label _ Value _ _) Clauses =>
      yielder ← allocYield
                  (mkYield (newExpr (node_id Value)) false VNil VNil);
      clauses ← wrapClauses_with walk (VYield yielder) Clauses;
      let finish (isTemplate : bool) : M value :=
        v ← getv;
        _ ← modStruct (object v)
              (add_comprehension
                 (VFieldComprehension (newDecl id) clauses isTemplate));
        mret VNil in
      match Label with
      | Interpolation _ _ =>
          _ ← modv (set_sel "?");
          k ← walk Label;
          _ ← modYield yielder (set_key k);
          x ← walk Value;
          _ ← modYield yielder (set_yield_value x);
          finish false
      | TemplateLabel _ IdentName =>
          _ ← modv (set_sel "*");
          let f := strLabel IdentName true in
          let sig := [(f, VBasicType (newNode (node_id Label)) stringKind)] in
          tmpl ← allocLambda
                   (mkLambdaExpr (newExpr (node_id Value)) sig VNil);
          _ ← setScope fid (ScopeLambda tmpl);
          x ← walk Value;
          _ ← modLambda tmpl (set_lambda_value x);
          _ ← modYield yielder (set_yield_value (VLambdaExpr tmpl));
          finish true
      | BasicLit _ _ _ | Ident _ _ _ _ =>
          let '(name, ok) := LabelName Label in
          if negb ok then
            errf (node_id Label) "invalid field name: %v"
              [ArgNode (node_id Label)]
          else
            _ ← modv (set_sel name);
            _ ← (if negb (String.eqb name EmptyString) then
                   _ ← modYield yielder
                         (set_key (VStringLit (newNode (node_id Label)) name));
                   x ← walk Value;
                   modYield yielder (set_yield_value x)
                 else mret tt);
            finish false
      | _ => panic "cue: unknown label type"
      end

  | FieldDecl (mkField fid Label Optional Value Attrs Comments) =>
      let opt := Optional in
      match Label with
      | Interpolation _ _ =>
          _ ← modv (set_sel "?");
          yielder ← allocYield
                      (mkYield (newNode (node_id Label)) false VNil VNil);
          let fc := VFieldComprehension (newDecl fid) (VYield yielder) false in
          k ← walk Label;
          _ ← modYield yielder (set_key k);
          x ← walk Value;
          _ ← modYield yielder (set_yield_value x);
          _ ← modYield yielder (set_opt opt);
          v ← getv;
          _ ← modStruct (object v) (add_comprehension fc);
          mret VNil
      | TemplateLabel _ IdentName =>
          _ ← modv (set_sel "*");
          let f := strLabel IdentName true in
          let sig := [(f, VBasicType (newNode (node_id Label)) stringKind)] in
          tmpl ← allocLambda (mkLambdaExpr (newNode fid) sig VNil);
          _ ← setScope fid (ScopeLambda tmpl);
          x ← walk Value;
          _ ← modLambda tmpl (set_lambda_value x);
          v ← getv;
          o ← getStruct (object v);
          match template o with
          | VNil =>
              _ ← modStruct (object v) (set_template (VLambdaExpr tmpl));
              mret VNil
          | t =>
              _ ← modStruct (object v)
                    (set_template (mkBin opUnify t (VLambdaExpr tmpl)));
              mret VNil
          end
      | BasicLit _ _ _ | Ident _ _ _ _ =>
          if DropOptional && opt then mret VNil
          else
            _ ← modv (set_sel (fst (LabelName Label)));
            let '(attrs, err) := createAttrs (newNode fid) Attrs in
            match err with
            | VNil =>
                let '(f, ok) := nodeLabel Label in
                if negb ok then
                  errf (node_id Label) "invalid field name: %v"
                    [ArgNode (node_id Label)]
                else if bool_decide (f <> zeroLabel) then
                  v ← getv;
                  let leftOverDoc :=
                    if existsb (fun c => c =? 0) Comments then doc v
                    else None in
                  _ ← (if existsb (fun c => c =? 0) Comments
                       then modv (set_doc (Some (mkDocNode fid)))
                       else mret tt);
                  val ← walk Value;
                  v ← getv;
                  _ ← modStruct (object v)
                        (fun o => insertValue o f opt val attrs (doc v));
                  _ ← modv (set_doc leftOverDoc);
                  mret VNil
                else mret VNil
            | err => mret err
            end
      | _ => panic "cue: unknown label type"
      end

  | Alias _ _ => mret VNil

  | ListComprehension id Expr Clauses =>
      yielder ← allocYield (mkYield (newExpr (node_id Expr)) false VNil VNil);
      clauses ← wrapClauses_with walk (VYield yielder) Clauses;
      let lc := VListComprehension (newExpr id) clauses in
      x ← walk Expr;
      _ ← modYield yielder (set_yield_value x);
      mret lc

  | Ident id Name Node Scope =>
      match Node with
      | NodeNil =>
          value ← resolve id Name;
          match value with
          | VNil =>
              if String.eqb Name "_" then mret (VTop (newExpr id))
              else if String.eqb Name "string" then
                mret (VBasicType (newExpr id) stringKind)
              else if String.eqb Name "bytes" then
                mret (VBasicType (newExpr id) bytesKind)
              else if String.eqb Name "bool" then
                mret (VBasicType (newExpr id) boolKind)
              else if String.eqb Name "int" then
                mret (VBasicType (newExpr id) intKind)
              else if String.eqb Name "float" then
                mret (VBasicType (newExpr id) floatKind)
              else if String.eqb Name "number" then
                mret (VBasicType (newExpr id) numKind)
              else if String.eqb Name "duration" then
                mret (VBasicType (newExpr id) durationKind)
              else if String.eqb Name "len" then mret lenBuiltin
              else if String.eqb Name "and" then mret andBuiltin
              else if String.eqb Name "or" then mret orBuiltin
              else
                match predefinedRanges Name with
                | Some r => mret r
                | None =>
                    errf id "reference %q not found" [ArgString Name]
                end
          | _ => mret value
          end
      | NodeAlias Expr => walk Expr
      | NodeOther target =>
          let label := strLabel Name true in
          match Scope with
          | Some sc =>
              n2 ← mapScope sc;
              mret (VSelectorExpr (newExpr id) (VNodeRef (newExpr id) n2)
                      label)
          | None =>
              n2 ← mapScope target;
              mret (VNodeRef (newExpr id) n2)
          end
      end

  | BottomLit id => mret (VBottom (mkBottom (newExpr id) "from source"))

  | BadDecl _ => mret VNil

  | BadExpr id => errf id "invalid expression" []

  | BasicLit id Kind Value => mret (litParser_parse id Kind Value)

  | Interpolation id Elts =>
      match Elts with
      | [] => errf id "invalid interpolation" []
      | e0 :: _ =>
          match e0, last Elts with
          | BasicLit _ _ first, Some (BasicLit _ _ lastValue) =>
              match Elts with
              | [e] => walk e
              | _ =>
                  match ParseQuotes first lastValue with
                  | inr err =>
                      errf id "invalid interpolation: %v" [ArgError err]
                  | inl (info, prefixLen) =>
                      walkParts_with walk id info Elts EmptyString prefixLen
                        []
                  end
              end
          | _, _ => errf id "invalid interpolation" []
          end
      end

  | ParenExpr _ X => walk X

  | SelectorExpr id X SelName =>
      _ ← modv (fun v => set_inSelector (inSelector v + 1) v);
      x ← walk X;
      let value := VSelectorExpr (newExpr id) x (strLabel SelName true) in
      _ ← modv (fun v => set_inSelector (inSelector v - 1) v);
      mret value

  | IndexExpr id X Index =>
      x ← walk X;
      i ← walk Index;
      mret (VIndexExpr (newExpr id) x i)

  | SliceExpr id X Low High =>
      x ← walk X;
      lo ← nilOr (walk <$> Low);
      hi ← nilOr (walk <$> High);
      mret (VSliceExpr (newExpr id) x lo hi)

  | CallExpr id Fun Args =>
      x ← walk Fun;
      args ← walkArgs_with walk Args [];
      mret (VCallExpr (newExpr id) x args)

  | UnaryExpr id Op X =>
      match Op with
      | NOT | ADD | SUB =>
          x ← walk X;
          mret (VUnaryExpr (newExpr id) (tokenMap Op) x)
      | GEQ | GTR | LSS | LEQ | NEQ | MAT | NMAT =>
          x ← walk X;
          mret (newBound (newExpr id) (tokenMap Op) (kind_or topKind nonGround)
                  x)
      | MUL => errf id "preference mark not allowed at this position" []
      | _ => errf id "unsupported unary operator %q" [ArgToken Op]
      end

  | BinaryExpr id Op X Y =>
      match Op with
      | OR =>
          let d := mkDisjunction (newExpr id) [] false in
          d ← addDisjunctionElem_with walk d X false;
          d ← addDisjunctionElem_with walk d Y false;
          mret (VDisjunction d)
      | _ =>
          l ← walk X;
          r ← walk Y;
          mret (VBinaryExpr (newExpr id) (tokenMap Op) l r)
      end

  | CommentGroup _ => mret VNil

  | EmitDecl _ _ => panic "unimplemented *ast.EmitDecl"
  | TemplateLabel _ _ => panic "unimplemented *ast.TemplateLabel"
  end.

Definition addDisjunctionElem : disjunction -> node -> bool -> M disjunction :=
  addDisjunctionElem_with walk.

Definition wrapClauses : value -> list clause -> M value :=
  wrapClauses_with walk.


(** The fields of [Instance] that [insertFile] reads. *)
Record Instance : Type := mkInstance {
  rootStruct : loc;
  inst_scope : option loc
}.

(** The error [insertFile] returns: the list [v.errors] or a
    [*callError]. *)
Inductive error : Type :=
  | ErrorList (l : list nodeError)
  | CallError (b : bottom).

(** [newVisitor(idx, inst, obj, resolveRoot)], on the stores as they are. *)
Definition newVisitor (obj : loc) (resolveRoot : option loc) (w : world)
  : world :=
  mkWorld (mkVisitor obj None EmptyString None 0) resolveRoot ∅ []
    (structs w) (lambdas w) (yields w).

(** [func (inst *Instance) insertFile(f *ast.File) error]; [None] is the
    nil error. *)
Definition insertFile (inst : Instance) (fid : NodeId) (Decls : list node)
  : M (option error) :=
  _ ← modify (newVisitor (rootStruct inst) (inst_scope inst));
  _ ← modify (fun w =>
         set_astMap (<[fid := ScopeStruct (rootStruct inst)]> (astMap w)) w);
  result ← walk (File fid Decls);
  if isBottom result then
    w ← get;
    if (0 <? length (errors w))%nat then mret (Some (ErrorList (errors w)))
    else
      match result with
      | VBottom b => mret (Some (CallError b))
      | _ => panic "interface conversion: value is not *bottom"
      end
  else mret None.

End Lowering.

Arguments Ok {T A}.
Arguments Panic {T A}.

End cue.

(** ** The vocabulary of the statements about [adt] *)
Module adt_spec.
Import adt.

(** The two classes of codes, as the specification names them. *)
Definition fatal_code (c : ErrorCode) : Prop :=
  c = EvalError \/ c = UserError \/ c = NotExistError \/
  c = StructuralCycleError.

Definition incomplete_code (c : ErrorCode) : Prop :=
  c = IncompleteError \/ c = CycleError.

(** A pointer of a running program is nil or allocated. *)
Definition valid_ptr {A : Type} (h : list A) (p : option loc) : Prop :=
  forall l, p = Some l -> (l < length h)%nat.

(** A store and Bottoms to run the theorems on. *)
Definition demoBottom (c : ErrorCode) (msg : string)
  : Bottom (list string) nat :=
  mkBottom None [msg] c false false NilValue.

Definition demoHeap : list (Bottom (list string) nat) :=
  [demoBottom UserError "user"; demoBottom CycleError "cycle";
   demoBottom UserError "again"; demoBottom StructuralCycleError "structural"].

(** The calls of [AddChildError] that a vertex receives, one per failing
    descendant, in order. *)
Section Aggregate.
Context {Error Node : Type} (Append : Error -> Error -> Error).

Fixpoint AddChildErrors (v : Vertex) (rs : list loc)
    (h : list (Bottom Error Node)) : option (Vertex * list (Bottom Error Node)) :=
  match rs with
  | [] => Some (v, h)
  | lr :: rs =>
      '(v, h) ← AddChildError Append v (Some lr) h;
      AddChildErrors v rs h
  end.

(** What a run of child errors leaves in the value of a vertex that had no
    error: nothing while all are incomplete-class, else the message of the
    first fatal-class one and the least fatal-class code. *)
Fixpoint aggregate (acc : option (Error * ErrorCode))
    (rs : list (Bottom Error Node)) : option (Error * ErrorCode) :=
  match rs with
  | [] => acc
  | r :: rs =>
      aggregate
        (if (Code r =? IncompleteError) || (Code r =? CycleError) then acc
         else match acc with
              | None => Some (Err r, Code r)
              | Some (e, c) => Some (e, Z.min c (Code r))
              end)
        rs
  end.

(** The state of a vertex in the middle of a run of child errors: the
    Bottoms of the store [h] the run started from are as they were, and the
    value is the original one [x] or a Bottom allocated since, as [acc]
    tells. *)
Definition run_inv (x : Value) (h : list (Bottom Error Node))
    (acc : option (Error * ErrorCode)) (v1 : Vertex)
    (h1 : list (Bottom Error Node)) : Prop :=
  (forall k e, h !! k = Some e -> h1 !! k = Some e)
  /\ valid_ptr h1 (ChildErrors v1)
  /\ match acc with
     | None => Vertex_Value v1 = x
     | Some (e, c) =>
         exists l,
           Vertex_Value v1 = BottomPtr (Some l) /\ h !! l = None
           /\ h1 !! l = Some (mkBottom None e c true true x)
     end.

(** The least code of a run of child errors, from [acc] on. *)
Definition leastCode (acc : option ErrorCode) (rs : list (Bottom Error Node))
  : option ErrorCode :=
  fold_left
    (fun acc r =>
       Some (match acc with
             | None => Code r
             | Some c => Z.min c (Code r)
             end))
    rs acc.

(** The aggregate [v.ChildErrors] in the middle of a run of child errors
    that started in the store [h] on a vertex without error: nil while no
    child has been added, else a Bottom of code [c] that is not the one of
    the value, the latter being allocated after [h]. *)
Definition child_inv (h : list (Bottom Error Node)) (c : option ErrorCode)
    (v1 : Vertex) (h1 : list (Bottom Error Node)) : Prop :=
  (forall k e, h !! k = Some e -> h1 !! k = Some e)
  /\ ((forall l, Vertex_Value v1 <> BottomPtr (Some l))
      \/ exists l,
           Vertex_Value v1 = BottomPtr (Some l)
           /\ (length h <= l)%nat /\ is_Some (h1 !! l)
           /\ ChildErrors v1 <> Some l)
  /\ match c with
     | None => ChildErrors v1 = None
     | Some c =>
         exists lc b,
           ChildErrors v1 = Some lc /\ h1 !! lc = Some b /\ Code b = c
     end.

End Aggregate.

End adt_spec.

(** ** The vocabulary of the statements about [cue] *)
Module cue_spec.
Import cue.

Section Spec.
Context {T : Types} {E : Externals}.

(** The disjunction builder as the specification words it: "flattens a
    left-associated chain of [|] binary expressions into one ordered branch
    list (recursion on both operands when the operand is itself an [|]
    expression; otherwise the operand is one branch)". [operands] is that
    list, from left to right. *)
Fixpoint operands (n : node) : list node :=
  match n with
  | BinaryExpr _ OR x y => operands x ++ operands y
  | _ => [n]
  end.

(** "A branch prefixed with the default marker is lowered with that prefix
    stripped and flagged". *)
Definition isDefaultMarked (n : node) : bool :=
  match n with
  | UnaryExpr _ MUL _ => true
  | _ => false
  end.

Definition stripMark (n : node) : node :=
  match n with
  | UnaryExpr _ MUL x => x
  | _ => n
  end.

(** What the code looks at when it sets [hasDefaults]. *)
Definition isUnaryExpr (n : node) : bool :=
  match n with
  | UnaryExpr _ _ _ => true
  | _ => false
  end.

(** The branches of the operands [ns]: each is lowered in turn, without
    its marker, and flagged when it had one (or when [mark] is set, which
    [walk] never does). *)
Fixpoint lowerBranches (mark : bool) (ns : list node) : M (list dValue) :=
  match ns with
  | [] => mret []
  | n :: ns =>
      r ← walk (stripMark n);
      rs ← lowerBranches mark ns;
      mret (mkDValue r (isDefaultMarked n || mark) :: rs)
  end.

(** The expression of a clause: the source of a [for], the condition of an
    [if]. *)
Definition clause_expr (c : clause) : node :=
  match c with
  | ForClause _ _ _ source => source
  | IfClause _ condition => condition
  end.

(** The nodes [walk] may descend into from a node. *)
Definition children (n : node) : list node :=
  match n with
  | File _ ds => ds
  | EmitDecl _ e => [e]
  | StructLit _ _ es => es
  | ListLit _ es _ t => es ++ option_list t
  | ComprehensionDecl _ (mkField _ l _ v _ _) cs =>
      l :: v :: map clause_expr cs
  | FieldDecl (mkField _ l _ v _ _) => [l; v]
  | Alias _ e => [e]
  | ListComprehension _ e cs => e :: map clause_expr cs
  | Ident _ _ (NodeAlias e) _ => [e]
  | Interpolation _ es => es
  | ParenExpr _ x | SelectorExpr _ x _ | UnaryExpr _ _ x => [x]
  | IndexExpr _ x y | BinaryExpr _ _ x y => [x; y]
  | SliceExpr _ x lo hi => x :: option_list lo ++ option_list hi
  | CallExpr _ f args => f :: args
  | _ => []
  end.

(** What a step of the walk leaves alone: the lambdas allocated before it
    and outside [S], the entries of the scope map, and the diagnostics
    recorded so far. *)
Record frame (S : loc -> Prop) (w w' : world) : Prop := mkFrame {
  frame_lambdas : forall l,
    (l < length (lambdas w))%nat -> ~ S l -> lambdas w' !! l = lambdas w !! l;
  frame_length : (length (lambdas w) <= length (lambdas w'))%nat;
  frame_astMap : astMap w ⊆ astMap w';
  frame_errors : errors w `prefix_of` errors w'
}.

(** The empty set of locations. *)
Definition none : loc -> Prop := fun _ => False.

(** A computation that keeps the frame. *)
Definition keeps {A : Type} (S : loc -> Prop) (m : M A) : Prop :=
  forall w a w', m w = Ok a w' -> frame S w w'.

(** The property proved of every node, and what the induction gives for
    the nodes below. *)
Definition walk_keeps (n : node) : Prop :=
  keeps none (walk n)
  /\ forall S d mark, keeps S (addDisjunctionElem_with walk d n mark).

Definition below (n : node) : Prop :=
  walk_keeps n /\ Forall walk_keeps (children n).

(** The state [registerClauses] leaves: the [for] clauses of [cs] are
    mapped, in order, to the lambdas at [fs], which are still empty. *)
Fixpoint registered (w : world) (cs : list clause) (fs : list loc) : Prop :=
  match cs with
  | [] => fs = []
  | ForClause id _ _ source :: cs =>
      match fs with
      | [] => False
      | fn :: fs =>
          astMap w !! id = Some (ScopeLambda fn)
          /\ lambdas w !! fn
             = Some (mkLambdaExpr (newExpr (node_id source)) [] VNil)
          /\ registered w cs fs
      end
  | IfClause _ _ :: cs => registered w cs fs
  end.

(** [walk] gives [r] for [n] in some state. *)
Definition lowered (n : node) (r : value) : Prop :=
  exists w1 w2, walk n w1 = Ok r w2.

(** The name bound to the key: [_] when the clause has none. *)
Definition clauseKey (key : option (NodeId * string)) : string :=
  match key with
  | Some (_, name) => name
  | None => "_"%string
  end.

(** The lambda of a [for] clause once the clause is wrapped: the key and
    the value as parameters, the emitter inside as body. *)
Definition forLambda (key : option (NodeId * string)) (valueName : string)
    (source : node) (inner : value) : lambdaExpr :=
  mkLambdaExpr (newExpr (node_id source))
    [(strLabel (clauseKey key) true,
      VBasicType (fst <$> key) (kind_or stringKind intKind));
     (strLabel valueName true, VTop None)]
    inner.

(** [y] is the emitter [y0] wrapped in one layer per clause of [cs], the
    first clause outermost; [fs] are the lambdas of the [for] clauses. *)
Fixpoint layers (w : world) (y0 : value) (cs : list clause) (fs : list loc)
    (y : value) : Prop :=
  match cs with
  | [] => fs = [] /\ y = y0
  | ForClause id key valueName source :: cs =>
      match fs with
      | [] => False
      | fn :: fs =>
          exists src inner,
            y = VFeed (newExpr (node_id source)) src fn
            /\ lowered source src
            /\ astMap w !! id = Some (ScopeLambda fn)
            /\ lambdas w !! fn = Some (forLambda key valueName source inner)
            /\ layers w y0 cs fs inner
      end
  | IfClause _ condition :: cs =>
      exists c inner,
        y = VGuard (newExpr (node_id condition)) c inner
        /\ lowered condition c
        /\ layers w y0 cs fs inner
  end.

(** The [for] clauses of [cs], as the keys they get in the scope map. *)
Definition forIds (cs : list clause) : list NodeId :=
  flat_map (fun c => match c with
                     | ForClause id _ _ _ => [id]
                     | IfClause _ _ => []
                     end) cs.

(** [walk] does not panic on [n]. *)
Definition lowers (n : node) : Prop :=
  forall w, exists r w', walk n w = Ok r w'.

(** [for x in [1,2] if x > 1] *)
Definition forIfClauses (f l a b i g x c : NodeId) (ka kb kc : token)
  : list clause :=
  [ForClause f None "x"
     (ListLit l [BasicLit a ka "1"; BasicLit b kb "2"] false None);
   IfClause i
     (BinaryExpr g GTR (Ident x "x" (NodeOther f) None) (BasicLit c kc "1"))].

(** What a walk leaves of its receiver and of the stores: the struct the
    receiver fills, its parent and the count of enclosing selectors are
    back as they were when the walk returns, the root of resolution is not
    changed, and no struct or yield is ever taken out of its store. *)
Record steady (w w' : world) : Prop := mkSteady {
  steady_object : object (cur w') = object (cur w);
  steady_parent : parent (cur w') = parent (cur w);
  steady_inSelector : inSelector (cur w') = inSelector (cur w);
  steady_resolveRoot : resolveRoot w' = resolveRoot w;
  steady_structs : (length (structs w) <= length (structs w'))%nat;
  steady_yields : (length (yields w) <= length (yields w'))%nat
}.

Definition stays {A : Type} (m : M A) : Prop :=
  forall w a w', m w = Ok a w' -> steady w w'.

Definition walk_stays (n : node) : Prop :=
  stays (walk n)
  /\ forall d mark, stays (addDisjunctionElem_with walk d n mark).

Definition below_stays (n : node) : Prop :=
  walk_stays n /\ Forall walk_stays (children n).

(** An element of a struct literal that emits a value. *)
Definition isEmitDecl (n : node) : bool :=
  match n with
  | EmitDecl _ _ => true
  | _ => false
  end.

(** An import whose path is ill-formed, or names neither a builtin package
    nor a package of the instance; and the diagnostic [loadImport] records
    for it from the visitor [v]. *)
Definition importFails (p : string) : Prop :=
  Unquote p = None
  \/ exists path,
       Unquote p = Some path
       /\ getBuiltinPkg path = None /\ LookupImport path = None.

Definition importError (v : astVisitor) (spec : NodeId * string) : nodeError :=
  match Unquote (snd spec) with
  | None => mkNodeError (appendPath v []) (fst spec) "illformed import spec" []
  | Some path =>
      mkNodeError (appendPath v []) (fst spec) "package %q not found"
        [ArgString path]
  end.

(** The names that [walk] knows without a declaration, in the order of the
    switch in the case of identifiers. *)
Definition predeclared : list string :=
  ["_"; "string"; "bytes"; "bool"; "int"; "float"; "number"; "duration";
   "len"; "and"; "or"]%string.

(** What the loop over the declarations of a file walks for a declaration:
    the expression of an emit, and any other declaration itself. *)
Definition declExpr (d : node) : node :=
  match d with
  | EmitDecl _ x => x
  | _ => d
  end.

(** The state in which [insertFile] starts the walk of the file: a new
    visitor on the root struct of the instance, with no diagnostics and a
    scope map that binds the file to that struct. *)
Definition startFile (inst : Instance) (fid : NodeId) (w : world) : world :=
  let w1 := newVisitor (rootStruct inst) (inst_scope inst) w in
  set_astMap (<[fid := ScopeStruct (rootStruct inst)]> (astMap w1)) w1.

End Spec.

(** What the specification says of a failure of the lowering: it reaches
    the caller of [insertFile], in the list that [insertFile] returns. *)
Definition surfaced (r : option error) (e : nodeError) : Prop :=
  exists l, r = Some (ErrorList l) /\ e ∈ l.

(** The visitors from the root down to [v], along the links [parent]. *)
Fixpoint lineage (v : astVisitor) : list astVisitor :=
  match v with
  | mkVisitor _ p _ _ _ =>
      match p with
      | Some p => lineage p
      | None => []
      end ++ [v]
  end.

(** The selectors that make up a path: [appendPath] skips the empty ones. *)
Definition selectors (vs : list astVisitor) : list string :=
  List.filter (fun s => negb (String.eqb s EmptyString)) (map sel vs).

(** *** An instance to run the lowering on

    Operators and labels are their spellings, kinds are lists of names, and
    every function of the other files is the simplest one of its type. *)
Definition demoTypes : Types := {|
  op := string;
  kind := list string;
  label := string;
  label_eq_dec := _;
  attrs := list string;
  quoteInfo := unit;
  buildInstance := Empty_set;
  extern := string
|}.

Definition tokenName (t : token) : string :=
  match t with
  | OR => "|" | MUL => "*" | NOT => "!" | ADD => "+" | SUB => "-"
  | GEQ => ">=" | GTR => ">" | LSS => "<" | LEQ => "<=" | NEQ => "!="
  | MAT => "=~" | NMAT => "!~" | OtherToken _ => "?"
  end.

Definition demoLabelName (n : node) : string * bool :=
  match n with
  | Ident _ s _ _ | BasicLit _ _ s => (s, true)
  | _ => (EmptyString, false)
  end.

Definition demoExternals : @Externals demoTypes := {|
  tokenMap := tokenName : token -> @op demoTypes;
  opUnify := "&"%string : @op demoTypes;
  opGeq := ">="%string : @op demoTypes;
  stringKind := ["string"%string] : @kind demoTypes;
  bytesKind := ["bytes"%string] : @kind demoTypes;
  boolKind := ["bool"%string] : @kind demoTypes;
  intKind := ["int"%string] : @kind demoTypes;
  floatKind := ["float"%string] : @kind demoTypes;
  numKind := ["int"%string; "float"%string] : @kind demoTypes;
  durationKind := ["duration"%string] : @kind demoTypes;
  topKind := ["top"%string] : @kind demoTypes;
  nonGround := ["nonGround"%string] : @kind demoTypes;
  kind_or := (app : @kind demoTypes -> @kind demoTypes -> @kind demoTypes);
  strLabel := (fun s _ => s) : string -> bool -> @label demoTypes;
  indexLabel := Itoa : nat -> @label demoTypes;
  zeroLabel := EmptyString : @label demoTypes;
  nodeLabel := demoLabelName : node -> @label demoTypes * bool;
  LabelName := demoLabelName;
  DropOptional := false;
  createAttrs := fun _ a => (Some (a : @attrs demoTypes), VNil);
  insertValue := fun s f o v a d =>
    mkStructLit (struct_base s) (arcs s ++ [mkArc f v o a d]) (emit s)
      (template s) (comprehensions s);
  mkBin := fun o l r => VBinaryExpr None o l r;
  newBound := fun b o k v => VUnaryExpr b o v;
  initLit := fun b a => (VTop b, VExtern (Itoa (length a) : @extern demoTypes));
  lenBuiltin := VExtern ("len"%string : @extern demoTypes);
  andBuiltin := VExtern ("and"%string : @extern demoTypes);
  orBuiltin := VExtern ("or"%string : @extern demoTypes);
  predefinedRanges := fun _ => None;
  litParser_parse := fun _ _ s => VExtern (s : @extern demoTypes);
  Unquote := fun s => Some s;
  ParseQuotes := fun _ _ => inl (tt : @quoteInfo demoTypes, 1%nat);
  parseString := fun _ _ s => VStringLit None s;
  getBuiltinShorthandPkg := fun _ => None;
  getBuiltinPkg := fun _ => None;
  LookupImport := fun _ => None;
  loadInstance_rootValue := fun b : @buildInstance demoTypes =>
    match b with end;
  mkErr := fun b a =>
    mkBottom b (match a with ArgString f :: _ => f | _ => EmptyString end)
|}.

(** A state with the root struct of an instance at location 0 and nothing
    else. *)
Definition demoWorld : @world demoTypes :=
  mkWorld (mkVisitor 0 None EmptyString None 0) None ∅ [] [newStruct None]
    [] [].

Definition demoInstance : Instance := mkInstance 0 None.

(** A file whose only declaration emits an invalid expression. *)
Definition badFile : list node := [EmitDecl 11 (BadExpr 12)].

(** The state [insertFile] ends in on [badFile]. *)
Definition afterBadFile : @world demoTypes :=
  mkWorld (mkVisitor 0 None EmptyString None 0) None
    (<[10%nat := ScopeStruct 0]> ∅)
    [mkNodeError [] 12 "invalid expression" []]
    [mkStructLit None []
       (VBottom (mkBottom (Some 12%nat) "invalid expression")) VNil []]
    [] [].

(** The instance [demoExternals] with tables of builtin packages, by
    import path and by shorthand name. *)
Definition withBuiltinPkg (pkg short : string -> option loc)
  : @Externals demoTypes := {|
  tokenMap := @tokenMap _ demoExternals;
  opUnify := @opUnify _ demoExternals;
  opGeq := @opGeq _ demoExternals;
  stringKind := @stringKind _ demoExternals;
  bytesKind := @bytesKind _ demoExternals;
  boolKind := @boolKind _ demoExternals;
  intKind := @intKind _ demoExternals;
  floatKind := @floatKind _ demoExternals;
  numKind := @numKind _ demoExternals;
  durationKind := @durationKind _ demoExternals;
  topKind := @topKind _ demoExternals;
  nonGround := @nonGround _ demoExternals;
  kind_or := @kind_or _ demoExternals;
  strLabel := @strLabel _ demoExternals;
  indexLabel := @indexLabel _ demoExternals;
  zeroLabel := @zeroLabel _ demoExternals;
  nodeLabel := @nodeLabel _ demoExternals;
  LabelName := @LabelName _ demoExternals;
  DropOptional := @DropOptional _ demoExternals;
  createAttrs := @createAttrs _ demoExternals;
  insertValue := @insertValue _ demoExternals;
  mkBin := @mkBin _ demoExternals;
  newBound := @newBound _ demoExternals;
  initLit := @initLit _ demoExternals;
  lenBuiltin := @lenBuiltin _ demoExternals;
  andBuiltin := @andBuiltin _ demoExternals;
  orBuiltin := @orBuiltin _ demoExternals;
  predefinedRanges := @predefinedRanges _ demoExternals;
  litParser_parse := @litParser_parse _ demoExternals;
  Unquote := @Unquote _ demoExternals;
  ParseQuotes := @ParseQuotes _ demoExternals;
  parseString := @parseString _ demoExternals;
  getBuiltinShorthandPkg := short;
  getBuiltinPkg := pkg;
  LookupImport := @LookupImport _ demoExternals;
  loadInstance_rootValue := @loadInstance_rootValue _ demoExternals;
  mkErr := @mkErr _ demoExternals
|}.

(** The package [list] is the struct at location 0. *)
Definition listPkg (path : string) : option loc :=
  if String.eqb path "list" then Some 0%nat else None.

Definition noPkg (path : string) : option loc := None.

(** The shorthand [math] names the package whose struct is at location 0. *)
Definition mathPkg (name : string) : option loc :=
  if String.eqb name "math" then Some 0%nat else None.

(** A state whose root of resolution, the struct at 0, has a field [int]. *)
Definition shadowWorld : @world demoTypes :=
  mkWorld (mkVisitor 0 None EmptyString None 0) (Some 0%nat) ∅ []
    [mkStructLit None
       [mkArc ("int"%string : @label demoTypes) VNil false None None]
       VNil VNil []]
    [] [].

(** The state after lowering the empty struct literal 40 (inside a
    selector or not) in [afterBadFile]: a new struct at 1, bound to 40. *)
Definition afterStruct : @world demoTypes :=
  set_astMap (<[40%nat := ScopeStruct 1]> (astMap afterBadFile))
    (set_structs (structs afterBadFile ++ [newStruct (Some 40%nat)])
       afterBadFile).

(** The state after lowering, in [demoWorld], the struct literal 40 with
    the emit 41. *)
Definition afterEmit : @world demoTypes :=
  set_errors
    [mkNodeError [] 41 "emitting values is only allowed at top level" []]
    (set_astMap (<[40%nat := ScopeStruct 1]> ∅)
       (set_structs (structs demoWorld ++ [newStruct (Some 40%nat)])
          demoWorld)).

(** The list literal [[1, 2]] and the state after lowering it in
    [demoWorld]. *)
Definition twoList : node :=
  ListLit 21 [BasicLit 22 (OtherToken 5) "1"; BasicLit 23 (OtherToken 5) "2"]
    false None.

Definition afterList : @world demoTypes :=
  set_structs
    (structs demoWorld
     ++ [mkStructLit (Some 21%nat)
           [mkArc ("0"%string : @label demoTypes)
              (VExtern ("1"%string : @extern demoTypes)) false None None;
            mkArc ("1"%string : @label demoTypes)
              (VExtern ("2"%string : @extern demoTypes)) false None None]
           VNil VNil []])
    demoWorld.

End cue_spec.

(** ** Properties of the error algebra *)
Module adt_facts.
Import adt adt_spec.

Section Facts.
Context {Error Node : Type} (Append : Error -> Error -> Error).
Abbreviation Bottom := (adt.Bottom Error Node).
Implicit Types (h : list Bottom) (a b r e : Bottom) (p : option loc).
Implicit Types (src : option Node) (v : Vertex).

Lemma incomplete_code_test (c : ErrorCode) :
  (c =? IncompleteError) || (c =? CycleError) = true <-> incomplete_code c.
Proof.
  unfold incomplete_code, IncompleteError, CycleError.
  rewrite orb_true_iff, !Z.eqb_eq. tauto.
Qed.

Lemma incomplete_code_test_false (c : ErrorCode) :
  c <> IncompleteError -> c <> CycleError ->
  (c =? IncompleteError) || (c =? CycleError) = false.
Proof.
  intros H4 H5. apply orb_false_iff.
  split; apply Z.eqb_neq; assumption.
Qed.

Lemma valid_ptr_lookup h l :
  valid_ptr h (Some l) -> exists b, h !! l = Some b.
Proof.
  intros Hv. apply lookup_lt_is_Some_2. apply Hv. reflexivity.
Qed.

Lemma valid_ptr_app h t p : valid_ptr h p -> valid_ptr (h ++ t) p.
Proof.
  intros Hv l Hl. rewrite length_app. specialize (Hv l Hl). lia.
Qed.

Lemma lookup_alloc h b : (h ++ [b]) !! length h = Some b.
Proof.
  rewrite lookup_app_r by lia. rewrite Nat.sub_diag. reflexivity.
Qed.

Lemma lookup_alloc_old h b k x : h !! k = Some x -> (h ++ [b]) !! k = Some x.
Proof. intros Hk. apply lookup_app_l_Some. exact Hk. Qed.

(** [CombineErrors] on two Bottoms of equal code merges. *)
Lemma CombineErrors_same_code src h la lb a b :
  h !! la = Some a -> h !! lb = Some b -> Code a = Code b ->
  CombineErrors Append src (BottomPtr (Some la)) (BottomPtr (Some lb)) h
  = Some (Some (length h),
          h ++ [mkBottom src (Append (Err a) (Err b)) (Code a)
                  false false NilValue]).
Proof.
  intros Ha Hb Hc. unfold CombineErrors. simpl. rewrite Ha, Hb. simpl.
  rewrite (proj2 (Z.eqb_eq _ _) Hc). reflexivity.
Qed.

(** [CombineErrors] never fails on allocated operands, only extends the
    store, and returns nil or an allocated pointer. *)
Lemma CombineErrors_total src h p q :
  valid_ptr h p -> valid_ptr h q ->
  exists res t,
    CombineErrors Append src (BottomPtr p) (BottomPtr q) h = Some (res, h ++ t)
    /\ valid_ptr (h ++ t) res.
Proof.
  intros Hp Hq. unfold CombineErrors. simpl.
  destruct p as [la|], q as [lb|].
  - destruct (valid_ptr_lookup h la Hp) as [a Ha].
    destruct (valid_ptr_lookup h lb Hq) as [b Hb].
    rewrite Ha, Hb. simpl.
    assert (Hm : forall x y, exists res t,
               Some (mergeBottoms Append src x y h) = Some (res, h ++ t)
               /\ valid_ptr (h ++ t) res).
    { intros x y. unfold mergeBottoms, alloc. eexists _, [_].
      split; [reflexivity|]. intros l [= <-]. rewrite length_app. simpl. lia. }
    destruct (negb (Code a =? Code b)); [|apply Hm].
    destruct (Code a >? Code b).
    + destruct (Code a >=? IncompleteError); [|apply Hm].
      exists (Some lb), []. rewrite app_nil_r. split; [reflexivity|exact Hq].
    + destruct (Code b >=? IncompleteError); [|apply Hm].
      exists (Some la), []. rewrite app_nil_r. split; [reflexivity|exact Hp].
  - exists (Some la), []. rewrite app_nil_r. split; [reflexivity|exact Hp].
  - exists (Some lb), []. rewrite app_nil_r. split; [reflexivity|exact Hq].
  - exists None, []. rewrite app_nil_r. split; [reflexivity|].
    intros l [=].
Qed.

Lemma not_Bottom_assert (x : Value) :
  (forall l, x <> BottomPtr (Some l)) -> fst (assertBottom x) = None.
Proof.
  intros Hx. destruct x as [|[l|]|]; simpl; try reflexivity.
  destruct (Hx l). reflexivity.
Qed.

(** A fatal-class child error reaching a vertex whose value is no Bottom:
    the value becomes a newly allocated Bottom. *)
Lemma AddChildError_fatal_fresh v lr r h ce t :
  CombineErrors Append None (BottomPtr (ChildErrors v)) (BottomPtr (Some lr)) h
  = Some (ce, h ++ t) ->
  h !! lr = Some r ->
  Code r <> IncompleteError -> Code r <> CycleError ->
  (forall l, Vertex_Value v <> BottomPtr (Some l)) ->
  AddChildError Append v (Some lr) h
  = Some (mkVertex (BottomPtr (Some (length (h ++ t)))) ce,
          (h ++ t) ++ [mkBottom None (Err r) (Code r) true true
                         (Vertex_Value v)]).
Proof.
  intros Hc Hr H4 H5 Hx.
  unfold AddChildError. rewrite Hc. simpl.
  rewrite (lookup_app_l_Some _ _ _ _ Hr). simpl.
  rewrite (incomplete_code_test_false _ H4 H5).
  rewrite (not_Bottom_assert _ Hx). reflexivity.
Qed.

(** A fatal-class child error reaching a vertex whose value is a Bottom:
    that Bottom is updated in place. *)
Lemma AddChildError_fatal_bottom v lr r le e h ce t :
  CombineErrors Append None (BottomPtr (ChildErrors v)) (BottomPtr (Some lr)) h
  = Some (ce, h ++ t) ->
  h !! lr = Some r ->
  Code r <> IncompleteError -> Code r <> CycleError ->
  Vertex_Value v = BottomPtr (Some le) -> h !! le = Some e ->
  AddChildError Append v (Some lr) h
  = Some (mkVertex (BottomPtr (Some le)) ce,
          <[le := mkBottom (Src e) (Err e) (Z.min (Code e) (Code r)) true
                    (ChildError e) (Bottom_Value e)]> (h ++ t)).
Proof.
  intros Hc Hr H4 H5 Hx He.
  unfold AddChildError. rewrite Hc. simpl.
  pose proof (lookup_app_l_Some _ t _ _ Hr) as Hr'.
  pose proof (lookup_app_l_Some _ t _ _ He) as He'.
  pose proof (lookup_lt_Some _ _ _ He') as Hlt.
  rewrite Hr'. simpl. rewrite (incomplete_code_test_false _ H4 H5).
  rewrite Hx. simpl. rewrite He'. simpl.
  rewrite list_lookup_insert_eq by exact Hlt. simpl.
  assert (Hr2 : exists r', <[le:=set_HasRecursive true e]> (h ++ t) !! lr
                           = Some r' /\ Code r' = Code r).
  { destruct (decide (le = lr)) as [<-|Hne].
    - rewrite list_lookup_insert_eq by exact Hlt.
      eexists; split; [reflexivity|]. simpl. congruence.
    - rewrite list_lookup_insert_ne by exact Hne. eauto. }
  destruct Hr2 as (r' & -> & Hcode). simpl. rewrite Hcode.
  do 2 f_equal.
  destruct (Z.gtb_spec (Code e) (Code r)) as [Hgt|Hle].
  - rewrite list_insert_insert_eq.
    unfold set_Code, set_HasRecursive. simpl. rewrite Z.min_r by lia.
    reflexivity.
  - unfold set_HasRecursive. rewrite Z.min_l by lia. reflexivity.
Qed.

(** C10: calling [IsIncomplete] on a nil [*Bottom] is defined and answers
    false, whatever the store holds. *)
Theorem IsIncomplete_nil h : IsIncomplete h None = Some false.
Proof. reflexivity. Qed.

(** C1: when [a] has one of the four fatal codes and [b] is incomplete-class,
    [CombineErrors] returns the pointer [a] in either argument order, for any
    position, and allocates nothing. *)
Theorem CombineErrors_fatal_wins pos h la lb a b :
  h !! la = Some a -> h !! lb = Some b ->
  fatal_code (Code a) -> incomplete_code (Code b) ->
  CombineErrors Append pos (BottomPtr (Some la)) (BottomPtr (Some lb)) h
  = Some (Some la, h)
  /\ CombineErrors Append pos (BottomPtr (Some lb)) (BottomPtr (Some la)) h
     = Some (Some la, h).
Proof.
  intros Ha Hb Hf Hi. unfold CombineErrors. simpl. rewrite Ha, Hb. simpl.
  destruct Hf as [Hf|[Hf|[Hf|Hf]]], Hi as [Hi|Hi];
    split; rewrite Hf, Hi; cbn; rewrite ?Hf, ?Hi; reflexivity.
Qed.

(** C4: two Bottoms of one fatal-class code merge into a newly allocated
    Bottom at [pos] with that code and [errors.Append(a.Err, b.Err)] as its
    error, the operands staying as they were; with no Bottom among the
    operands the result is nil, and with exactly one it is that pointer, the
    store unchanged. *)
Theorem CombineErrors_merge pos h x y :
  (forall la lb a b,
      x = BottomPtr (Some la) -> y = BottomPtr (Some lb) ->
      h !! la = Some a -> h !! lb = Some b ->
      ~ incomplete_code (Code a) -> ~ incomplete_code (Code b) ->
      Code a = Code b ->
      exists l h' m,
        CombineErrors Append pos x y h = Some (Some l, h')
        /\ h !! l = None /\ h' !! l = Some m
        /\ (forall k z, h !! k = Some z -> h' !! k = Some z)
        /\ Src m = pos /\ Code m = Code a
        /\ Err m = Append (Err a) (Err b))
  /\ ((forall l, x <> BottomPtr (Some l)) ->
      (forall l, y <> BottomPtr (Some l)) ->
      CombineErrors Append pos x y h = Some (None, h))
  /\ (forall l, x = BottomPtr (Some l) ->
      (forall l', y <> BottomPtr (Some l')) ->
      CombineErrors Append pos x y h = Some (Some l, h))
  /\ (forall l, (forall l', x <> BottomPtr (Some l')) ->
      y = BottomPtr (Some l) ->
      CombineErrors Append pos x y h = Some (Some l, h)).
Proof.
  split; [|split; [|split]].
  - intros la lb a b -> -> Ha Hb _ _ Hc.
    rewrite (CombineErrors_same_code pos h la lb a b Ha Hb Hc).
    eexists _, _, _. split; [reflexivity|].
    split; [apply lookup_ge_None; lia|].
    split; [apply lookup_alloc|].
    split; [intros k z Hk; apply lookup_alloc_old, Hk|].
    simpl. auto.
  - intros Hx Hy. unfold CombineErrors.
    rewrite (not_Bottom_assert _ Hx), (not_Bottom_assert _ Hy). reflexivity.
  - intros l -> Hy. unfold CombineErrors.
    rewrite (not_Bottom_assert _ Hy). reflexivity.
  - intros l Hx ->. unfold CombineErrors.
    rewrite (not_Bottom_assert _ Hx). reflexivity.
Qed.

(** C8: [isIncomplete] answers true exactly for a nil vertex and for a
    vertex whose value is a Bottom of code [IncompleteError] or
    [CycleError]; for any other vertex it answers false. *)
Theorem isIncomplete_iff h (v : option Vertex) :
  (forall x l, v = Some x -> Vertex_Value x = BottomPtr (Some l) ->
               (l < length h)%nat) ->
  exists res,
    isIncomplete h v = Some res
    /\ (res = true <->
        v = None
        \/ exists x l b,
            v = Some x /\ Vertex_Value x = BottomPtr (Some l)
            /\ h !! l = Some b /\ incomplete_code (Code b)).
Proof.
  intros Hv. destruct v as [x|]; simpl.
  - destruct (Vertex_Value x) as [|[l|]|] eqn:Hx; simpl.
    + exists false. split; [reflexivity|]. split; [discriminate|].
      intros [[=]|(x' & l & b & [= <-] & Hb & _)]; congruence.
    + destruct (lookup_lt_is_Some_2 h l (Hv x l eq_refl Hx)) as [b Hb].
      rewrite Hb. simpl. eexists. split; [reflexivity|].
      rewrite incomplete_code_test. split.
      * intros Hi. right. exists x, l, b. auto.
      * intros [[=]|(x' & l' & b' & [= <-] & Hx' & Hb' & Hi)].
        congruence.
    + exists false. split; [reflexivity|]. split; [discriminate|].
      intros [[=]|(x' & l & b & [= <-] & Hb & _)]; congruence.
    + exists false. split; [reflexivity|]. split; [discriminate|].
      intros [[=]|(x' & l & b & [= <-] & Hb & _)]; congruence.
  - exists true. split; [reflexivity|]. split; auto.
Qed.

(** C3: every call folds [recursive] into [v.ChildErrors] with
    [CombineErrors]; when [recursive] is incomplete-class that is all the call
    does: the vertex keeps its value and no allocated Bottom changes. *)
Theorem AddChildError_folds_ChildErrors v lr r h :
  h !! lr = Some r -> valid_ptr h (ChildErrors v) ->
  valid_ptr h (fst (assertBottom (Vertex_Value v))) ->
  exists ce h1 v' h',
    CombineErrors Append None (BottomPtr (ChildErrors v))
      (BottomPtr (Some lr)) h
    = Some (ce, h1)
    /\ AddChildError Append v (Some lr) h = Some (v', h')
    /\ ChildErrors v' = ce
    /\ (incomplete_code (Code r) ->
        v' = mkVertex (Vertex_Value v) ce /\ h' = h1
        /\ forall k x, h !! k = Some x -> h' !! k = Some x).
Proof.
  intros Hr Hce Hval.
  assert (Hq : valid_ptr h (Some lr)).
  { intros l [= <-]. eapply lookup_lt_Some, Hr. }
  destruct (CombineErrors_total None h _ _ Hce Hq) as (ce & t & Hc & Hv).
  exists ce, (h ++ t).
  destruct (decide (Code r = IncompleteError \/ Code r = CycleError))
    as [Hi|Hf].
  - exists (mkVertex (Vertex_Value v) ce), (h ++ t).
    split; [exact Hc|]. split.
    + unfold AddChildError. rewrite Hc. simpl.
      rewrite (lookup_app_l_Some _ _ _ _ Hr). simpl.
      rewrite (proj2 (incomplete_code_test _) Hi). reflexivity.
    + split; [reflexivity|]. intros _.
      split; [reflexivity|]. split; [reflexivity|].
      intros k x Hk. apply lookup_app_l_Some, Hk.
  - assert (H4 : Code r <> IncompleteError) by tauto.
    assert (H5 : Code r <> CycleError) by tauto.
    destruct (fst (assertBottom (Vertex_Value v))) as [le|] eqn:Hx.
    + destruct (valid_ptr_lookup h le Hval) as [e He].
      assert (Hx' : Vertex_Value v = BottomPtr (Some le)).
      { destruct (Vertex_Value v) as [|p|]; simpl in Hx; congruence. }
      eexists _, _. split; [exact Hc|]. split.
      * apply (AddChildError_fatal_bottom v lr r le e h ce t); assumption.
      * split; [reflexivity|]. intros Hi. destruct Hf. exact Hi.
    + eexists _, _. split; [exact Hc|]. split.
      * apply (AddChildError_fatal_fresh v lr r h ce t); try assumption.
        intros l Hl. rewrite Hl in Hx. discriminate.
      * split; [reflexivity|]. intros Hi. destruct Hf. exact Hi.
Qed.

(** C2: a fatal-class [recursive] turns a value that is no Bottom into a
    newly allocated Bottom with the code and error of [recursive], both
    flags set and the former value kept; in a value that is a Bottom already
    it sets [HasRecursive] and lowers [Code] to the minimum, leaving [Err]
    (and the other fields) alone. A [StructuralCycleError] followed by a
    [UserError] on a vertex without error thus ends in code [UserError] with
    [HasRecursive] set. *)
Theorem AddChildError_fatal v lr r h :
  h !! lr = Some r -> valid_ptr h (ChildErrors v) ->
  Code r <> IncompleteError -> Code r <> CycleError ->
  ((forall l, Vertex_Value v <> BottomPtr (Some l)) ->
   exists ce l h',
     AddChildError Append v (Some lr) h
     = Some (mkVertex (BottomPtr (Some l)) ce, h')
     /\ h !! l = None
     /\ h' !! l
        = Some (mkBottom None (Err r) (Code r) true true (Vertex_Value v))
     /\ forall k x, h !! k = Some x -> h' !! k = Some x)
  /\ (forall le e,
       Vertex_Value v = BottomPtr (Some le) -> h !! le = Some e ->
       exists ce h',
         AddChildError Append v (Some lr) h
         = Some (mkVertex (BottomPtr (Some le)) ce, h')
         /\ h' !! le
            = Some (mkBottom (Src e) (Err e) (Z.min (Code e) (Code r)) true
                      (ChildError e) (Bottom_Value e)))
  /\ (forall l2 r2,
       (forall l, Vertex_Value v <> BottomPtr (Some l)) ->
       Code r = StructuralCycleError ->
       h !! l2 = Some r2 -> Code r2 = UserError ->
       exists v1 h1 v2 h2 l b,
         AddChildError Append v (Some lr) h = Some (v1, h1)
         /\ AddChildError Append v1 (Some l2) h1 = Some (v2, h2)
         /\ Vertex_Value v2 = BottomPtr (Some l)
         /\ h2 !! l = Some b
         /\ Code b = UserError /\ HasRecursive b = true).
Proof.
  intros Hr Hce H4 H5.
  assert (Hq : valid_ptr h (Some lr)).
  { intros l [= <-]. eapply lookup_lt_Some, Hr. }
  destruct (CombineErrors_total None h _ _ Hce Hq) as (ce & t & Hc & Hv).
  split; [|split].
  - intros Hx. eexists _, _, _. split.
    { apply (AddChildError_fatal_fresh v lr r h ce t); assumption. }
    split; [apply lookup_ge_None; rewrite length_app; lia|].
    split; [apply lookup_alloc|].
    intros k x Hk. apply lookup_alloc_old, lookup_app_l_Some, Hk.
  - intros le e Hx He. eexists _, _. split.
    { apply (AddChildError_fatal_bottom v lr r le e h ce t); assumption. }
    apply list_lookup_insert_eq. rewrite length_app.
    apply lookup_lt_Some in He. lia.
  - intros l2 r2 Hx Hscc Hr2 Hu.
    pose proof (AddChildError_fatal_fresh v lr r h ce t Hc Hr H4 H5 Hx)
      as Hfirst.
    set (e := mkBottom None (Err r) (Code r) true true (Vertex_Value v))
      in Hfirst.
    set (h1 := (h ++ t) ++ [e]) in Hfirst.
    set (v1 := mkVertex (BottomPtr (Some (length (h ++ t)))) ce) in Hfirst.
    assert (Hr2' : h1 !! l2 = Some r2).
    { apply lookup_alloc_old, lookup_app_l_Some, Hr2. }
    assert (Hce1 : valid_ptr h1 (ChildErrors v1)).
    { apply valid_ptr_app, Hv. }
    assert (Hq1 : valid_ptr h1 (Some l2)).
    { intros l [= <-]. eapply lookup_lt_Some, Hr2'. }
    destruct (CombineErrors_total None h1 _ _ Hce1 Hq1)
      as (ce1 & t1 & Hc1 & _).
    assert (He : h1 !! length (h ++ t) = Some e) by apply lookup_alloc.
    assert (H4' : Code r2 <> IncompleteError) by (rewrite Hu; discriminate).
    assert (H5' : Code r2 <> CycleError) by (rewrite Hu; discriminate).
    pose proof (AddChildError_fatal_bottom v1 l2 r2 _ e h1 ce1 t1
                  Hc1 Hr2' H4' H5' eq_refl He) as Hsecond.
    eexists _, _, _, _, _, _.
    split; [exact Hfirst|]. split; [exact Hsecond|].
    split; [reflexivity|]. split.
    { apply list_lookup_insert_eq. apply lookup_lt_Some in He.
      rewrite (length_app h1 t1). lia. }
    simpl. rewrite Hscc, Hu. split; reflexivity.
Qed.

(** *** Further properties of the error algebra *)

(** An incomplete-class child error only updates [ChildErrors]. *)
Lemma AddChildError_incomplete v lr r h ce t :
  CombineErrors Append None (BottomPtr (ChildErrors v)) (BottomPtr (Some lr)) h
  = Some (ce, h ++ t) ->
  h !! lr = Some r ->
  incomplete_code (Code r) ->
  AddChildError Append v (Some lr) h
  = Some (mkVertex (Vertex_Value v) ce, h ++ t).
Proof.
  intros Hc Hr Hi. unfold AddChildError. rewrite Hc. simpl.
  rewrite (lookup_app_l_Some _ _ _ _ Hr). simpl.
  rewrite (proj2 (incomplete_code_test _) Hi). reflexivity.
Qed.

Lemma lookup_preserved_length h h' :
  (forall k e, h !! k = Some e -> h' !! k = Some e) ->
  (length h <= length h')%nat.
Proof.
  intros Hp. destruct h as [|x h0] eqn:Hh using rev_ind; [simpl; lia|].
  clear IHh0.
  specialize (Hp (length h0) x (lookup_alloc h0 x)).
  apply lookup_lt_Some in Hp. rewrite length_app. simpl. lia.
Qed.

(** X1: the Bottom that [CombineErrors] returns for two Bottoms carries the
    smaller, that is the more severe, of the two codes, whichever branch is
    taken; the store is only extended. *)
Theorem CombineErrors_min_code pos h la lb a b :
  h !! la = Some a -> h !! lb = Some b ->
  exists l t m,
    CombineErrors Append pos (BottomPtr (Some la)) (BottomPtr (Some lb)) h
    = Some (Some l, h ++ t)
    /\ (h ++ t) !! l = Some m
    /\ Code m = Z.min (Code a) (Code b).
Proof.
  intros Ha Hb. unfold CombineErrors. simpl. rewrite Ha, Hb. simpl.
  assert (Hm : forall x y, Code x = Z.min (Code a) (Code b) ->
            exists l t m,
              Some (mergeBottoms Append pos x y h) = Some (Some l, h ++ t)
              /\ (h ++ t) !! l = Some m
              /\ Code m = Z.min (Code a) (Code b)).
  { intros x y Hx. unfold mergeBottoms, alloc. eexists _, [_], _.
    split; [reflexivity|]. split; [apply lookup_alloc|]. exact Hx. }
  destruct (Z.eqb_spec (Code a) (Code b)) as [Heq|Hne]; simpl.
  { apply Hm. rewrite Heq, Z.min_id. reflexivity. }
  destruct (Z.gtb_spec (Code a) (Code b)) as [Hgt|Hle].
  - destruct (Code a >=? IncompleteError).
    + exists lb, [], b. rewrite app_nil_r.
      split; [reflexivity|]. split; [exact Hb|]. lia.
    + apply Hm. lia.
  - destruct (Code b >=? IncompleteError).
    + exists la, [], a. rewrite app_nil_r.
      split; [reflexivity|]. split; [exact Ha|]. lia.
    + apply Hm. lia.
Qed.

(** X2: when the two Bottoms differ in code, [CombineErrors] does not depend
    on the order of its arguments: the operands are sorted by code before
    anything else is done with them, so also the merged message lists the
    error of the smaller code first. *)
Theorem CombineErrors_order_free pos h la lb a b :
  h !! la = Some a -> h !! lb = Some b -> Code a <> Code b ->
  CombineErrors Append pos (BottomPtr (Some la)) (BottomPtr (Some lb)) h
  = CombineErrors Append pos (BottomPtr (Some lb)) (BottomPtr (Some la)) h
  /\ forall x y,
       (Code a < Code b /\ x = a /\ y = b) \/ (Code b < Code a /\ x = b /\ y = a) ->
       Code y < IncompleteError ->
       CombineErrors Append pos (BottomPtr (Some la)) (BottomPtr (Some lb)) h
       = Some (Some (length h),
               h ++ [mkBottom pos (Append (Err x) (Err y)) (Code x)
                       false false NilValue]).
Proof.
  intros Ha Hb Hne. unfold CombineErrors. simpl. rewrite Ha, Hb. simpl.
  destruct (Z.eqb_spec (Code a) (Code b)) as [Heq|_]; [contradiction|].
  destruct (Z.eqb_spec (Code b) (Code a)) as [Heq|_];
    [symmetry in Heq; contradiction|]. simpl.
  destruct (Z.gtb_spec (Code a) (Code b)) as [Hgt|Hle];
    destruct (Z.gtb_spec (Code b) (Code a)) as [Hgt'|Hle']; try lia.
  - split; [reflexivity|].
    intros x y [(Hlt & _)|(_ & -> & ->)] Hy; [lia|].
    destruct (Z.geb_spec (Code a) IncompleteError); [lia|]. reflexivity.
  - split; [reflexivity|].
    intros x y [(_ & -> & ->)|(Hlt & _)] Hy; [|lia].
    destruct (Z.geb_spec (Code b) IncompleteError); [lia|]. reflexivity.
Qed.

(** X3: [AddChildError] on a nil [recursive] panics, for every vertex and
    store: [IsIncomplete] answers false for nil, and the code that follows
    reads [recursive.Code] or [recursive.Err]. *)
Theorem AddChildError_nil_panics v h :
  AddChildError Append v None h = None.
Proof.
  unfold AddChildError, CombineErrors. simpl.
  destruct (ChildErrors v); simpl;
    destruct (Vertex_Value v) as [|[le|]|]; simpl; try reflexivity;
    destruct (h !! le) eqn:He; simpl; try reflexivity;
    rewrite list_lookup_insert_eq by (eapply lookup_lt_Some, He);
    reflexivity.
Qed.

(** X4: on allocated operands [AddChildError] returns, and the only
    allocated Bottom it may change is the one [v.Value] points to: of that
    one only the flag [HasRecursive], which it may set, and [Code], which it
    may lower. The error, source and value of every Bottom stay as they
    were, also those of [recursive] and of [v.ChildErrors]. *)
Theorem AddChildError_touches_only_value v lr r h :
  h !! lr = Some r -> valid_ptr h (ChildErrors v) ->
  valid_ptr h (fst (assertBottom (Vertex_Value v))) ->
  exists v' h',
    AddChildError Append v (Some lr) h = Some (v', h')
    /\ (forall k e, h !! k = Some e -> Vertex_Value v <> BottomPtr (Some k) ->
          h' !! k = Some e)
    /\ (forall le e,
          Vertex_Value v = BottomPtr (Some le) -> h !! le = Some e ->
          exists e',
            h' !! le = Some e'
            /\ Src e' = Src e /\ Err e' = Err e
            /\ ChildError e' = ChildError e
            /\ Bottom_Value e' = Bottom_Value e
            /\ Code e' <= Code e
            /\ (HasRecursive e = true -> HasRecursive e' = true)).
Proof.
  intros Hr Hce Hval.
  assert (Hq : valid_ptr h (Some lr)).
  { intros l [= <-]. eapply lookup_lt_Some, Hr. }
  destruct (CombineErrors_total None h _ _ Hce Hq) as (ce & t & Hc & Hv).
  destruct (decide (Code r = IncompleteError \/ Code r = CycleError))
    as [Hi|Hf].
  - eexists _, _.
    split; [exact (AddChildError_incomplete v lr r h ce t Hc Hr Hi)|]. split.
    + intros k e Hk _. apply lookup_app_l_Some, Hk.
    + intros le e _ He. exists e.
      split; [apply lookup_app_l_Some, He|]. repeat split; auto; lia.
  - assert (H4 : Code r <> IncompleteError) by tauto.
    assert (H5 : Code r <> CycleError) by tauto.
    destruct (fst (assertBottom (Vertex_Value v))) as [le|] eqn:Hx.
    + assert (Hx' : Vertex_Value v = BottomPtr (Some le)).
      { destruct (Vertex_Value v) as [|p|]; simpl in Hx; congruence. }
      destruct (valid_ptr_lookup h le Hval) as [e He].
      eexists _, _.
      split; [exact (AddChildError_fatal_bottom v lr r le e h ce t
                       Hc Hr H4 H5 Hx' He)|]. split.
      * intros k x Hk Hne. rewrite list_lookup_insert_ne by congruence.
        apply lookup_app_l_Some, Hk.
      * intros le' e0 Hv' He0. rewrite Hx' in Hv'.
        injection Hv' as <-. rewrite He in He0. injection He0 as <-.
        eexists. split.
        { apply list_lookup_insert_eq. rewrite length_app.
          apply lookup_lt_Some in He. lia. }
        simpl. repeat split; auto; lia.
    + assert (Hx' : forall l, Vertex_Value v <> BottomPtr (Some l)).
      { intros l Hl. rewrite Hl in Hx. discriminate. }
      eexists _, _.
      split; [exact (AddChildError_fatal_fresh v lr r h ce t
                       Hc Hr H4 H5 Hx')|]. split.
      * intros k e Hk _. apply lookup_alloc_old, lookup_app_l_Some, Hk.
      * intros le e Hv'. destruct (Hx' le Hv').
Qed.

Lemma AddChildErrors_run x h ls rs :
  Forall2 (fun l r => h !! l = Some r) ls rs ->
  (forall l, x <> BottomPtr (Some l)) ->
  forall acc v1 h1,
    run_inv x h acc v1 h1 ->
    exists v' h',
      AddChildErrors Append v1 ls h1 = Some (v', h')
      /\ run_inv x h (aggregate acc rs) v' h'.
Proof.
  intros Hls Hx. induction Hls as [|lr r ls rs Hr _ IH];
    intros acc v1 h1 (Hp & Hce & Hacc).
  { exists v1, h1. split; [reflexivity|]. simpl. split; [|split]; assumption. }
  pose proof (Hp _ _ Hr) as Hr1.
  assert (Hq : valid_ptr h1 (Some lr)).
  { intros l [= <-]. eapply lookup_lt_Some, Hr1. }
  destruct (CombineErrors_total None h1 _ _ Hce Hq) as (ce & t & Hc & Hv).
  pose proof (lookup_preserved_length h h1 Hp) as Hlen.
  simpl.
  destruct (decide (Code r = IncompleteError \/ Code r = CycleError))
    as [Hi|Hf].
  - rewrite (AddChildError_incomplete v1 lr r h1 ce t Hc Hr1 Hi). simpl.
    rewrite (proj2 (incomplete_code_test _) Hi).
    apply IH. split; [|split].
    + intros k e Hk. apply lookup_app_l_Some, Hp, Hk.
    + exact Hv.
    + destruct acc as [[e c]|]; [|exact Hacc].
      destruct Hacc as (l & Hl & Hn & Hb). exists l.
      split; [exact Hl|]. split; [exact Hn|]. apply lookup_app_l_Some, Hb.
  - assert (H4 : Code r <> IncompleteError) by tauto.
    assert (H5 : Code r <> CycleError) by tauto.
    rewrite (incomplete_code_test_false _ H4 H5).
    destruct acc as [[e c]|].
    + destruct Hacc as (l & Hl & Hn & Hb).
      rewrite (AddChildError_fatal_bottom v1 lr r l _ h1 ce t
                 Hc Hr1 H4 H5 Hl Hb). simpl.
      apply IH. split; [|split].
      * intros k y Hk. rewrite list_lookup_insert_ne by congruence.
        apply lookup_app_l_Some, Hp, Hk.
      * intros k Hk. rewrite length_insert. apply Hv, Hk.
      * exists l. split; [reflexivity|]. split; [exact Hn|].
        apply list_lookup_insert_eq. rewrite length_app.
        apply lookup_lt_Some in Hb. lia.
    + simpl in Hacc.
      assert (Hx1 : forall l, Vertex_Value v1 <> BottomPtr (Some l)).
      { rewrite Hacc. exact Hx. }
      rewrite (AddChildError_fatal_fresh v1 lr r h1 ce t Hc Hr1 H4 H5 Hx1).
      simpl. apply IH. split; [|split].
      * intros k y Hk. apply lookup_alloc_old, lookup_app_l_Some, Hp, Hk.
      * apply valid_ptr_app, Hv.
      * exists (length (h1 ++ t)). split; [reflexivity|].
        split; [apply lookup_ge_None; rewrite length_app; lia|].
        rewrite Hacc. apply lookup_alloc.
Qed.

(** X5: a run of child errors on a vertex whose value is no Bottom. While
    all are incomplete-class the value stays; from the first fatal-class
    one on it is one new Bottom that keeps the message of that first one
    and ends with the least of the fatal-class codes, whatever the order
    of the later ones. The Bottoms of the children are never changed. *)
Theorem AddChildErrors_aggregate v ls rs h :
  Forall2 (fun l r => h !! l = Some r) ls rs ->
  valid_ptr h (ChildErrors v) ->
  (forall l, Vertex_Value v <> BottomPtr (Some l)) ->
  exists v' h',
    AddChildErrors Append v ls h = Some (v', h')
    /\ (forall k e, h !! k = Some e -> h' !! k = Some e)
    /\ match aggregate None rs with
       | None => Vertex_Value v' = Vertex_Value v
       | Some (e, c) =>
           exists l,
             Vertex_Value v' = BottomPtr (Some l) /\ h !! l = None
             /\ h' !! l
                = Some (mkBottom None e c true true (Vertex_Value v))
       end.
Proof.
  intros Hls Hce Hx.
  destruct (AddChildErrors_run (Vertex_Value v) h ls rs Hls Hx None v h)
    as (v' & h' & Hrun & Hp & _ & Hacc).
  { split; [auto|]. split; [exact Hce|reflexivity]. }
  exists v', h'. split; [exact Hrun|]. split; [exact Hp|exact Hacc].
Qed.

(** X6: the three tests on values agree with each other: a value that
    [isLiteralBottom] accepts is an error and never incomplete, a vertex
    that [isIncomplete] accepts holds an error that is no literal bottom,
    and on a nil [*Bottom] held in the interface [isLiteralBottom] panics
    (it reads [b.Code]) where [isError] answers true and [isIncomplete]
    false. *)
Theorem error_tests_agree h (x : Value) (ce : option loc) :
  (isLiteralBottom h x = Some true ->
   isError x = true /\ isIncomplete h (Some (mkVertex x ce)) = Some false)
  /\ (isIncomplete h (Some (mkVertex x ce)) = Some true ->
      isError x = true /\ isLiteralBottom h x = Some false)
  /\ isLiteralBottom h (BottomPtr None) = None
  /\ isError (BottomPtr None) = true
  /\ isIncomplete h (Some (mkVertex (BottomPtr None) ce)) = Some false.
Proof.
  unfold isLiteralBottom, isIncomplete, IsIncomplete, isError, deref.
  destruct x as [|[l|]|]; simpl;
    try (repeat split; intros; try discriminate; reflexivity).
  destruct (h !! l) as [b|]; simpl;
    [|repeat split; intros; try discriminate; reflexivity].
  unfold UserError, IncompleteError, CycleError.
  repeat split; try reflexivity;
    match goal with H : _ |- _ => injection H as H end; f_equal.
  - apply Z.eqb_eq in H. rewrite H. reflexivity.
  - apply orb_true_iff in H. rewrite !Z.eqb_eq in H.
    apply Z.eqb_neq. lia.
Qed.

(** [CombineErrors] of the aggregate and a child: the result is one of the
    two operands or the Bottom just allocated, with the least code. *)
Lemma CombineErrors_child src h p lr r :
  valid_ptr h p -> h !! lr = Some r ->
  exists l t m,
    CombineErrors Append src (BottomPtr p) (BottomPtr (Some lr)) h
    = Some (Some l, h ++ t)
    /\ (h ++ t) !! l = Some m
    /\ (l = lr \/ p = Some l \/ l = length h)
    /\ match p with
       | None => Code m = Code r
       | Some la => forall a, h !! la = Some a ->
                              Code m = Z.min (Code a) (Code r)
       end.
Proof.
  intros Hp Hr. unfold CombineErrors. simpl. destruct p as [la|].
  2:{ exists lr, [], r. rewrite app_nil_r. auto. }
  destruct (valid_ptr_lookup h la Hp) as [a Ha]. rewrite Ha, Hr. simpl.
  assert (Hm : forall x y, Code x = Z.min (Code a) (Code r) ->
            exists l t m,
              Some (mergeBottoms Append src x y h) = Some (Some l, h ++ t)
              /\ (h ++ t) !! l = Some m
              /\ (l = lr \/ Some la = Some l \/ l = length h)
              /\ forall a0, Some a = Some a0 ->
                            Code m = Z.min (Code a0) (Code r)).
  { intros x y Hx. unfold mergeBottoms, alloc. eexists _, [_], _.
    split; [reflexivity|]. split; [apply lookup_alloc|].
    split; [auto|]. intros a0 [= <-]. exact Hx. }
  destruct (Z.eqb_spec (Code a) (Code r)) as [Heq|Hne]; simpl.
  { apply Hm. rewrite Heq, Z.min_id. reflexivity. }
  destruct (Z.gtb_spec (Code a) (Code r)) as [Hgt|Hle].
  - destruct (Code a >=? IncompleteError); [|apply Hm; lia].
    exists lr, [], r. rewrite app_nil_r.
    split; [reflexivity|]. split; [exact Hr|]. split; [auto|].
    intros a0 [= <-]. lia.
  - destruct (Code r >=? IncompleteError); [|apply Hm; lia].
    exists la, [], a. rewrite app_nil_r.
    split; [reflexivity|]. split; [exact Ha|]. split; [auto|].
    intros a0 [= <-]. lia.
Qed.

Lemma AddChildErrors_child_run h ls rs :
  Forall2 (fun l r => h !! l = Some r) ls rs ->
  forall c v1 h1,
    child_inv h c v1 h1 ->
    exists v' h',
      AddChildErrors Append v1 ls h1 = Some (v', h')
      /\ child_inv h (leastCode c rs) v' h'.
Proof.
  induction 1 as [|lr r ls rs Hr _ IH]; intros c v1 h1 (Hp & Hval & Hc).
  { exists v1, h1. split; [reflexivity|]. split; [|split]; assumption. }
  pose proof (Hp _ _ Hr) as Hr1.
  pose proof (lookup_preserved_length h h1 Hp) as Hlen.
  pose proof (lookup_lt_Some _ _ _ Hr) as Hlr.
  assert (Hce : valid_ptr h1 (ChildErrors v1)).
  { destruct c as [c|].
    - destruct Hc as (lc & b & -> & Hb & _). intros l [= <-].
      eapply lookup_lt_Some, Hb.
    - rewrite Hc. intros l [=]. }
  destruct (CombineErrors_child None h1 _ lr r Hce Hr1)
    as (l' & t & m & Hcomb & Hm & Hl' & Hcode).
  pose proof (lookup_lt_Some _ _ _ Hm) as Hl'lt.
  assert (Hcode' : Code m = match c with
                            | None => Code r
                            | Some c => Z.min c (Code r)
                            end).
  { destruct c as [c|].
    - destruct Hc as (lc & b & Hlc & Hb & <-). rewrite Hlc in Hcode.
      apply Hcode, Hb.
    - rewrite Hc in Hcode. exact Hcode. }
  simpl.
  assert (Hnext : forall v2 h2,
             AddChildError Append v1 (Some lr) h1 = Some (v2, h2) ->
             child_inv h (Some (Code m)) v2 h2 ->
             exists v' h',
               (AddChildError Append v1 (Some lr) h1
                  ≫= λ '(v, h), AddChildErrors Append v ls h) = Some (v', h')
               /\ child_inv h (leastCode c (r :: rs)) v' h').
  { intros v2 h2 -> Hinv. simpl. rewrite Hcode' in Hinv. apply IH, Hinv. }
  destruct (decide (Code r = IncompleteError \/ Code r = CycleError))
    as [Hi|Hf].
  - eapply Hnext;
      [exact (AddChildError_incomplete v1 lr r h1 (Some l') t Hcomb Hr1 Hi)|].
    split; [|split].
    + intros k e Hk. apply lookup_app_l_Some, Hp, Hk.
    + simpl. destruct Hval as [Hval|(l & Hl & Hge & [e He] & Hne)];
        [left; exact Hval|right].
      exists l. split; [exact Hl|]. split; [exact Hge|].
      split; [exists e; apply lookup_app_l_Some, He|].
      apply lookup_lt_Some in He. intros [= <-].
      destruct Hl' as [->|[Hq| ->]]; [lia|congruence|lia].
    + exists l', m. auto.
  - assert (H4 : Code r <> IncompleteError) by tauto.
    assert (H5 : Code r <> CycleError) by tauto.
    destruct Hval as [Hval|(l & Hl & Hge & [e He] & Hne)].
    + eapply Hnext;
        [exact (AddChildError_fatal_fresh v1 lr r h1 (Some l') t
                  Hcomb Hr1 H4 H5 Hval)|].
      split; [|split].
      * intros k e Hk. apply lookup_alloc_old, lookup_app_l_Some, Hp, Hk.
      * right. exists (length (h1 ++ t)). simpl.
        split; [reflexivity|]. split; [rewrite length_app; lia|].
        split; [eexists; apply lookup_alloc|]. intros [= ->]. lia.
      * exists l', m. split; [reflexivity|].
        split; [apply lookup_alloc_old, Hm|reflexivity].
    + assert (Hne' : l' <> l).
      { apply lookup_lt_Some in He.
        destruct Hl' as [->|[Hq| ->]]; [lia|congruence|lia]. }
      eapply Hnext;
        [exact (AddChildError_fatal_bottom v1 lr r l e h1 (Some l') t
                  Hcomb Hr1 H4 H5 Hl He)|].
      split; [|split].
      * intros k y Hk. pose proof (lookup_lt_Some _ _ _ Hk).
        rewrite list_lookup_insert_ne by lia.
        apply lookup_app_l_Some, Hp, Hk.
      * right. exists l. simpl. split; [reflexivity|].
        split; [exact Hge|]. split; [|congruence].
        eexists. apply list_lookup_insert_eq. rewrite length_app.
        apply lookup_lt_Some in He. lia.
      * exists l', m. split; [reflexivity|].
        split; [|reflexivity].
        rewrite list_lookup_insert_ne by congruence. exact Hm.
Qed.

(** X19: after a run of child errors on a vertex without error and without
    child errors, [v.ChildErrors] is nil if the run was empty and else a
    Bottom that carries the least code of all the children, the
    incomplete-class ones included (which the value of the vertex
    ignores). *)
Theorem AddChildErrors_least_code v ls rs h :
  Forall2 (fun l r => h !! l = Some r) ls rs ->
  ChildErrors v = None ->
  (forall l, Vertex_Value v <> BottomPtr (Some l)) ->
  exists v' h',
    AddChildErrors Append v ls h = Some (v', h')
    /\ match leastCode None rs with
       | None => ChildErrors v' = None
       | Some c =>
           exists l b,
             ChildErrors v' = Some l /\ h' !! l = Some b /\ Code b = c
       end.
Proof.
  intros Hls Hce Hx.
  destruct (AddChildErrors_child_run h ls rs Hls None v h)
    as (v' & h' & Hrun & _ & _ & Hc).
  { split; [auto|]. split; [left; exact Hx|exact Hce]. }
  exists v', h'. split; [exact Hrun|exact Hc].
Qed.

End Facts.

Section StringFacts.

(** X7: [String] gives each of the five codes it has a case for a name of
    its own; every other code, [NotExistError] among them, prints as
    unknown. *)
Theorem ErrorCode_String_unknown (c : ErrorCode) :
  (ErrorCode_String c = "unknown"%string <->
   c <> EvalError /\ c <> UserError /\ c <> StructuralCycleError
   /\ c <> IncompleteError /\ c <> CycleError)
  /\ ErrorCode_String NotExistError = "unknown"%string
  /\ forall c',
       ErrorCode_String c = ErrorCode_String c' ->
       ErrorCode_String c <> "unknown"%string -> c = c'.
Proof.
  unfold ErrorCode_String, EvalError, UserError, NotExistError,
    StructuralCycleError, IncompleteError, CycleError.
  split; [|split; [reflexivity|]].
  - repeat match goal with
           | |- context [?x =? ?y] => destruct (Z.eqb_spec x y)
           end; split; intros H; try discriminate H; try lia; try reflexivity.
  - intros c'.
    repeat match goal with
           | |- context [?x =? ?y] => destruct (Z.eqb_spec x y)
           end; intros H Hu; try discriminate H; try lia.
    destruct Hu. reflexivity.
Qed.

End StringFacts.

Section ValueErrorFacts.
Context {Runtime VertexPtr Pos Message Args : Type} (NoPos : Pos).
Context (NewMessage : string -> Args -> Message).

(** X8: an error built by [NewPosf] has the position it was given as its
    [Position] and as its only input position, and one built by [Newf] the
    current position of the context; the fallback [token.NoPos] of
    [Position] is for errors without input positions only. *)
Theorem valueError_positions (c : OpContext Runtime VertexPtr Pos)
    (pos : Pos) (format : string) (args : Args) :
  Position NoPos (NewPosf NewMessage c pos format args) = pos
  /\ InputPositions (NewPosf NewMessage c pos format args) = [pos]
  /\ Position NoPos (Newf NewMessage c format args) = OpContext_pos c
  /\ InputPositions (Newf NewMessage c format args) = [OpContext_pos c]
  /\ forall e : valueError Runtime VertexPtr Pos Message,
       head (InputPositions e) = Some (Position NoPos e)
       \/ (InputPositions e = [] /\ Position NoPos e = NoPos).
Proof.
  repeat split.
  intros e. unfold Position, InputPositions.
  destruct (valueError_pos e); [right; split; reflexivity|left; reflexivity].
Qed.

End ValueErrorFacts.

(** *** The theorems at a concrete store *)

(** A structural cycle below a vertex without error: the value becomes a
    new Bottom that keeps the old value, and the child error is kept. *)
Example AddChildError_demo :
  AddChildError app (mkVertex (OtherValue 0) None) (Some 3%nat) demoHeap
  = Some (mkVertex (BottomPtr (Some 4%nat)) (Some 3%nat),
          demoHeap
          ++ [mkBottom None ["structural"%string] StructuralCycleError true
                true (OtherValue 0)]).
Proof. reflexivity. Qed.

(** Two user errors merge, in the order of the arguments. *)
Example CombineErrors_demo :
  CombineErrors app None (BottomPtr (Some 2%nat)) (BottomPtr (Some 0%nat))
    demoHeap
  = Some (Some 4%nat,
          demoHeap
          ++ [mkBottom None ["again"%string; "user"%string] UserError false
                false NilValue]).
Proof. reflexivity. Qed.

Lemma CombineErrors_fatal_wins_witness :
  CombineErrors app (Some 7%nat) (BottomPtr (Some 0%nat))
    (BottomPtr (Some 1%nat)) demoHeap = Some (Some 0%nat, demoHeap)
  /\ CombineErrors app (Some 7%nat) (BottomPtr (Some 1%nat))
       (BottomPtr (Some 0%nat)) demoHeap = Some (Some 0%nat, demoHeap).
Proof.
  apply (CombineErrors_fatal_wins app (Some 7%nat) demoHeap 0 1
           (demoBottom UserError "user") (demoBottom CycleError "cycle")).
  - reflexivity.
  - reflexivity.
  - right; left; reflexivity.
  - right; reflexivity.
Defined.

Lemma CombineErrors_merge_witness :
  exists l h' m,
    CombineErrors app (Some 7%nat) (BottomPtr (Some 0%nat))
      (BottomPtr (Some 2%nat)) demoHeap = Some (Some l, h')
    /\ demoHeap !! l = None /\ h' !! l = Some m
    /\ (forall k z, demoHeap !! k = Some z -> h' !! k = Some z)
    /\ Src m = Some 7%nat /\ Code m = UserError
    /\ Err m = ["user"; "again"]%string.
Proof.
  apply (proj1 (CombineErrors_merge app (Some 7%nat) demoHeap
                  (BottomPtr (Some 0%nat)) (BottomPtr (Some 2%nat)))
           0%nat 2%nat (demoBottom UserError "user")
           (demoBottom UserError "again")).
  - reflexivity.
  - reflexivity.
  - reflexivity.
  - reflexivity.
  - unfold incomplete_code; simpl; intros [H|H]; discriminate H.
  - unfold incomplete_code; simpl; intros [H|H]; discriminate H.
  - reflexivity.
Defined.

Lemma isIncomplete_iff_witness :
  exists res,
    isIncomplete demoHeap (Some (mkVertex (BottomPtr (Some 1%nat)) None))
    = Some res
    /\ (res = true <->
        Some (mkVertex (BottomPtr (Some 1%nat)) None) = None
        \/ exists x l b,
            Some (mkVertex (BottomPtr (Some 1%nat)) None) = Some x
            /\ Vertex_Value x = BottomPtr (Some l)
            /\ demoHeap !! l = Some b /\ incomplete_code (Code b)).
Proof.
  apply (isIncomplete_iff demoHeap
           (Some (mkVertex (BottomPtr (Some 1%nat)) None))).
  intros x l Hx Hl. injection Hx as <-. injection Hl as <-. simpl. lia.
Defined.

Lemma AddChildError_folds_ChildErrors_witness :
  exists ce h1 v' h',
    CombineErrors app None (BottomPtr (Some 0%nat)) (BottomPtr (Some 1%nat))
      demoHeap = Some (ce, h1)
    /\ AddChildError app (mkVertex (OtherValue 0) (Some 0%nat)) (Some 1%nat)
         demoHeap = Some (v', h')
    /\ ChildErrors v' = ce
    /\ (incomplete_code CycleError ->
        v' = mkVertex (OtherValue 0) ce /\ h' = h1
        /\ forall k x, demoHeap !! k = Some x -> h' !! k = Some x).
Proof.
  apply (AddChildError_folds_ChildErrors app
           (mkVertex (OtherValue 0) (Some 0%nat)) 1%nat
           (demoBottom CycleError "cycle") demoHeap).
  - reflexivity.
  - intros l Hl. injection Hl as <-. simpl. lia.
  - intros l Hl. discriminate Hl.
Defined.

Lemma AddChildError_fatal_witness :
  exists v1 h1 v2 h2 l b,
    AddChildError app (mkVertex (OtherValue 0) None) (Some 3%nat) demoHeap
    = Some (v1, h1)
    /\ AddChildError app v1 (Some 0%nat) h1 = Some (v2, h2)
    /\ Vertex_Value v2 = BottomPtr (Some l)
    /\ h2 !! l = Some b
    /\ Code b = UserError /\ HasRecursive b = true.
Proof.
  apply (proj2 (proj2 (AddChildError_fatal app
                         (mkVertex (OtherValue 0) None) 3%nat
                         (demoBottom StructuralCycleError "structural") demoHeap
                         eq_refl
                         (fun l (H : None = Some l) =>
                            match H with end)
                         ltac:(discriminate) ltac:(discriminate)))
           0%nat (demoBottom UserError "user")).
  - intros l Hl. discriminate Hl.
  - reflexivity.
  - reflexivity.
  - reflexivity.
Defined.

Lemma CombineErrors_min_code_witness :
  exists l t m,
    CombineErrors app None (BottomPtr (Some 0%nat)) (BottomPtr (Some 3%nat))
      demoHeap = Some (Some l, demoHeap ++ t)
    /\ (demoHeap ++ t) !! l = Some m
    /\ Code m = Z.min UserError StructuralCycleError.
Proof.
  apply (CombineErrors_min_code app None demoHeap 0 3
           (demoBottom UserError "user")
           (demoBottom StructuralCycleError "structural")).
  - reflexivity.
  - reflexivity.
Defined.

(** A structural cycle and a user error, in either order: one merged Bottom
    with the user error first. *)
Lemma CombineErrors_order_free_witness :
  CombineErrors app None (BottomPtr (Some 3%nat)) (BottomPtr (Some 0%nat))
    demoHeap
  = CombineErrors app None (BottomPtr (Some 0%nat)) (BottomPtr (Some 3%nat))
      demoHeap
  /\ CombineErrors app None (BottomPtr (Some 3%nat)) (BottomPtr (Some 0%nat))
       demoHeap
     = Some (Some 4%nat,
             demoHeap
             ++ [mkBottom None ["user"%string; "structural"%string] UserError
                   false false NilValue]).
Proof.
  destruct (CombineErrors_order_free app None demoHeap 3 0
              (demoBottom StructuralCycleError "structural")
              (demoBottom UserError "user")
              eq_refl eq_refl ltac:(discriminate)) as [Hsym Hmerge].
  split; [exact Hsym|].
  apply (Hmerge (demoBottom UserError "user")
           (demoBottom StructuralCycleError "structural")).
  - right. repeat split; reflexivity.
  - reflexivity.
Defined.

(** A user error below a vertex whose value is the structural cycle at 3:
    that Bottom keeps its message and does not rise in code, the Bottom of
    the child is as before. *)
Lemma AddChildError_touches_only_value_witness :
  exists v' h',
    AddChildError app (mkVertex (BottomPtr (Some 3%nat)) (Some 1%nat))
      (Some 0%nat) demoHeap = Some (v', h')
    /\ h' !! 0%nat = Some (demoBottom UserError "user")
    /\ exists e',
         h' !! 3%nat = Some e' /\ Err e' = ["structural"%string]
         /\ Code e' <= StructuralCycleError.
Proof.
  destruct (AddChildError_touches_only_value app
              (mkVertex (BottomPtr (Some 3%nat)) (Some 1%nat)) 0
              (demoBottom UserError "user") demoHeap)
    as (v' & h' & Hrun & Hother & Hvalue).
  - reflexivity.
  - intros l Hl. injection Hl as <-. simpl. lia.
  - intros l Hl. injection Hl as <-. simpl. lia.
  - exists v', h'. split; [exact Hrun|]. split.
    + apply Hother; [reflexivity|discriminate].
    + destruct (Hvalue 3%nat (demoBottom StructuralCycleError "structural")
                  eq_refl eq_refl)
        as (e' & He' & _ & Herr & _ & _ & Hcode & _).
      exists e'. split; [exact He'|]. split; [exact Herr|exact Hcode].
Defined.

(** A cycle, a structural cycle and a user error below a vertex without
    error: the message of the structural cycle, the code of the user
    error. *)
Lemma AddChildErrors_aggregate_witness :
  exists v' h' l,
    AddChildErrors app (mkVertex (OtherValue 0) None) [1; 3; 0]%nat demoHeap
    = Some (v', h')
    /\ Vertex_Value v' = BottomPtr (Some l)
    /\ h' !! l
       = Some (mkBottom None ["structural"%string] UserError true true
                 (OtherValue 0)).
Proof.
  destruct (AddChildErrors_aggregate app (mkVertex (OtherValue 0) None)
              [1; 3; 0]%nat
              [demoBottom CycleError "cycle";
               demoBottom StructuralCycleError "structural";
               demoBottom UserError "user"] demoHeap)
    as (v' & h' & Hrun & _ & Hacc).
  - repeat constructor.
  - intros l Hl. discriminate Hl.
  - intros l Hl. discriminate Hl.
  - simpl in Hacc. destruct Hacc as (l & Hv & _ & Hb).
    exists v', h', l. split; [exact Hrun|]. split; [exact Hv|exact Hb].
Defined.

(** A user error, a cycle and a structural cycle: the aggregate ends with
    the code of the user error. *)
Lemma AddChildErrors_least_code_witness :
  exists v' h' l b,
    AddChildErrors app (mkVertex (OtherValue 0) None) [0; 1; 3]%nat demoHeap
    = Some (v', h')
    /\ ChildErrors v' = Some l /\ h' !! l = Some b /\ Code b = UserError.
Proof.
  destruct (AddChildErrors_least_code app (mkVertex (OtherValue 0) None)
              [0; 1; 3]%nat
              [demoBottom UserError "user"; demoBottom CycleError "cycle";
               demoBottom StructuralCycleError "structural"] demoHeap)
    as (v' & h' & Hrun & Hc).
  - repeat constructor.
  - reflexivity.
  - intros l Hl. discriminate Hl.
  - simpl in Hc. destruct Hc as (l & b & Hl & Hb & Hcode).
    exists v', h', l, b. auto.
Defined.

End adt_facts.

(** ** Properties of the lowering *)
Module cue_facts.
Import cue cue_spec.

Section Facts.
Context {T : Types} {E : Externals}.

(** *** Running a computation *)

Lemma bind_Ok {A B : Type} (m : M A) (f : A -> M B) w b w' :
  (m ≫= f) w = Ok b w' <-> exists a w1, m w = Ok a w1 /\ f a w1 = Ok b w'.
Proof.
  unfold mbind, M_bind, bind. split.
  - destruct (m w) as [a w1|r]; [eauto|discriminate].
  - intros (a & w1 & -> & H). exact H.
Qed.

Lemma bind_run {A B : Type} (m : M A) (f : A -> M B) w :
  (m ≫= f) w
  = match m w with
    | Ok a w1 => f a w1
    | Panic r => Panic r
    end.
Proof. reflexivity. Qed.

Lemma ret_run {A : Type} (a : A) w : (mret a : M A) w = Ok a w.
Proof. reflexivity. Qed.

(** *** Disjunctions *)

Lemma lowerBranches_app mark ns1 ns2 w :
  lowerBranches mark (ns1 ++ ns2) w
  = (vs1 ← lowerBranches mark ns1;
     vs2 ← lowerBranches mark ns2;
     mret (vs1 ++ vs2)) w.
Proof.
  revert w. induction ns1 as [|n ns1 IH]; intros w; simpl.
  - unfold mbind, M_bind, bind, mret, M_ret, ret. simpl.
    destruct (lowerBranches mark ns2 w); reflexivity.
  - unfold mbind, M_bind, bind, mret, M_ret, ret in *.
    destruct (walk (stripMark n) w) as [r w1|]; [|reflexivity].
    rewrite IH.
    destruct (lowerBranches mark ns1 w1) as [vs1 w2|]; [|reflexivity].
    destruct (lowerBranches mark ns2 w2); reflexivity.
Qed.

Lemma addDisjunctionElem_operands (n : node) : forall d mark w,
  addDisjunctionElem_with walk d n mark w
  = (vs ← lowerBranches mark (operands n);
     mret (mkDisjunction (d_base d) (values d ++ vs)
             (hasDefaults d || existsb isUnaryExpr (operands n)))) w.
Proof.
  induction n; intros d mark w;
    try (cbn -[walk]; unfold mbind, M_bind, bind, mret, M_ret, ret;
         match goal with |- context [walk ?n w] => destruct (walk n w) end;
         cbn; rewrite ?orb_false_r; reflexivity).
  - (* UnaryExpr *)
    destruct Op; cbn -[walk]; unfold mbind, M_bind, bind, mret, M_ret, ret;
      match goal with |- context [walk ?n w] => destruct (walk n w) end;
      cbn; rewrite ?orb_true_r, ?orb_false_r; reflexivity.
  - (* BinaryExpr *)
    destruct Op;
      try (cbn -[walk]; unfold mbind, M_bind, bind, mret, M_ret, ret;
           match goal with |- context [walk ?n w] => destruct (walk n w) end;
           cbn; rewrite ?orb_false_r; reflexivity).
    cbn -[walk]. fold (addDisjunctionElem_with walk).
    rewrite !bind_run, IHn1, lowerBranches_app, !bind_run.
    destruct (lowerBranches mark (operands n1) w) as [vs1 w1|];
      [|reflexivity].
    rewrite ret_run, IHn2, !bind_run.
    destruct (lowerBranches mark (operands n2) w1) as [vs2 w2|];
      [|reflexivity].
    rewrite !ret_run. cbn.
    rewrite existsb_app, app_assoc, orb_assoc. reflexivity.
Qed.

(** The case [token.OR] of [walk]. *)
Lemma walk_disjunction id x y w :
  walk (BinaryExpr id OR x y) w
  = (vs ← lowerBranches false (operands x ++ operands y);
     mret (VDisjunction
             (mkDisjunction (newExpr id) vs
                (existsb isUnaryExpr (operands x ++ operands y))))) w.
Proof.
  change (walk (BinaryExpr id OR x y))
    with (d ← addDisjunctionElem_with walk
                (mkDisjunction (newExpr id) [] false) x false;
          d ← addDisjunctionElem_with walk d y false;
          mret (VDisjunction d)).
  rewrite !bind_run, addDisjunctionElem_operands, lowerBranches_app, !bind_run.
  destruct (lowerBranches false (operands x) w) as [vs1 w1|]; [|reflexivity].
  rewrite ret_run, !bind_run, addDisjunctionElem_operands, !bind_run.
  destruct (lowerBranches false (operands y) w1) as [vs2 w2|]; [|reflexivity].
  rewrite !ret_run. cbn. rewrite existsb_app. reflexivity.
Qed.

(** *** Induction on the syntax tree

    The predicate holds of a node when it holds of the nodes [walk] may
    descend into, and of the nodes below those. *)

Lemma node_ind_children (P : node -> Prop) :
  (forall n, Forall P (children n) -> P n) -> forall n, P n.
Proof.
  intros H. fix F 1. intros n. apply H.
  assert (Hl : forall l : list node, Forall P l).
  { induction l as [|x l IH]; constructor; [apply F|exact IH]. }
  assert (Hc : forall l : list clause, Forall P (map clause_expr l)).
  { induction l as [|c l IH]; simpl; constructor; [|exact IH].
    destruct c; simpl; apply F. }
  assert (Ho : forall o : option node, Forall P (option_list o)).
  { intros [x|]; simpl; repeat constructor. apply F. }
  destruct n
    as [| | | | | | ? [] ?|[]| | | ? ? [] ?| | | | | | | | | | | | | |];
    simpl;
    repeat first [ constructor | apply F | rewrite Forall_app; split
                 | apply Ho | apply Hc | apply Hl ].
Qed.

(** *** The frame of a walk *)

Lemma frame_refl S w : frame S w w.
Proof. split; auto. Qed.

Lemma frame_trans S w1 w2 w3 : frame S w1 w2 -> frame S w2 w3 -> frame S w1 w3.
Proof.
  intros [Hl1 Hn1 Hm1 He1] [Hl2 Hn2 Hm2 He2]. split.
  - intros l Hl HS. rewrite Hl2 by (auto; lia). auto.
  - lia.
  - etrans; eauto.
  - etrans; eauto.
Qed.

Lemma frame_weaken (S S' : loc -> Prop) w w' :
  (forall l, S l -> S' l) -> frame S w w' -> frame S' w w'.
Proof. intros HS [Hl Hn Hm He]. split; auto. Qed.

Lemma frame_none S w w' : frame none w w' -> frame S w w'.
Proof. apply frame_weaken. intros l []. Qed.

Lemma frame_fresh S w w' :
  (forall l, S l -> (length (lambdas w) <= l)%nat) ->
  frame S w w' -> frame none w w'.
Proof.
  intros HS [Hl Hn Hm He]. split; auto.
  intros l Hlt _. apply Hl; [exact Hlt|]. intros Hs. apply HS in Hs. lia.
Qed.

Lemma frame_set_cur_l S v w w' : frame S w w' -> frame S (set_cur v w) w'.
Proof. intros [Hl Hn Hm He]. split; auto. Qed.

Lemma frame_set_cur_r S v w w' : frame S w w' -> frame S w (set_cur v w').
Proof. intros [Hl Hn Hm He]. split; auto. Qed.

(** *** Computations that keep the frame *)

Lemma keeps_ret {A : Type} S (a : A) : keeps S (mret a).
Proof. intros w a' w' [= <- <-]. apply frame_refl. Qed.

Lemma keeps_panic {A : Type} S r : keeps S (panic r : M A).
Proof. intros w a w' [=]. Qed.

Lemma keeps_bind {A B : Type} S (m : M A) (f : A -> M B) :
  keeps S m -> (forall a, keeps S (f a)) -> keeps S (m ≫= f).
Proof.
  intros Hm Hf w b w' H. apply bind_Ok in H as (a & w1 & H1 & H2).
  eapply frame_trans; [eapply Hm|eapply Hf]; eauto.
Qed.

Lemma keeps_weaken {A : Type} (S S' : loc -> Prop) (m : M A) :
  (forall l, S l -> S' l) -> keeps S m -> keeps S' m.
Proof. intros HS Hm w a w' H. eapply frame_weaken; eauto. Qed.

Lemma keeps_none {A : Type} S (m : M A) : keeps none m -> keeps S m.
Proof. apply keeps_weaken. intros l []. Qed.

Lemma keeps_call {A : Type} S v1 (m : M A) : keeps S m -> keeps S (call v1 m).
Proof.
  intros Hm w a w' H. unfold call in H.
  destruct (m (set_cur v1 w)) as [x w1|] eqn:Hx; [|discriminate].
  injection H as <- <-. apply Hm in Hx.
  apply frame_set_cur_r. destruct Hx as [Hl Hn Hmap He]. split; auto.
Qed.

Lemma keeps_getv S : keeps S getv.
Proof. intros w a w' [= <- <-]. apply frame_refl. Qed.

Lemma keeps_get S : keeps S get.
Proof. intros w a w' [= <- <-]. apply frame_refl. Qed.

Lemma keeps_modv S f : keeps S (modv f).
Proof. intros w a w' [= <- <-]. apply frame_set_cur_r, frame_refl. Qed.

Lemma keeps_getStruct S l : keeps S (getStruct l).
Proof.
  intros w a w' H. unfold getStruct in H.
  destruct (structs w !! l); [|discriminate]. injection H as <- <-.
  apply frame_refl.
Qed.

Lemma keeps_modStruct S l f : keeps S (modStruct l f).
Proof.
  apply keeps_bind; [apply keeps_getStruct|].
  intros s w a w' [= <- <-]. split; simpl; auto.
Qed.

Lemma keeps_allocStruct S s : keeps S (allocStruct s).
Proof. intros w a w' [= <- <-]. split; simpl; auto. Qed.

Lemma keeps_getYield S l : keeps S (getYield l).
Proof.
  intros w a w' H. unfold getYield in H.
  destruct (yields w !! l); [|discriminate]. injection H as <- <-.
  apply frame_refl.
Qed.

Lemma keeps_modYield S l f : keeps S (modYield l f).
Proof.
  apply keeps_bind; [apply keeps_getYield|].
  intros s w a w' [= <- <-]. split; simpl; auto.
Qed.

Lemma keeps_allocYield S s : keeps S (allocYield s).
Proof. intros w a w' [= <- <-]. split; simpl; auto. Qed.

Lemma keeps_getLambda S l : keeps S (getLambda l).
Proof.
  intros w a w' H. unfold getLambda in H.
  destruct (lambdas w !! l); [|discriminate]. injection H as <- <-.
  apply frame_refl.
Qed.

Lemma keeps_modLambda (S : loc -> Prop) l f : S l -> keeps S (modLambda l f).
Proof.
  intros HS. apply keeps_bind; [apply keeps_getLambda|].
  intros s w a w' [= <- <-]. split; simpl; auto.
  - intros k Hk Hn. apply list_lookup_insert_ne. intros ->. auto.
  - rewrite length_insert. lia.
Qed.

Lemma keeps_allocLambda S s : keeps S (allocLambda s).
Proof.
  intros w a w' [= <- <-]. split; simpl; auto.
  - intros l Hl _. apply lookup_app_l. exact Hl.
  - rewrite length_app. lia.
Qed.

Lemma keeps_mapScope S n : keeps S (mapScope n).
Proof.
  intros w a w' H. unfold mapScope in H.
  destruct (astMap w !! n) eqn:Hn; injection H as <- <-.
  - apply frame_refl.
  - split; simpl; auto. apply insert_subseteq. exact Hn.
Qed.

Lemma keeps_setScope S n v : keeps S (setScope n v).
Proof.
  intros w a w' H. unfold setScope in H.
  destruct (astMap w !! n) as [m|] eqn:Hn.
  - case_bool_decide as Hm; [discriminate|]. injection H as <- <-.
    assert (m = v) as -> by (destruct (decide (m = v)); tauto).
    rewrite insert_id by exact Hn. destruct w; apply frame_refl.
  - injection H as <- <-. split; simpl; auto.
    apply insert_subseteq. exact Hn.
Qed.

Lemma keeps_errf S n f args : keeps S (errf n f args).
Proof.
  apply keeps_bind; [apply keeps_getv|]. intros v.
  apply keeps_bind; [|intros; apply keeps_ret].
  intros w a w' [= <- <-]. split; simpl; auto.
  apply prefix_app_r. reflexivity.
Qed.

Lemma keeps_resolve S id name : keeps S (resolve id name).
Proof.
  apply keeps_bind; [apply keeps_getv|]. intros v.
  apply keeps_bind; [apply keeps_get|]. intros w0.
  destruct (resolveRoot w0); [|apply keeps_ret].
  apply keeps_bind; [apply keeps_getStruct|]. intros s.
  destruct (existsb _ _); [apply keeps_ret|].
  destruct (inSelector v >? 0); [|apply keeps_ret].
  destruct (getBuiltinShorthandPkg name); apply keeps_ret.
Qed.

Lemma keeps_loadImport S id p : keeps S (loadImport id p).
Proof.
  unfold loadImport. destruct (Unquote p); [|apply keeps_errf].
  destruct (getBuiltinPkg _); [apply keeps_ret|].
  destruct (LookupImport _); [apply keeps_ret|apply keeps_errf].
Qed.

Lemma keeps_walkImportSpec S id p : keeps S (walkImportSpec id p).
Proof.
  apply keeps_bind; [apply keeps_loadImport|]. intros val.
  destruct (negb (isBottom val)); [|apply keeps_ret].
  destruct val; try apply keeps_panic.
  apply keeps_bind; [apply keeps_setScope|]. intros; apply keeps_ret.
Qed.

Lemma frame_fresh_set (S S' : loc -> Prop) w w' :
  (forall l, S' l -> S l \/ (length (lambdas w) <= l)%nat) ->
  frame S' w w' -> frame S w w'.
Proof.
  intros HS [Hl Hn Hm He]. split; auto.
  intros l Hlt Hs. apply Hl; [exact Hlt|].
  intros Hs'. apply HS in Hs' as [?|?]; [tauto|lia].
Qed.

Lemma keeps_allocLambda_bind {B : Type} (S : loc -> Prop) s
    (f : loc -> M B) :
  (forall fn, keeps (fun l => S l \/ l = fn) (f fn)) ->
  keeps S (allocLambda s ≫= f).
Proof.
  intros Hf w b w' H. apply bind_Ok in H as (fn & wa & Ha & H).
  apply Hf in H. injection Ha as <- <-.
  eapply frame_fresh_set; [|eapply frame_trans; [|exact H]].
  - simpl. intros l [? | ->]; [tauto|]. right. lia.
  - apply (keeps_allocLambda _ s w _ _ eq_refl).
Qed.

(** One step of a proof that a computation keeps the frame: by the shape
    of the computation. *)
Ltac keeps_step :=
  lazymatch goal with
  | |- keeps _ (mret _) => apply keeps_ret
  | |- keeps _ (ret _) => apply keeps_ret
  | |- keeps _ (panic _) => apply keeps_panic
  | |- keeps _ (allocLambda _ ≫= _) => apply keeps_allocLambda_bind; intros ?
  | |- keeps _ (_ ≫= _) => apply keeps_bind; [|intros ?]
  | |- keeps _ (bind _ _) => apply keeps_bind; [|intros ?]
  | |- keeps _ (call _ _) => apply keeps_call
  | |- keeps _ getv => apply keeps_getv
  | |- keeps _ get => apply keeps_get
  | |- keeps _ (modv _) => apply keeps_modv
  | |- keeps _ (getStruct _) => apply keeps_getStruct
  | |- keeps _ (modStruct _ _) => apply keeps_modStruct
  | |- keeps _ (allocStruct _) => apply keeps_allocStruct
  | |- keeps _ (getYield _) => apply keeps_getYield
  | |- keeps _ (modYield _ _) => apply keeps_modYield
  | |- keeps _ (allocYield _) => apply keeps_allocYield
  | |- keeps _ (getLambda _) => apply keeps_getLambda
  | |- keeps _ (allocLambda _) => apply keeps_allocLambda
  | |- keeps _ (modLambda _ _) =>
      apply keeps_modLambda;
      first [right; reflexivity | left; assumption | assumption]
  | |- keeps _ (addDisjunctionElem_with walk _ _ _) => solve [auto]
  | |- keeps _ (mapScope _) => apply keeps_mapScope
  | |- keeps _ (setScope _ _) => apply keeps_setScope
  | |- keeps _ (errf _ _ _) => apply keeps_errf
  | |- keeps _ (resolve _ _) => apply keeps_resolve
  | |- keeps _ (walkImportSpec _ _) => apply keeps_walkImportSpec
  | |- keeps _ (nilOr _) => unfold nilOr
  | |- keeps _ (match ?x with _ => _ end) => destruct x
  | |- keeps _ (walk _) => apply keeps_none; assumption
  end.

Ltac keeps_tac := repeat keeps_step.

Lemma node_ind_deep (P : node -> Prop) :
  (forall n, Forall (fun c => P c /\ Forall P (children c)) (children n) ->
             P n) ->
  forall n, P n.
Proof.
  intros H n.
  cut (P n /\ Forall P (children n)); [tauto|].
  induction n as [n IH] using node_ind_children. split.
  - apply H, IH.
  - eapply Forall_impl; [exact IH|]. simpl. tauto.
Qed.

(** Takes apart what the induction gives for the nodes below. *)
Ltac use_below :=
  repeat match goal with
    | H : below _ |- _ => destruct H as [? ?]
    | H : Forall _ (children _) |- _ => progress simpl in H
    | H : Forall _ (_ :: _) |- _ => apply Forall_cons in H as [? ?]
    | H : Forall _ (_ ++ _) |- _ => apply Forall_app in H as [? ?]
    | H : Forall _ (option_list (Some _)) |- _ => progress simpl in H
    | H : Forall _ [] |- _ => clear H
    | H : walk_keeps _ |- _ => destruct H as [? ?]
    end.

(** *** The loops of [walk] keep the frame *)

Lemma keeps_walkDecls ds :
  Forall below ds ->
  forall S v1, keeps S (walkDecls_with walk ds v1).
Proof.
  induction 1 as [|e ds He Hds IH]; intros S v1; simpl.
  - keeps_tac.
  - destruct e; use_below; keeps_tac; apply IH.
Qed.

Lemma keeps_walkElts es :
  Forall below es ->
  forall S v1, keeps S (walkElts_with walk es v1).
Proof.
  induction 1 as [|e es He Hes IH]; intros S v1; simpl.
  - keeps_tac.
  - destruct e; use_below; keeps_tac; apply IH.
Qed.

Lemma keeps_walkListElts es :
  Forall below es ->
  forall S i arcs v1, keeps S (walkListElts_with walk es i arcs v1).
Proof.
  induction 1 as [|e es He Hes IH]; intros S i arcs v1; simpl.
  - keeps_tac.
  - use_below; keeps_tac; apply IH.
Qed.

Lemma keeps_walkArgs es :
  Forall below es ->
  forall S args, keeps S (walkArgs_with walk es args).
Proof.
  induction 1 as [|e es He Hes IH]; intros S args; simpl.
  - keeps_tac.
  - use_below; keeps_tac; apply IH.
Qed.

Lemma keeps_walkParts id info es :
  Forall below es ->
  forall S prefix prefixLen parts,
    keeps S (walkParts_with walk id info es prefix prefixLen parts).
Proof.
  remember (length es) as k eqn:Hk. revert es Hk.
  induction k as [k IH] using lt_wf_ind. intros es -> Hes S p pl parts.
  destruct es as [|e es]; simpl; [keeps_tac|].
  apply Forall_cons in Hes as [He Hes].
  destruct e; try apply keeps_errf.
  destruct (negb _); [apply keeps_errf|].
  destruct (_ <? _)%nat; [apply keeps_panic|].
  destruct es as [|e1 es]; [keeps_tac|].
  apply Forall_cons in Hes as [He1 Hes]. use_below. keeps_tac.
  eapply IH; [|reflexivity|exact Hes]. simpl. lia.
Qed.

(** *** Clauses: registration, then lowering *)

Lemma registered_astMap w w' cs fs :
  astMap w ⊆ astMap w' ->
  (forall fn, fn ∈ fs -> lambdas w' !! fn = lambdas w !! fn) ->
  registered w cs fs -> registered w' cs fs.
Proof.
  intros Hm. revert fs.
  induction cs as [|[id k v s|id c] cs IH]; intros fs Hl; simpl; auto.
  destruct fs as [|fn fs]; [tauto|]. intros (Ha & Hb & Hc).
  split; [eapply lookup_weaken; eauto|].
  split; [rewrite Hl; [exact Hb|left]|].
  apply IH; [|exact Hc]. intros l Hin. apply Hl. right. exact Hin.
Qed.

Lemma registerClauses_spec cs : forall w a w1,
  registerClauses cs w = Ok a w1 ->
  frame none w w1
  /\ exists fs,
      registered w1 cs fs /\ NoDup fs
      /\ forall fn, fn ∈ fs ->
           (length (lambdas w) <= fn < length (lambdas w1))%nat.
Proof.
  induction cs as [|[id k v s|id c] cs IH]; intros w a w1 H; simpl in H.
  - injection H as <- <-. split; [apply frame_refl|].
    exists []. split; [reflexivity|]. split; [constructor|].
    intros fn Hin. inversion Hin.
  - apply bind_Ok in H as (fn & wa & Ha & H).
    apply bind_Ok in H as (? & wb & Hb & H).
    destruct (IH _ _ _ H) as (Hf & fs & Hreg & Hnd & Hfs).
    pose proof (keeps_allocLambda none _ _ _ _ Ha) as Hfa.
    pose proof (keeps_setScope none _ _ _ _ _ Hb) as Hfb.
    assert (Hidb : astMap wb !! id = Some (ScopeLambda fn)
                   /\ lambdas wb = lambdas wa).
    { unfold setScope in Hb. destruct (astMap wa !! id);
        [case_bool_decide; [discriminate|]|];
        injection Hb as <- <-; simpl; rewrite lookup_insert_eq; auto. }
    destruct Hidb as [Hidb Hlb].
    injection Ha as <- <-. simpl in *.
    split; [eauto using frame_trans|].
    exists (length (lambdas w) :: fs). simpl.
    assert (Hlt : (length (lambdas w) < length (lambdas wb))%nat).
    { rewrite Hlb, length_app. simpl. lia. }
    split; [split; [|split]|split].
    + eapply lookup_weaken; [exact Hidb|apply Hf].
    + rewrite (frame_lambdas _ _ _ Hf) by (auto; lia).
      rewrite Hlb. apply list_lookup_middle. reflexivity.
    + exact Hreg.
    + constructor; [|exact Hnd]. intros Hin. apply Hfs in Hin. lia.
    + intros l [->|Hin]%elem_of_cons.
      * split; [lia|]. pose proof (frame_length _ _ _ Hf). lia.
      * apply Hfs in Hin. rewrite Hlb, length_app in Hin. simpl in Hin. lia.
  - apply IH in H. exact H.
Qed.

Lemma keeps_wrapLoop cs :
  Forall walk_keeps (map clause_expr cs) ->
  forall fs y w a w',
    registered w cs fs ->
    wrapLoop_with walk cs y w = Ok a w' ->
    frame (fun l => l ∈ fs) w w'.
Proof.
  induction cs as [|c cs IH]; intros Hcs fs y w a w' Hreg H; simpl in H.
  - injection H as <- <-. apply frame_refl.
  - simpl in Hcs. apply Forall_cons in Hcs as [Hc Hcs].
    apply bind_Ok in H as (y1 & w1 & H1 & H).
    destruct c as [id k v s|id c]; simpl in Hreg, Hc.
    + destruct fs as [|fn fs]; [tauto|]. destruct Hreg as (Ha & Hb & Hreg).
      pose proof (IH Hcs _ _ _ _ _ Hreg H1) as Hf.
      apply bind_Ok in H as (m & w2 & H2 & H).
      assert (m = ScopeLambda fn /\ w2 = w1) as [-> ->].
      { unfold mapScope in H2.
        rewrite (lookup_weaken _ _ _ _ Ha (frame_astMap _ _ _ Hf)) in H2.
        injection H2 as <- <-. auto. }
      eapply frame_trans.
      { eapply frame_weaken; [|exact Hf]. intros l Hl. right. exact Hl. }
      revert H. generalize w1 a w'.
      change (keeps (fun l => l ∈ fn :: fs)
                (_ ← modLambda fn (set_lambda_value y1);
                 let k0 := match k with
                           | Some (_, name) => name
                           | None => "_"%string
                           end in
                 let f := strLabel k0 true in
                 _ ← modLambda fn
                       (params_add f
                          (VBasicType (fst <$> k)
                             (kind_or stringKind intKind)));
                 let f := strLabel v true in
                 _ ← modLambda fn (params_add f (VTop None));
                 src ← walk s;
                 mret (VFeed (newExpr (node_id s)) src fn))).
      destruct Hc as [Hc _].
      repeat first [ apply keeps_modLambda; left
                   | apply keeps_bind; [|intros ?]
                   | apply keeps_ret
                   | apply keeps_none; assumption ].
    + pose proof (IH Hcs _ _ _ _ _ Hreg H1) as Hf.
      eapply frame_trans; [exact Hf|].
      revert H. generalize w1 a w'.
      change (keeps (fun l => l ∈ fs)
                (c0 ← walk c; mret (VGuard (newExpr (node_id c)) c0 y1))).
      destruct Hc as [Hc _]. keeps_tac.
Qed.

Lemma keeps_wrapClauses cs S y :
  Forall walk_keeps (map clause_expr cs) ->
  keeps S (wrapClauses_with walk y cs).
Proof.
  intros Hcs w a w' H. unfold wrapClauses_with in H.
  apply bind_Ok in H as (? & w1 & H1 & H).
  apply registerClauses_spec in H1 as (Hf & fs & Hreg & _ & Hfs).
  pose proof (keeps_wrapLoop cs Hcs _ _ _ _ _ Hreg H) as Hf2.
  apply frame_none.
  eapply frame_fresh_set; [|eapply frame_trans; [|exact Hf2]].
  - intros l Hl. right. apply Hfs in Hl. lia.
  - apply frame_none. exact Hf.
Qed.

Lemma keeps_importSpecs S (ss : list (NodeId * string)) :
  keeps S ((fix loop (ss : list (NodeId * string)) : M unit :=
              match ss with
              | [] => mret tt
              | (id, p) :: ss => _ ← walkImportSpec id p; loop ss
              end) ss).
Proof.
  induction ss as [|[id p] ss IH]; [apply keeps_ret|].
  apply keeps_bind; [apply keeps_walkImportSpec|]. intros _. exact IH.
Qed.

Ltac keeps_walk :=
  repeat first
    [ keeps_step
    | apply keeps_walkDecls; assumption
    | apply keeps_walkElts; assumption
    | apply keeps_walkListElts; assumption
    | apply keeps_walkArgs; assumption
    | apply keeps_walkParts; assumption
    | apply keeps_wrapClauses; assumption
    | apply keeps_importSpecs ].

(** *** Every walk keeps the frame *)

Lemma keeps_interpolation S id Elts :
  Forall below Elts -> keeps S (walk (Interpolation id Elts)).
Proof.
  intros HE. simpl.
  destruct Elts as [|e0 es]; [apply keeps_errf|].
  destruct e0; try apply keeps_errf.
  destruct (last _) as [[]|]; try apply keeps_errf.
  destruct es as [|e1 es].
  - apply Forall_cons in HE as [[[He _] _] _]. apply keeps_none, He.
  - destruct (ParseQuotes _ _) as [[info pl]|err]; [|apply keeps_errf].
    apply keeps_walkParts, HE.
Qed.

Theorem walk_keeps_all (n : node) : walk_keeps n.
Proof.
  induction n as [n IH] using node_ind_deep.
  pose proof (Forall_impl _ _ _ IH (fun c Hc => proj1 Hc)) as IH1.
  fold below in IH.
  assert (Hw : keeps none (walk n)).
  { destruct n; simpl in IH, IH1.
    all: try (apply keeps_interpolation; assumption).
    all: repeat match goal with
           | f : field |- _ => destruct f
           | o : option node |- _ => destruct o
           | i : identNode |- _ => destruct i
           | t : token |- _ => destruct t
           end.
    all: simpl in IH, IH1 |- *; use_below.
    all: keeps_walk. }
  split; [exact Hw|].
  intros S d mark.
  destruct n; try (cbn -[walk]; keeps_walk; fail);
    simpl in IH1; use_below.
  - destruct Op; cbn -[walk]; keeps_walk.
  - destruct Op; cbn -[walk]; keeps_walk.
Qed.

Corollary walk_frame (n : node) : keeps none (walk n).
Proof. apply walk_keeps_all. Qed.

(** *** The layers [wrapClauses] builds *)

Lemma modLambda_run l f x w :
  lambdas w !! l = Some x ->
  modLambda l f w = Ok tt (set_lambdas (<[l := f x]> (lambdas w)) w).
Proof.
  intros Hl. unfold modLambda. rewrite bind_run. unfold getLambda.
  rewrite Hl. reflexivity.
Qed.

Lemma mapScope_run n m w :
  astMap w !! n = Some m -> mapScope n w = Ok m w.
Proof. intros Hn. unfold mapScope. rewrite Hn. reflexivity. Qed.

Lemma layers_preserved w w' y0 cs : forall fs y,
  astMap w ⊆ astMap w' ->
  (forall fn, fn ∈ fs -> lambdas w' !! fn = lambdas w !! fn) ->
  layers w y0 cs fs y -> layers w' y0 cs fs y.
Proof.
  induction cs as [|[id k v s|id c] cs IH]; intros fs y Hm Hl; simpl; auto.
  - destruct fs as [|fn fs]; [tauto|].
    intros (src & inner & -> & Hs & Ha & Hb & Hc).
    exists src, inner. split; [reflexivity|]. split; [exact Hs|].
    split; [eapply lookup_weaken; eauto|].
    split; [rewrite Hl; [exact Hb|left]|].
    apply IH; auto. intros l Hin. apply Hl. right. exact Hin.
  - intros (c0 & inner & -> & Hs & Hc). exists c0, inner. auto.
Qed.

Lemma registered_valid w cs : forall fs fn,
  registered w cs fs -> fn ∈ fs -> (fn < length (lambdas w))%nat.
Proof.
  induction cs as [|[id k v s|id c] cs IH]; intros fs fn; simpl.
  - intros -> Hin. inversion Hin.
  - destruct fs as [|f fs]; [tauto|]. intros (_ & Hb & Hc) Hin.
    apply elem_of_cons in Hin as [->|Hin]; [|eauto].
    eapply lookup_lt_Some, Hb.
  - apply IH.
Qed.

Lemma wrapLoop_layers cs : forall fs y0 w y w',
  registered w cs fs -> NoDup fs ->
  wrapLoop_with walk cs y0 w = Ok y w' ->
  layers w' y0 cs fs y.
Proof.
  induction cs as [|c cs IH]; intros fs y0 w y w' Hreg Hnd H; simpl in H.
  - injection H as <- <-. simpl in Hreg |- *. auto.
  - apply bind_Ok in H as (y1 & w1 & H1 & H).
    assert (Hks : Forall walk_keeps (map clause_expr cs)).
    { apply Forall_forall. intros; apply walk_keeps_all. }
    destruct c as [id k v s|id c]; simpl in Hreg |- *.
    + destruct fs as [|fn fs]; [tauto|]. destruct Hreg as (Ha & Hb & Hreg).
      apply NoDup_cons in Hnd as [Hfn Hnd].
      pose proof (IH _ _ _ _ _ Hreg Hnd H1) as Hlay.
      pose proof (keeps_wrapLoop cs Hks _ _ _ _ _ Hreg H1) as Hf.
      pose proof (lookup_weaken _ _ _ _ Ha (frame_astMap _ _ _ Hf)) as Ha1.
      pose proof (lookup_lt_Some _ _ _ Hb) as Hlt.
      pose proof (frame_length _ _ _ Hf) as Hlen.
      assert (Hb1 : lambdas w1 !! fn
                    = Some (mkLambdaExpr (newExpr (node_id s)) [] VNil)).
      { rewrite (frame_lambdas _ _ _ Hf) by assumption. exact Hb. }
      rewrite bind_run, (mapScope_run _ _ _ Ha1) in H.
      rewrite bind_run, (modLambda_run _ _ _ _ Hb1) in H.
      cbv zeta in H.
      rewrite bind_run in H.
      erewrite modLambda_run in H
        by (simpl; apply list_lookup_insert_eq; lia).
      rewrite bind_run in H.
      erewrite modLambda_run in H
        by (simpl; apply list_lookup_insert_eq;
            rewrite ?length_insert; lia).
      cbn [lambdas set_lambdas] in H.
      rewrite !list_insert_insert_eq in H.
      apply bind_Ok in H as (src & w3 & Hs & H). injection H as <- <-.
      pose proof (walk_frame s _ _ _ Hs) as Hf3.
      simpl in Hf3.
      exists src, y1. split; [reflexivity|].
      split; [eexists _, _; exact Hs|].
      split.
      { eapply lookup_weaken; [exact Ha1|]. apply (frame_astMap _ _ _ Hf3). }
      split.
      { rewrite (frame_lambdas _ _ _ Hf3);
          [|simpl; rewrite length_insert; lia|tauto].
        simpl. rewrite list_lookup_insert_eq by lia. reflexivity. }
      eapply layers_preserved; [| |exact Hlay].
      * apply (frame_astMap _ _ _ Hf3).
      * intros l Hin.
        pose proof (registered_valid _ _ _ _ Hreg Hin) as Hl.
        rewrite (frame_lambdas _ _ _ Hf3);
          [|simpl; rewrite length_insert; lia|tauto].
        simpl. apply list_lookup_insert_ne. intros ->. tauto.
    + pose proof (IH _ _ _ _ _ Hreg Hnd H1) as Hlay.
      apply bind_Ok in H as (c0 & w3 & Hs & H). injection H as <- <-.
      pose proof (walk_frame c _ _ _ Hs) as Hf3.
      exists c0, y1. split; [reflexivity|].
      split; [eexists _, _; exact Hs|].
      eapply layers_preserved; [| |exact Hlay].
      * apply (frame_astMap _ _ _ Hf3).
      * intros l Hin.
        pose proof (keeps_wrapLoop cs Hks _ _ _ _ _ Hreg H1) as Hf.
        pose proof (registered_valid _ _ _ _ Hreg Hin) as Hl.
        pose proof (frame_length _ _ _ Hf) as Hlen.
        apply (frame_lambdas _ _ _ Hf3); [lia|tauto].
Qed.

(** *** [wrapClauses] returns *)

Lemma registerClauses_total cs : forall w,
  (forall id, id ∈ forIds cs -> astMap w !! id = None) ->
  NoDup (forIds cs) ->
  exists w1, registerClauses cs w = Ok tt w1.
Proof.
  induction cs as [|[id k v s|id c] cs IH]; intros w Hfresh Hnd; simpl.
  - eexists. reflexivity.
  - simpl in Hnd, Hfresh. apply NoDup_cons in Hnd as [Hid Hnd].
    rewrite bind_run. cbn [allocLambda]. rewrite bind_run.
    unfold setScope at 1. cbn [astMap set_lambdas].
    rewrite Hfresh by left.
    apply IH; [|exact Hnd]. intros id' Hin. simpl.
    rewrite lookup_insert_ne by (intros ->; tauto).
    apply Hfresh. right. exact Hin.
  - apply IH; assumption.
Qed.

Lemma wrapLoop_total cs :
  Forall lowers (map clause_expr cs) ->
  forall fs y0 w,
    registered w cs fs ->
    exists y w', wrapLoop_with walk cs y0 w = Ok y w'.
Proof.
  induction cs as [|c cs IH]; intros Hcs fs y0 w Hreg; simpl.
  - eexists _, _. reflexivity.
  - simpl in Hcs. apply Forall_cons in Hcs as [Hc Hcs].
    assert (Hks : Forall walk_keeps (map clause_expr cs)).
    { apply Forall_forall. intros; apply walk_keeps_all. }
    destruct c as [id k v s|id c]; simpl in Hreg, Hc.
    + destruct fs as [|fn fs]; [tauto|]. destruct Hreg as (Ha & Hb & Hreg).
      destruct (IH Hcs _ y0 _ Hreg) as (y1 & w1 & H1).
      pose proof (keeps_wrapLoop cs Hks _ _ _ _ _ Hreg H1) as Hf.
      pose proof (lookup_weaken _ _ _ _ Ha (frame_astMap _ _ _ Hf)) as Ha1.
      pose proof (lookup_lt_Some _ _ _ Hb) as Hlt.
      pose proof (frame_length _ _ _ Hf) as Hlen.
      destruct (lookup_lt_is_Some_2 (lambdas w1) fn ltac:(lia)) as [x Hx].
      rewrite bind_run, H1.
      rewrite bind_run, (mapScope_run _ _ _ Ha1).
      rewrite bind_run, (modLambda_run _ _ _ _ Hx).
      cbv zeta.
      rewrite bind_run.
      erewrite modLambda_run by (simpl; apply list_lookup_insert_eq; lia).
      rewrite bind_run.
      erewrite modLambda_run
        by (simpl; apply list_lookup_insert_eq; rewrite ?length_insert; lia).
      rewrite bind_run.
      match goal with |- context [walk s ?w2] =>
        destruct (Hc w2) as (src & w3 & ->) end.
      eexists _, _. reflexivity.
    + destruct (IH Hcs _ y0 _ Hreg) as (y1 & w1 & H1).
      rewrite bind_run, H1, bind_run.
      destruct (Hc w1) as (c0 & w3 & ->).
      eexists _, _. reflexivity.
Qed.

Lemma wrapClauses_total cs y0 w :
  (forall id, id ∈ forIds cs -> astMap w !! id = None) ->
  NoDup (forIds cs) ->
  Forall lowers (map clause_expr cs) ->
  exists y w', wrapClauses y0 cs w = Ok y w'.
Proof.
  intros Hfresh Hnd Hcs.
  destruct (registerClauses_total cs w Hfresh Hnd) as (w1 & H1).
  destruct (registerClauses_spec _ _ _ _ H1) as (_ & fs & Hreg & _).
  destruct (wrapLoop_total cs Hcs fs y0 w1 Hreg) as (y & w' & H2).
  exists y, w'. unfold wrapClauses, wrapClauses_with.
  rewrite bind_run, H1. exact H2.
Qed.

Lemma wrapClauses_layers cs y0 w y w' :
  wrapClauses y0 cs w = Ok y w' ->
  exists w1 fs,
    registerClauses cs w = Ok tt w1
    /\ wrapLoop_with walk cs y0 w1 = Ok y w'
    /\ registered w1 cs fs
    /\ NoDup fs
    /\ (forall fn, fn ∈ fs -> (length (lambdas w) <= fn)%nat)
    /\ layers w' y0 cs fs y.
Proof.
  intros H. unfold wrapClauses, wrapClauses_with in H.
  apply bind_Ok in H as (u & w1 & H1 & H). destruct u.
  destruct (registerClauses_spec _ _ _ _ H1) as (_ & fs & Hreg & Hnd & Hfs).
  exists w1, fs. split; [exact H1|]. split; [exact H|].
  split; [exact Hreg|]. split; [exact Hnd|].
  split; [intros fn Hin; apply Hfs in Hin; lia|].
  eapply wrapLoop_layers; eauto.
Qed.

Lemma forIfClauses_lower f l a b i g x c ka kb kc :
  Forall lowers (map clause_expr (forIfClauses f l a b i g x c ka kb kc)).
Proof.
  repeat constructor; intros w; simpl.
  - unfold mbind, M_bind, bind, mret, M_ret, ret, getv, call, allocStruct.
    simpl. destruct (initLit _ _). eexists _, _. reflexivity.
  - unfold mbind, M_bind, bind, mret, M_ret, ret, mapScope.
    destruct (astMap w !! f); eexists _, _; reflexivity.
Qed.

(** *** Diagnostics and [insertFile] *)

Lemma errf_run n format args w :
  errf n format args w
  = Ok (VBottom (mkErr (newNode n) (ArgString format :: args)))
      (set_errors
         (errors w ++ [mkNodeError (appendPath (cur w) []) n format args]) w).
Proof. reflexivity. Qed.

Lemma walk_File_value id ds w r w' :
  walk (File id ds) w = Ok r w' -> r = VStructLit (object (cur w)).
Proof.
  simpl. intros H.
  apply bind_Ok in H as (v & w1 & Hv & H). injection Hv as <- <-.
  apply bind_Ok in H as (v1 & w2 & _ & H). injection H as <- _.
  reflexivity.
Qed.

Lemma insertFile_nil inst fid ds w r w' :
  insertFile inst fid ds w = Ok r w' -> r = None.
Proof.
  unfold insertFile. intros H.
  apply bind_Ok in H as (u1 & w1 & _ & H).
  apply bind_Ok in H as (u2 & w2 & _ & H).
  apply bind_Ok in H as (res & w3 & Hres & H).
  apply walk_File_value in Hres as ->. injection H as <- _. reflexivity.
Qed.

(** *** The claims about the lowering *)

(** C5 (the code departs from the claim): [hasDefaults] is set for an
    operand that is a unary expression of any operator. Lowering [1 | -2]
    marks no branch as default and still gives [hasDefaults = true]. *)
Theorem hasDefaults_without_default i a u b ka kb w :
  walk (BinaryExpr i OR (BasicLit a ka "1")
          (UnaryExpr u SUB (BasicLit b kb "2"))) w
  = Ok (VDisjunction
          (mkDisjunction (newExpr i)
             [mkDValue (litParser_parse a ka "1") false;
              mkDValue (VUnaryExpr (newExpr u) (tokenMap SUB)
                          (litParser_parse b kb "2")) false]
             true)) w.
Proof. reflexivity. Qed.

(** C7: [1 | *2 | 3] lowers to the branches [(1, false); (2, true);
    (3, false)]; in general the branches of [x | y] are the operands of the
    chain from left to right, each lowered without its [*] and marked
    exactly when it had one. *)
Theorem walk_disjunction_flattens :
  (forall i j a u b c ka kb kc w,
      walk (BinaryExpr i OR
              (BinaryExpr j OR (BasicLit a ka "1")
                 (UnaryExpr u MUL (BasicLit b kb "2")))
              (BasicLit c kc "3")) w
      = Ok (VDisjunction
              (mkDisjunction (newExpr i)
                 [mkDValue (litParser_parse a ka "1") false;
                  mkDValue (litParser_parse b kb "2") true;
                  mkDValue (litParser_parse c kc "3") false]
                 true)) w)
  /\ (forall id x y w,
        walk (BinaryExpr id OR x y) w
        = match lowerBranches false (operands x ++ operands y) w with
          | Ok vs w' =>
              Ok (VDisjunction
                    (mkDisjunction (newExpr id) vs
                       (existsb isUnaryExpr (operands x ++ operands y)))) w'
          | Panic r => Panic r
          end).
Proof.
  split; [reflexivity|].
  intros id x y w. rewrite walk_disjunction, bind_run.
  destruct (lowerBranches false (operands x ++ operands y) w); reflexivity.
Qed.

(** C9: [wrapClauses] first maps every [for] clause to a new, empty lambda
    and only then lowers sources and conditions; what it returns is the
    emitter wrapped in one layer per clause, the first clause outermost: a
    feed whose lambda has the key ([_] without one) and the value as
    parameters and the layers inside as body, or a guard around the layers
    inside. It returns whenever the [for] clauses are distinct, not yet in
    the scope map, and the sources and conditions lower. So [for x in [1,2]
    if x > 1] around a yield is a feed whose lambda holds a guard around
    that yield. *)
Theorem wrapClauses_desugars :
  (forall cs y0 w y w',
      wrapClauses y0 cs w = Ok y w' ->
      exists w1 fs,
        registerClauses cs w = Ok tt w1
        /\ wrapLoop_with walk cs y0 w1 = Ok y w'
        /\ registered w1 cs fs
        /\ NoDup fs
        /\ (forall fn, fn ∈ fs -> (length (lambdas w) <= fn)%nat)
        /\ layers w' y0 cs fs y)
  /\ (forall cs y0 w,
        (forall id, id ∈ forIds cs -> astMap w !! id = None) ->
        NoDup (forIds cs) ->
        Forall lowers (map clause_expr cs) ->
        exists y w', wrapClauses y0 cs w = Ok y w')
  /\ (forall f l a b i g x c ka kb kc y0 w,
        astMap w !! f = None ->
        exists src cond fn w',
          wrapClauses (VYield y0) (forIfClauses f l a b i g x c ka kb kc) w
          = Ok (VFeed (newExpr l) src fn) w'
          /\ lambdas w' !! fn
             = Some (forLambda None "x"
                       (ListLit l [BasicLit a ka "1"; BasicLit b kb "2"]
                          false None)
                       (VGuard (newExpr g) cond (VYield y0)))).
Proof.
  split; [|split].
  - apply wrapClauses_layers.
  - apply wrapClauses_total.
  - intros f l a b i g x c ka kb kc y0 w Hf.
    destruct (wrapClauses_total (forIfClauses f l a b i g x c ka kb kc)
                (VYield y0) w) as (y & w' & H).
    + simpl. intros id Hid. apply list_elem_of_singleton in Hid as ->.
      exact Hf.
    + simpl. apply NoDup_singleton.
    + apply forIfClauses_lower.
    + destruct (wrapClauses_layers _ _ _ _ _ H)
        as (w1 & fs & _ & _ & _ & _ & _ & Hlay).
      simpl in Hlay. destruct fs as [|fn fs]; [destruct Hlay|].
      destruct Hlay as (src & inner & -> & _ & _ & Hlam & c0 & inner' & ->
                        & _ & _ & ->).
      exists src, c0, fn, w'. split; [exact H|exact Hlam].
Qed.

(** *** The scope map and the path of a visitor *)

(** X9: [mapScope] is get-or-create and memoized: it returns the scope the
    map holds for the node, and for a node without one it makes one new,
    empty struct for that node, binds it, and changes nothing else; a second
    call returns the same scope and leaves the state alone. It never
    panics. *)
Theorem mapScope_memoized n w :
  exists m w1,
    mapScope n w = Ok m w1
    /\ astMap w1 !! n = Some m
    /\ mapScope n w1 = Ok m w1
    /\ (forall m0, astMap w !! n = Some m0 -> m = m0 /\ w1 = w)
    /\ (astMap w !! n = None ->
        m = ScopeStruct (length (structs w))
        /\ structs w1 = structs w ++ [newStruct (newNode n)]
        /\ astMap w1 = <[n := m]> (astMap w)
        /\ errors w1 = errors w /\ lambdas w1 = lambdas w
        /\ yields w1 = yields w /\ cur w1 = cur w).
Proof.
  unfold mapScope. destruct (astMap w !! n) as [m|] eqn:Hn.
  - exists m, w. rewrite Hn. repeat split; try congruence; try discriminate.
  - eexists _, _. split; [reflexivity|]. simpl.
    rewrite lookup_insert_eq. repeat split; intros; discriminate.
Qed.

(** X10: [setScope] is define-once: binding a node that is bound to another
    scope panics with "already defined"; binding a node without scope, or
    with that same scope, binds it and changes nothing else, after which
    [mapScope] returns that scope, binding it again is without effect and
    binding any other scope panics. *)
Theorem setScope_define_once n v w :
  (forall m, astMap w !! n = Some m -> m <> v ->
     setScope n v w = Panic "already defined")
  /\ (astMap w !! n = None \/ astMap w !! n = Some v ->
      let w1 := set_astMap (<[n := v]> (astMap w)) w in
      setScope n v w = Ok tt w1
      /\ mapScope n w1 = Ok v w1
      /\ setScope n v w1 = Ok tt w1
      /\ forall v', v' <> v -> setScope n v' w1 = Panic "already defined").
Proof.
  unfold setScope, mapScope. split.
  - intros m -> Hm. rewrite bool_decide_eq_true_2 by exact Hm. reflexivity.
  - intros Hn. simpl. rewrite !lookup_insert_eq.
    rewrite insert_insert_eq.
    rewrite (bool_decide_eq_false_2 (v <> v)) by tauto.
    split; [|split; [reflexivity|split; [reflexivity|]]].
    + destruct Hn as [-> | ->]; [reflexivity|].
      rewrite (bool_decide_eq_false_2 (v <> v)) by tauto. reflexivity.
    + intros v' Hv.
      rewrite bool_decide_eq_true_2 by congruence. reflexivity.
Qed.

(** X11: the path [appendPath] builds is the argument followed by the
    non-empty selectors of the visitors from the root down to the receiver;
    in particular it only ever appends, and a visitor without selector adds
    no component. *)
Theorem appendPath_lineage (v : astVisitor) (a : list string) :
  appendPath v a = a ++ selectors (lineage v).
Proof.
  revert v a. fix F 1. intros [o [p|] s d i] a; simpl.
  - rewrite (F p a). unfold selectors. rewrite map_app, List.filter_app.
    simpl. destruct (String.eqb s EmptyString); simpl.
    + rewrite app_nil_r. reflexivity.
    + rewrite app_assoc. reflexivity.
  - unfold selectors. simpl. destruct (String.eqb s EmptyString); simpl.
    + rewrite app_nil_r. reflexivity.
    + reflexivity.
Qed.

(** *** The receiver and the stores across a walk *)

Lemma steady_refl w : steady w w.
Proof. split; auto. Qed.

Lemma steady_trans w1 w2 w3 : steady w1 w2 -> steady w2 w3 -> steady w1 w3.
Proof. intros [] []. split; try congruence; lia. Qed.

Lemma stays_ret {A : Type} (a : A) : stays (mret a).
Proof. intros w a' w' [= <- <-]. apply steady_refl. Qed.

Lemma stays_panic {A : Type} r : stays (panic r : M A).
Proof. intros w a w' [=]. Qed.

Lemma stays_bind {A B : Type} (m : M A) (f : A -> M B) :
  stays m -> (forall a, stays (f a)) -> stays (m ≫= f).
Proof.
  intros Hm Hf w b w' H. apply bind_Ok in H as (a & w1 & H1 & H2).
  eapply steady_trans; [eapply Hm|eapply Hf]; eauto.
Qed.

Lemma stays_call {A : Type} v1 (m : M A) : stays m -> stays (call v1 m).
Proof.
  intros Hm w a w' H. unfold call in H.
  destruct (m (set_cur v1 w)) as [x w1|] eqn:Hx; [|discriminate].
  injection H as <- <-. apply Hm in Hx. destruct Hx. split; auto.
Qed.

Lemma stays_getv : stays getv.
Proof. intros w a w' [= <- <-]. apply steady_refl. Qed.

Lemma stays_get : stays get.
Proof. intros w a w' [= <- <-]. apply steady_refl. Qed.

Lemma stays_modv f :
  (forall v, object (f v) = object v /\ parent (f v) = parent v
             /\ inSelector (f v) = inSelector v) ->
  stays (modv f).
Proof.
  intros Hf w a w' [= <- <-]. destruct (Hf (cur w)) as (? & ? & ?).
  split; simpl; auto.
Qed.

Lemma stays_get_store {A : Type} (store : world -> list A) l :
  stays (fun w => match store w !! l with
                  | Some s => Ok s w
                  | None => Panic nilDeref
                  end).
Proof.
  intros w a w' H. simpl in H.
  destruct (store w !! l); [|discriminate]. injection H as <- <-.
  apply steady_refl.
Qed.

Lemma stays_modStruct l f : stays (modStruct l f).
Proof.
  apply stays_bind; [apply (stays_get_store structs)|].
  intros s w a w' [= <- <-]. split; simpl; auto.
  rewrite length_insert. lia.
Qed.

Lemma stays_allocStruct s : stays (allocStruct s).
Proof.
  intros w a w' [= <- <-]. split; simpl; auto. rewrite length_app. lia.
Qed.

Lemma stays_modYield l f : stays (modYield l f).
Proof.
  apply stays_bind; [apply (stays_get_store yields)|].
  intros s w a w' [= <- <-]. split; simpl; auto.
  rewrite length_insert. lia.
Qed.

Lemma stays_allocYield s : stays (allocYield s).
Proof.
  intros w a w' [= <- <-]. split; simpl; auto. rewrite length_app. lia.
Qed.

Lemma stays_modLambda l f : stays (modLambda l f).
Proof.
  apply stays_bind; [apply (stays_get_store lambdas)|].
  intros s w a w' [= <- <-]. split; simpl; auto.
Qed.

Lemma stays_allocLambda s : stays (allocLambda s).
Proof. intros w a w' [= <- <-]. split; simpl; auto. Qed.

Lemma stays_mapScope n : stays (mapScope n).
Proof.
  intros w a w' H. unfold mapScope in H.
  destruct (astMap w !! n); injection H as <- <-.
  - apply steady_refl.
  - split; simpl; auto. rewrite length_app. lia.
Qed.

Lemma stays_setScope n v : stays (setScope n v).
Proof.
  intros w a w' H. unfold setScope in H.
  destruct (astMap w !! n); [case_bool_decide; [discriminate|]|];
    injection H as <- <-; split; simpl; auto.
Qed.

Lemma stays_errf n f args : stays (errf n f args).
Proof.
  apply stays_bind; [apply stays_getv|]. intros v.
  apply stays_bind; [|intros; apply stays_ret].
  intros w a w' [= <- <-]. split; simpl; auto.
Qed.

Lemma stays_resolve id name : stays (resolve id name).
Proof.
  apply stays_bind; [apply stays_getv|]. intros v.
  apply stays_bind; [apply stays_get|]. intros w0.
  destruct (resolveRoot w0); [|apply stays_ret].
  apply stays_bind; [apply (stays_get_store structs)|]. intros s.
  destruct (existsb _ _); [apply stays_ret|].
  destruct (inSelector v >? 0); [|apply stays_ret].
  destruct (getBuiltinShorthandPkg name); apply stays_ret.
Qed.

Lemma stays_walkImportSpec id p : stays (walkImportSpec id p).
Proof.
  apply stays_bind.
  - unfold loadImport. destruct (Unquote p); [|apply stays_errf].
    destruct (getBuiltinPkg _); [apply stays_ret|].
    destruct (LookupImport _); [apply stays_ret|apply stays_errf].
  - intros val. destruct (negb (isBottom val)); [|apply stays_ret].
    destruct val; try apply stays_panic.
    apply stays_bind; [apply stays_setScope|]. intros; apply stays_ret.
Qed.

(** One step of a proof that a computation is steady, by its shape. *)
Ltac stays_step :=
  lazymatch goal with
  | |- stays (mret _) => apply stays_ret
  | |- stays (ret _) => apply stays_ret
  | |- stays (panic _) => apply stays_panic
  | |- stays (_ ≫= _) => apply stays_bind; [|intros ?]
  | |- stays (bind _ _) => apply stays_bind; [|intros ?]
  | |- stays (call _ _) => apply stays_call
  | |- stays getv => apply stays_getv
  | |- stays get => apply stays_get
  | |- stays (modv _) =>
      apply stays_modv; intros []; repeat split; reflexivity
  | |- stays (getStruct _) => apply (stays_get_store structs)
  | |- stays (modStruct _ _) => apply stays_modStruct
  | |- stays (allocStruct _) => apply stays_allocStruct
  | |- stays (getYield _) => apply (stays_get_store yields)
  | |- stays (modYield _ _) => apply stays_modYield
  | |- stays (allocYield _) => apply stays_allocYield
  | |- stays (getLambda _) => apply (stays_get_store lambdas)
  | |- stays (allocLambda _) => apply stays_allocLambda
  | |- stays (modLambda _ _) => apply stays_modLambda
  | |- stays (addDisjunctionElem_with walk _ _ _) => solve [auto]
  | |- stays (mapScope _) => apply stays_mapScope
  | |- stays (setScope _ _) => apply stays_setScope
  | |- stays (errf _ _ _) => apply stays_errf
  | |- stays (resolve _ _) => apply stays_resolve
  | |- stays (walkImportSpec _ _) => apply stays_walkImportSpec
  | |- stays (nilOr _) => unfold nilOr
  | |- stays (match ?x with _ => _ end) => destruct x
  | |- stays (walk _) => assumption
  end.

Ltac stays_tac := repeat stays_step.

Ltac use_below_stays :=
  repeat match goal with
    | H : below_stays _ |- _ => destruct H as [? ?]
    | H : Forall _ (children _) |- _ => progress simpl in H
    | H : Forall _ (_ :: _) |- _ => apply Forall_cons in H as [? ?]
    | H : Forall _ (_ ++ _) |- _ => apply Forall_app in H as [? ?]
    | H : Forall _ (option_list (Some _)) |- _ => progress simpl in H
    | H : Forall _ [] |- _ => clear H
    | H : walk_stays _ |- _ => destruct H as [? ?]
    end.

Lemma stays_walkDecls ds :
  Forall below_stays ds -> forall v1, stays (walkDecls_with walk ds v1).
Proof.
  induction 1 as [|e ds He Hds IH]; intros v1; simpl.
  - stays_tac.
  - destruct e; use_below_stays; stays_tac; apply IH.
Qed.

Lemma stays_walkElts es :
  Forall below_stays es -> forall v1, stays (walkElts_with walk es v1).
Proof.
  induction 1 as [|e es He Hes IH]; intros v1; simpl.
  - stays_tac.
  - destruct e; use_below_stays; stays_tac; apply IH.
Qed.

Lemma stays_walkListElts es :
  Forall below_stays es ->
  forall i arcs v1, stays (walkListElts_with walk es i arcs v1).
Proof.
  induction 1 as [|e es He Hes IH]; intros i arcs v1; simpl.
  - stays_tac.
  - use_below_stays; stays_tac; apply IH.
Qed.

Lemma stays_walkArgs es :
  Forall below_stays es -> forall args, stays (walkArgs_with walk es args).
Proof.
  induction 1 as [|e es He Hes IH]; intros args; simpl.
  - stays_tac.
  - use_below_stays; stays_tac; apply IH.
Qed.

Lemma stays_walkParts id info es :
  Forall below_stays es ->
  forall prefix prefixLen parts,
    stays (walkParts_with walk id info es prefix prefixLen parts).
Proof.
  remember (length es) as k eqn:Hk. revert es Hk.
  induction k as [k IH] using lt_wf_ind. intros es -> Hes p pl parts.
  destruct es as [|e es]; simpl; [stays_tac|].
  apply Forall_cons in Hes as [He Hes].
  destruct e; try apply stays_errf.
  destruct (negb _); [apply stays_errf|].
  destruct (_ <? _)%nat; [apply stays_panic|].
  destruct es as [|e1 es]; [stays_tac|].
  apply Forall_cons in Hes as [He1 Hes]. use_below_stays. stays_tac.
  eapply IH; [|reflexivity|exact Hes]. simpl. lia.
Qed.

Lemma stays_registerClauses cs : stays (registerClauses cs).
Proof.
  induction cs as [|[id k v s|id c] cs IH]; simpl; stays_tac; exact IH.
Qed.

Lemma stays_wrapLoop cs :
  Forall walk_stays (map clause_expr cs) ->
  forall y, stays (wrapLoop_with walk cs y).
Proof.
  induction cs as [|c cs IH]; intros Hcs y; simpl.
  - stays_tac.
  - simpl in Hcs. apply Forall_cons in Hcs as [[Hc _] Hcs].
    apply stays_bind; [apply IH, Hcs|]. intros y1.
    destruct c as [id k v s|id c]; simpl in Hc; stays_tac.
Qed.

Lemma stays_wrapClauses cs y :
  Forall walk_stays (map clause_expr cs) ->
  stays (wrapClauses_with walk y cs).
Proof.
  intros Hcs. apply stays_bind; [apply stays_registerClauses|].
  intros _. apply stays_wrapLoop, Hcs.
Qed.

Lemma stays_importSpecs (ss : list (NodeId * string)) :
  stays ((fix loop (ss : list (NodeId * string)) : M unit :=
            match ss with
            | [] => mret tt
            | (id, p) :: ss => _ ← walkImportSpec id p; loop ss
            end) ss).
Proof.
  induction ss as [|[id p] ss IH]; [apply stays_ret|].
  apply stays_bind; [apply stays_walkImportSpec|]. intros _. exact IH.
Qed.

Ltac stays_walk :=
  repeat first
    [ stays_step
    | apply stays_walkDecls; assumption
    | apply stays_walkElts; assumption
    | apply stays_walkListElts; assumption
    | apply stays_walkArgs; assumption
    | apply stays_walkParts; assumption
    | apply stays_wrapClauses; assumption
    | apply stays_importSpecs ].

Lemma stays_interpolation id Elts :
  Forall below_stays Elts -> stays (walk (Interpolation id Elts)).
Proof.
  intros HE. simpl.
  destruct Elts as [|e0 es]; [apply stays_errf|].
  destruct e0; try apply stays_errf.
  destruct (last _) as [[]|]; try apply stays_errf.
  destruct es as [|e1 es].
  - apply Forall_cons in HE as [[[He _] _] _]. exact He.
  - destruct (ParseQuotes _ _) as [[info pl]|err]; [|apply stays_errf].
    apply stays_walkParts, HE.
Qed.

(** The selector case raises [inSelector] around the walk of its operand
    and lowers it again after. *)
Lemma stays_selector id X SelName :
  stays (walk X) -> stays (walk (SelectorExpr id X SelName)).
Proof.
  intros HX w a w' H. simpl in H.
  apply bind_Ok in H as (? & w1 & H1 & H). injection H1 as <-.
  apply bind_Ok in H as (x & w2 & H2 & H). apply HX in H2.
  apply bind_Ok in H as (? & w3 & H3 & H). injection H3 as <-.
  injection H as _ <-. destruct H2 as [Ho Hp Hi Hr Hs Hy].
  destruct (cur w) as [o p s d i] eqn:Hw, (cur w2) as [o2 p2 s2 d2 i2].
  simpl in *. subst w1 w3. simpl in *.
  split; simpl; rewrite ?Hw; simpl; try congruence; lia.
Qed.

Lemma walk_stays_all (n : node) : walk_stays n.
Proof.
  induction n as [n IH] using node_ind_deep.
  pose proof (Forall_impl _ _ _ IH (fun c Hc => proj1 Hc)) as IH1.
  fold below_stays in IH.
  assert (Hw : stays (walk n)).
  { destruct n; simpl in IH, IH1.
    all: try (apply stays_interpolation; assumption).
    all: try (apply stays_selector; use_below_stays; assumption).
    all: repeat match goal with
           | f : field |- _ => destruct f
           | o : option node |- _ => destruct o
           | i : identNode |- _ => destruct i
           | t : token |- _ => destruct t
           end.
    all: simpl in IH, IH1 |- *; use_below_stays.
    all: stays_walk. }
  split; [exact Hw|].
  intros d mark.
  destruct n; try (cbn -[walk]; stays_walk; fail);
    simpl in IH1; use_below_stays.
  - destruct Op; cbn -[walk]; stays_walk.
  - destruct Op; cbn -[walk]; stays_walk.
Qed.

(** *** What a walk leaves alone *)

(** X12: a walk that returns has rebound no node of the scope map and has
    changed no lambda that was allocated before it: the scopes handed out
    for forward references stay the ones they were. *)
Theorem walk_never_rebinds n w r w' :
  walk n w = Ok r w' ->
  (forall k m, astMap w !! k = Some m -> astMap w' !! k = Some m)
  /\ (forall l f, lambdas w !! l = Some f -> lambdas w' !! l = Some f).
Proof.
  intros H. destruct (walk_frame n _ _ _ H) as [Hl Hn Hm He]. split.
  - intros k m Hk. eapply lookup_weaken; eauto.
  - intros l f Hf. rewrite Hl; [exact Hf| |intros []].
    eapply lookup_lt_Some, Hf.
Qed.

(** X13: when a walk returns, its receiver fills the same struct, has the
    same parent and counts the same number of enclosing selectors as
    before (the selector case lowers the count it raised), the root of
    resolution is the same, and every struct and yield allocated before is
    still allocated. *)
Theorem walk_restores_receiver n w r w' :
  walk n w = Ok r w' ->
  object (cur w') = object (cur w)
  /\ parent (cur w') = parent (cur w)
  /\ inSelector (cur w') = inSelector (cur w)
  /\ resolveRoot w' = resolveRoot w
  /\ (length (structs w) <= length (structs w'))%nat
  /\ (length (yields w) <= length (yields w'))%nat.
Proof.
  intros H. destruct (proj1 (walk_stays_all n) _ _ _ H). auto 10.
Qed.

(** *** Identifiers *)

(** X14: an identifier without binding is looked up in the root of
    resolution before the predeclared names: when that struct has a field
    of the name, the identifier lowers to a selector into it, also for
    names such as [int], [len] or [_]; the state is not changed. *)
Theorem root_scope_shadows_predeclared id name sc w r s :
  resolveRoot w = Some r -> structs w !! r = Some s ->
  strLabel name true ∈ map arc_feature (arcs s) ->
  walk (Ident id name NodeNil sc) w
  = Ok (VSelectorExpr (newExpr id) (VNodeRef (newExpr id) (ScopeStruct r))
          (strLabel name true)) w.
Proof.
  intros Hr Hs Hin.
  assert (Hex : existsb (fun a => bool_decide (arc_feature a = strLabel name true))
                  (arcs s) = true).
  { apply list_elem_of_fmap in Hin as (a & Ha & Hin).
    apply existsb_exists. exists a. split.
    - apply list_elem_of_In, Hin.
    - apply bool_decide_eq_true_2. symmetry. exact Ha. }
  simpl. unfold resolve.
  rewrite !bind_run. unfold getv, get. rewrite !bind_run. rewrite Hr.
  rewrite bind_run. unfold getStruct. rewrite Hs. rewrite Hex.
  reflexivity.
Qed.

(** *** Struct literals *)

Lemma mapScope_Ok n w m w1 :
  mapScope n w = Ok m w1 ->
  astMap w1 !! n = Some m /\ errors w1 = errors w.
Proof.
  unfold mapScope. destruct (astMap w !! n) eqn:Hn; intros [= <- <-].
  - auto.
  - simpl. rewrite lookup_insert_eq. auto.
Qed.

Lemma call_walk_frame e v1 w x w1 :
  call v1 (walk e) w = Ok x w1 -> frame none w w1.
Proof. apply keeps_call, walk_frame. Qed.

(** The loop over the elements of a struct literal stops at the first
    emit, with a bottom and one more diagnostic; without an emit it runs to
    the end. *)
Lemma walkElts_result es : forall v1 w ro v1' w',
  walkElts_with walk es v1 w = Ok (ro, v1') w' ->
  frame none w w'
  /\ if existsb isEmitDecl es
     then (exists b, ro = Some (VBottom b))
          /\ (length (errors w) < length (errors w'))%nat
     else ro = None.
Proof.
  induction es as [|e es IH]; intros v1 w ro v1' w' H; simpl in H.
  { injection H as <- <- <-. split; [apply frame_refl|reflexivity]. }
  assert (Hstep : forall x w1,
             call v1 (walk e) w = Ok x w1 ->
             walkElts_with walk es (snd x) w1 = Ok (ro, v1') w' ->
             isEmitDecl e = false ->
             frame none w w'
             /\ if existsb isEmitDecl (e :: es)
                then (exists b, ro = Some (VBottom b))
                     /\ (length (errors w) < length (errors w'))%nat
                else ro = None).
  { intros x w1 H1 H2 He. simpl. rewrite He. simpl.
    apply call_walk_frame in H1. apply IH in H2 as [Hf H2].
    split; [eapply frame_trans; eauto|].
    destruct (existsb isEmitDecl es); [|exact H2].
    destruct H2 as [Hb Hlt]. split; [exact Hb|].
    pose proof (prefix_length _ _ (frame_errors _ _ _ H1)). lia. }
  destruct e;
    try (apply IH in H; simpl; exact H);
    try (apply bind_Ok in H as ([x v2] & w1 & H1 & H);
         eapply (Hstep (x, v2)); [exact H1|exact H|reflexivity]).
  clear Hstep. apply bind_Ok in H as ([x v2] & w1 & H1 & H).
  injection H as <- <- <-. unfold call in H1. rewrite errf_run in H1.
  injection H1 as <- <- <-. simpl. split.
  - split; simpl; auto. apply prefix_app_r. reflexivity.
  - split; [eauto|]. rewrite length_app. simpl. lia.
Qed.

(** X15: a struct literal with an emit among its elements lowers to a
    bottom and records a diagnostic, whatever else it holds; without one it
    always lowers to the struct that the scope map holds for the literal,
    also when the lowering of a field failed. *)
Theorem walk_StructLit_result id lb es w r w' :
  walk (StructLit id lb es) w = Ok r w' ->
  if existsb isEmitDecl es
  then isBottom r = true /\ (length (errors w) < length (errors w'))%nat
  else exists obj,
         r = VStructLit obj /\ astMap w' !! id = Some (ScopeStruct obj).
Proof.
  intros H. simpl in H.
  apply bind_Ok in H as (m & w1 & Hm & H).
  apply mapScope_Ok in Hm as [Hid Herr].
  destruct m as [obj|fn]; [|discriminate].
  apply bind_Ok in H as (v & w2 & Hv & H). injection Hv as <- <-.
  apply bind_Ok in H as ([ro v1'] & w3 & Hloop & H).
  apply walkElts_result in Hloop as [Hf Hro].
  destruct (existsb isEmitDecl es).
  - destruct Hro as [[b ->] Hlt]. injection H as <- <-.
    split; [reflexivity|]. rewrite <- Herr. exact Hlt.
  - subst ro. apply bind_Ok in H as (? & w4 & H4 & H).
    injection H as <- <-. exists obj. split; [reflexivity|].
    assert (Hmap : astMap w4 = astMap w3).
    { destruct (_ && _); injection H4 as H4; subst w4; reflexivity. }
    rewrite Hmap. eapply lookup_weaken; [exact Hid|apply Hf].
Qed.

(** *** Imports *)

Lemma set_errors_set_errors e1 e2 (w : world) :
  set_errors e2 (set_errors e1 w) = set_errors e2 w.
Proof. reflexivity. Qed.

Lemma walkImportSpec_fails id p w :
  importFails p ->
  walkImportSpec id p w
  = Ok VNil (set_errors (errors w ++ [importError (cur w) (id, p)]) w).
Proof.
  intros Hp. unfold walkImportSpec, loadImport, importError. simpl.
  rewrite bind_run.
  destruct Hp as [Hu|(path & Hu & Hb & Hl)]; rewrite Hu.
  - rewrite errf_run. reflexivity.
  - rewrite Hb, Hl, errf_run. reflexivity.
Qed.

(** X16: an import declaration all of whose imports cannot be loaded (the
    path is ill-formed or names no package) lowers to nil and records one
    diagnostic for each import, in order; no import stops the loop, and
    neither the bottoms that [loadImport] makes nor anything else reaches
    the result or the scope map. *)
Theorem walk_ImportDecl_failures i specs w :
  Forall (fun spec => importFails (snd spec)) specs ->
  walk (ImportDecl i specs) w
  = Ok VNil (set_errors (errors w ++ map (importError (cur w)) specs) w).
Proof.
  intros Hs. simpl. rewrite bind_run.
  assert (Hloop : forall w,
    (fix loop (ss : list (NodeId * string)) : M unit :=
       match ss with
       | [] => mret tt
       | (id, p) :: ss => _ ← walkImportSpec id p; loop ss
       end) specs w
    = Ok tt (set_errors (errors w ++ map (importError (cur w)) specs) w)).
  { clear w. induction Hs as [|[id p] specs Hp _ IH]; intros w.
    - simpl. rewrite app_nil_r. destruct w; reflexivity.
    - rewrite bind_run. rewrite (walkImportSpec_fails id p w Hp).
      rewrite IH. simpl. rewrite <- app_assoc. reflexivity. }
  rewrite Hloop. reflexivity.
Qed.

(** X17: an import of a builtin package binds the import to the struct of
    the package, without consulting the imports of the instance, and lowers
    to nil; an identifier bound to that import then lowers to a reference
    to the struct of the package. *)
Theorem walk_ImportSpec_builtin id p path pkg i name w :
  Unquote p = Some path -> getBuiltinPkg path = Some pkg ->
  astMap w !! id = None ->
  let w1 := set_astMap (<[id := ScopeStruct pkg]> (astMap w)) w in
  walk (ImportSpec id p) w = Ok VNil w1
  /\ walk (Ident i name (NodeOther id) None) w1
     = Ok (VNodeRef (newExpr i) (ScopeStruct pkg)) w1.
Proof.
  intros Hu Hb Hid. simpl. split.
  - unfold walkImportSpec, loadImport. rewrite Hu, Hb.
    rewrite bind_run, ret_run. simpl. rewrite bind_run.
    unfold setScope. rewrite Hid. reflexivity.
  - rewrite bind_run. unfold mapScope. simpl. rewrite lookup_insert_eq.
    reflexivity.
Qed.

(** *** List literals *)

Lemma walkListElts_labels es : forall i arcs0 v1 w arcs1 v1' w',
  walkListElts_with walk es i arcs0 v1 w = Ok (arcs1, v1') w' ->
  map arc_feature arcs1
  = map arc_feature arcs0 ++ map indexLabel (seq i (length es))
  /\ steady w w'.
Proof.
  induction es as [|e es IH]; intros i arcs0 v1 w arcs1 v1' w' H;
    simpl in H.
  { injection H as <- <- <-. simpl. rewrite app_nil_r.
    split; [reflexivity|apply steady_refl]. }
  apply bind_Ok in H as ([x v2] & w1 & H1 & H).
  apply (stays_call _ _ (proj1 (walk_stays_all e))) in H1.
  apply IH in H as [Hl Hs]. split; [|eapply steady_trans; eauto].
  rewrite Hl, map_app. simpl. rewrite <- app_assoc. reflexivity.
Qed.

(** X18: a list literal lowers to a list over a struct allocated by the
    walk and still allocated at the end; for a literal without element type
    that struct has one arc for each element, labelled with the indices
    0, 1, ... in the order of the source, and the literal as its source. *)
Theorem walk_ListLit_arcs id es ell ty w r w' :
  walk (ListLit id es ell ty) w = Ok r w' ->
  exists s typ len,
    r = VList (newExpr id) s typ len
    /\ (length (structs w) <= s < length (structs w'))%nat
    /\ (ty = None ->
        exists st,
          structs w' !! s = Some st
          /\ struct_base st = newExpr id
          /\ map arc_feature (arcs st)
             = map indexLabel (seq 0 (length es))).
Proof.
  intros H. simpl in H.
  apply bind_Ok in H as (v & w0 & Hv & H). injection Hv as <- <-.
  apply bind_Ok in H as ([arcs1 v1] & w1 & Hloop & H).
  apply walkListElts_labels in Hloop as [Hl [_ _ _ _ Hlen _]].
  apply bind_Ok in H as (s & w2 & Hs & H). injection Hs as <- <-.
  simpl in Hl.
  set (st := mkStructLit (newExpr id) arcs1 VNil VNil []) in *.
  set (w2 := set_structs (structs w1 ++ [st]) w1) in *.
  assert (Hst : structs w2 !! length (structs w1) = Some st).
  { simpl. apply list_lookup_middle. reflexivity. }
  assert (Hdone : forall typ len,
             exists s typ0 len0,
               VList (newExpr id) (length (structs w1)) typ len
               = VList (newExpr id) s typ0 len0
               /\ (length (structs w) <= s < length (structs w2))%nat
               /\ (ty = None ->
                   exists st0,
                     structs w2 !! s = Some st0
                     /\ struct_base st0 = newExpr id
                     /\ map arc_feature (arcs st0)
                        = map indexLabel (seq 0 (length es)))).
  { intros typ len. eexists _, _, _. split; [reflexivity|]. split.
    - simpl. rewrite length_app. simpl. lia.
    - intros _. exists st. split; [exact Hst|]. split; [reflexivity|].
      exact Hl. }
  destruct (initLit (newExpr id) arcs1) as [typ len].
  destruct ell, ty as [t|]; simpl in H;
    try (injection H as <- <-; apply Hdone).
  all: apply bind_Ok in H as ([typ' ?] & w3 & Hty & H);
    injection H as <- <-;
    apply (stays_call _ _ (proj1 (walk_stays_all t))) in Hty;
    destruct Hty as [_ _ _ _ Hlen3 _];
    eexists _, _, _; (split; [reflexivity|]); split;
    [ apply lookup_lt_Some in Hst; simpl in *; lia | discriminate ].
Qed.

(** *** Files *)

(** X20: [insertFile] starts from a scope map in which only the file is
    bound, to the root struct of the instance. When it returns, the file is
    still bound to that struct, the visitor is the root visitor of that
    struct, resolution goes through the scope of the instance, and what
    earlier files allocated is still there, the lambdas unchanged. *)
Theorem insertFile_binds_file inst fid ds w r w' :
  insertFile inst fid ds w = Ok r w' ->
  astMap w' !! fid = Some (ScopeStruct (rootStruct inst))
  /\ object (cur w') = rootStruct inst
  /\ parent (cur w') = None
  /\ resolveRoot w' = inst_scope inst
  /\ (length (structs w) <= length (structs w'))%nat
  /\ (forall l f, lambdas w !! l = Some f -> lambdas w' !! l = Some f).
Proof.
  unfold insertFile. intros H.
  apply bind_Ok in H as (u1 & w1 & H1 & H). injection H1 as _ <-.
  apply bind_Ok in H as (u2 & w2 & H2 & H). injection H2 as _ <-.
  apply bind_Ok in H as (res & w3 & Hres & H).
  pose proof (walk_File_value _ _ _ _ _ Hres) as ->.
  injection H as _ <-.
  destruct (walk_frame _ _ _ _ Hres) as [Hl _ Hm _].
  destruct (proj1 (walk_stays_all _) _ _ _ Hres) as [Ho Hp _ Hr Hs _].
  simpl in *. split; [|auto 10].
  - eapply lookup_weaken; [|exact Hm]. apply lookup_insert_eq.
  - repeat split; auto. intros l f Hf. rewrite Hl; [exact Hf| |intros []].
    eapply lookup_lt_Some, Hf.
Qed.

(** *** Forward references *)

(** X21: a reference to a struct literal that is lowered before the
    literal itself gets the struct that [mapScope] makes for the literal;
    whatever is lowered in between, the literal is later lowered into that
    same struct, so the reference made first points at it. *)
Theorem forward_reference_resolves i name t n lb es w r1 w1 r2 w2 r3 w3 :
  walk (Ident i name (NodeOther t) None) w = Ok r1 w1 ->
  walk n w1 = Ok r2 w2 ->
  walk (StructLit t lb es) w2 = Ok r3 w3 ->
  existsb isEmitDecl es = false ->
  exists l,
    r1 = VNodeRef (newExpr i) (ScopeStruct l)
    /\ r3 = VStructLit l
    /\ astMap w3 !! t = Some (ScopeStruct l).
Proof.
  intros H1 H2 H3 Hes. simpl in H1.
  apply bind_Ok in H1 as (m & w1' & Hm & H1). injection H1 as <- <-.
  apply mapScope_Ok in Hm as [Hm _].
  pose proof (frame_astMap _ _ _ (walk_frame _ _ _ _ H2)) as H12.
  pose proof (frame_astMap _ _ _ (walk_frame _ _ _ _ H3)) as H23.
  pose proof (lookup_weaken _ _ _ _ (lookup_weaken _ _ _ _ Hm H12) H23) as Ht.
  simpl in H3.
  apply bind_Ok in H3 as (m3 & w2' & Hm3 & H3).
  apply mapScope_Ok in Hm3 as [Hid _].
  destruct m3 as [obj|fn]; [|discriminate].
  apply bind_Ok in H3 as (v & w2'' & Hv & H3). injection Hv as <- <-.
  apply bind_Ok in H3 as ([ro v1'] & w4 & Hloop & H3).
  apply walkElts_result in Hloop as [Hf Hro]. rewrite Hes in Hro. subst ro.
  apply bind_Ok in H3 as (? & w5 & H5 & H3). injection H3 as <- <-.
  assert (Hmap : astMap w5 = astMap w4).
  { destruct (_ && _); injection H5 as H5; subst w5; reflexivity. }
  pose proof (lookup_weaken _ _ _ _ Hid (frame_astMap _ _ _ Hf)) as Hid4.
  rewrite <- Hmap in Hid4. rewrite Hid4 in Ht. injection Ht as <-.
  exists obj. auto.
Qed.

(** *** Shorthand packages *)

(** X22: for a name that is the shorthand of a builtin package and that
    the root of resolution does not define, [resolve] returns the package
    exactly when the count [inSelector] of the visitor is positive, and nil
    when it is not. The selector case raises the count around the walk of
    its whole operand and lowers it after: the name resolves to the
    package as the operand of a selector, [name.sel], and as well deeper
    inside the operand, as in [name[name].sel]; the state, the count
    included, is as it was when these walks return. The count is taken between 0 and the largest [int] of a
    32-bit platform, so that raising it does not wrap. *)
Theorem shorthand_package_in_selector id j i i2 name sc sc2 selName p r s w :
  getBuiltinShorthandPkg name = Some p ->
  resolveRoot w = Some r -> structs w !! r = Some s ->
  strLabel name true ∉ map arc_feature (arcs s) ->
  0 <= inSelector (cur w) < 2147483647 ->
  resolve i name w
  = Ok (if inSelector (cur w) >? 0
        then VNodeRef (newExpr i) (ScopeStruct p)
        else VNil) w
  /\ (forall X,
        walk (SelectorExpr id X selName) w
        = match
            walk X (set_cur (set_inSelector (inSelector (cur w) + 1) (cur w)) w)
          with
          | Ok x w2 =>
              Ok (VSelectorExpr (newExpr id) x (strLabel selName true))
                (set_cur (set_inSelector (inSelector (cur w2) - 1) (cur w2))
                   w2)
          | Panic reason => Panic reason
          end)
  /\ walk (SelectorExpr id (Ident i name NodeNil sc) selName) w
     = Ok (VSelectorExpr (newExpr id)
             (VNodeRef (newExpr i) (ScopeStruct p))
             (strLabel selName true)) w
  /\ walk (SelectorExpr id
             (IndexExpr j (Ident i name NodeNil sc)
                (Ident i2 name NodeNil sc2))
             selName) w
     = Ok (VSelectorExpr (newExpr id)
             (VIndexExpr (newExpr j)
                (VNodeRef (newExpr i) (ScopeStruct p))
                (VNodeRef (newExpr i2) (ScopeStruct p)))
             (strLabel selName true)) w.
Proof.
  intros Hp Hr Hs Hin Hsel.
  assert (Hex : existsb (fun a => bool_decide (arc_feature a = strLabel name true))
                  (arcs s) = false).
  { destruct (existsb _ _) eqn:Hex; [|reflexivity]. destruct Hin.
    apply existsb_exists in Hex as (a & Ha & Hf).
    apply bool_decide_eq_true_1 in Hf. rewrite <- Hf.
    apply list_elem_of_fmap. exists a. split; [reflexivity|].
    apply list_elem_of_In, Ha. }
  destruct w as [[o pa se d n] rr am er st la yi].
  simpl in Hr, Hs, Hsel. subst rr.
  assert (Hgt : (n + 1 >? 0) = true) by (apply Z.gtb_lt; lia).
  split; [|split; [|split]].
  - unfold resolve, getv, get, getStruct, mbind, M_bind, bind, mret, M_ret,
      ret.
    destruct n as [|pn|pn]; [| |lia]; simpl; rewrite Hs, Hex;
      [|rewrite Hp]; reflexivity.
  - intros X. simpl.
    unfold modv, modify, mbind, M_bind, bind, mret, M_ret, ret. simpl.
    destruct (walk X _); reflexivity.
  - simpl.
    unfold resolve, modv, modify, getv, get, getStruct, mbind, M_bind, bind,
      mret, M_ret, ret.
    simpl. rewrite Hs, Hex, Hgt, Hp.
    unfold set_cur, set_inSelector. simpl.
    replace (n + 1 - 1) with n by lia. reflexivity.
  - simpl.
    unfold resolve, modv, modify, getv, get, getStruct, mbind, M_bind, bind,
      mret, M_ret, ret.
    simpl. rewrite Hs, Hex, Hgt, Hp. simpl. rewrite ?Hs, ?Hex, ?Hgt, ?Hp.
    unfold set_cur, set_inSelector. simpl.
    replace (n + 1 - 1) with n by lia. reflexivity.
Qed.

(** *** Diagnostics: what is recorded, what is returned *)

Lemma below_all (n : node) : below n.
Proof.
  split; [apply walk_keeps_all|]. apply Forall_forall. intros c _.
  apply walk_keeps_all.
Qed.

Lemma walkDecls_app ds1 ds2 : forall v w,
  walkDecls_with walk (ds1 ++ ds2) v w
  = (walkDecls_with walk ds1 v ≫= walkDecls_with walk ds2) w.
Proof.
  induction ds1 as [|e ds1 IH]; intros v w; [reflexivity|].
  assert (Hstep : forall n,
            (call v (walk n) ≫= λ '(_, v1), walkDecls_with walk (ds1 ++ ds2) v1) w
            = ((call v (walk n) ≫= λ '(_, v1), walkDecls_with walk ds1 v1)
               ≫= walkDecls_with walk ds2) w).
  { intros n. rewrite !bind_run.
    destruct (call v (walk n) w) as [[r v1] w1|]; [|reflexivity].
    rewrite IH, bind_run. reflexivity. }
  destruct e; try apply Hstep.
  clear Hstep. simpl. rewrite !bind_run.
  destruct (getStruct (object v) w) as [o w1|]; [|reflexivity].
  assert (Hemit : forall f,
            (call v (walk e) ≫= λ '(r, v1),
               modStruct (object v1) (f r)
               ≫= λ _, walkDecls_with walk (ds1 ++ ds2) v1) w1
            = ((call v (walk e) ≫= λ '(r, v1),
                  modStruct (object v1) (f r)
                  ≫= λ _, walkDecls_with walk ds1 v1)
               ≫= walkDecls_with walk ds2) w1).
  { intros f. rewrite !bind_run.
    destruct (call v (walk e) w1) as [[r v1] w2|]; [|reflexivity].
    rewrite !bind_run.
    destruct (modStruct (object v1) (f r) w2) as [u w3|]; [|reflexivity].
    rewrite IH, bind_run. reflexivity. }
  destruct (emit o);
    first [ apply (Hemit (fun r => set_emit r))
          | apply (Hemit (fun r => set_emit (mkBin opUnify _ r))) ].
Qed.

(** The walk of a declaration of a file, and what follows it. *)
Lemma walkDecls_decl ds1 d ds2 v0 w v' w' :
  walkDecls_with walk (ds1 ++ d :: ds2) v0 w = Ok v' w' ->
  exists v1 w1 rd v2 w2,
    walkDecls_with walk ds1 v0 w = Ok v1 w1
    /\ call v1 (walk (declExpr d)) w1 = Ok (rd, v2) w2
    /\ errors w2 `prefix_of` errors w'.
Proof.
  intros H. rewrite walkDecls_app in H.
  apply bind_Ok in H as (v1 & w1 & H1 & H).
  exists v1, w1.
  cut (exists rd v2 w2,
          call v1 (walk (declExpr d)) w1 = Ok (rd, v2) w2
          /\ errors w2 `prefix_of` errors w').
  { intros (rd & v2 & w2 & Hc & Hp). exists rd, v2, w2. auto. }
  clear H1.
  assert (Hloop : forall v, keeps none (walkDecls_with walk ds2 v)).
  { intros v. apply keeps_walkDecls. apply Forall_forall. intros c _.
    apply below_all. }
  assert (Hplain : forall n,
            (call v1 (walk n) ≫= λ '(_, v2), walkDecls_with walk ds2 v2) w1
            = Ok v' w' ->
            exists rd v2 w2,
              call v1 (walk n) w1 = Ok (rd, v2) w2
              /\ errors w2 `prefix_of` errors w').
  { intros n Hn. apply bind_Ok in Hn as ([rd v2] & w2 & Hc & Hn).
    exists rd, v2, w2. split; [exact Hc|].
    apply (frame_errors _ _ _ (Hloop _ _ _ _ Hn)). }
  destruct d; try (apply Hplain; exact H).
  clear Hplain. simpl in H.
  apply bind_Ok in H as (o & w1' & Ho & H).
  assert (w1' = w1) as ->.
  { unfold getStruct in Ho. destruct (structs w1 !! object v1);
      [injection Ho as _ <-; reflexivity|discriminate]. }
  assert (Hemit : forall f,
            (call v1 (walk d) ≫= λ '(r, v2),
               modStruct (object v2) (f r)
               ≫= λ _, walkDecls_with walk ds2 v2) w1
            = Ok v' w' ->
            exists rd v2 w2,
              call v1 (walk d) w1 = Ok (rd, v2) w2
              /\ errors w2 `prefix_of` errors w').
  { intros f Hn. apply bind_Ok in Hn as ([rd v2] & w2 & Hc & Hn).
    exists rd, v2, w2. split; [exact Hc|].
    apply bind_Ok in Hn as (u & w3 & Hm & Hn).
    etrans.
    - apply (frame_errors _ _ _ (keeps_modStruct none _ _ _ _ _ Hm)).
    - apply (frame_errors _ _ _ (Hloop _ _ _ _ Hn)). }
  simpl. destruct (emit o); eapply Hemit; exact H.
Qed.

Lemma walk_Ident_unresolved id name sc w :
  resolveRoot w = None -> name ∉ predeclared ->
  predefinedRanges name = None ->
  walk (Ident id name NodeNil sc) w
  = errf id "reference %q not found" [ArgString name] w.
Proof.
  intros Hr Hn Hp.
  assert (He : forall s, s ∈ predeclared -> String.eqb name s = false).
  { intros s Hs. apply String.eqb_neq. intros ->. exact (Hn Hs). }
  destruct w as [v rr am er st la yi]. simpl in Hr. subst rr.
  simpl. unfold resolve, getv, get, mbind, M_bind, bind, mret, M_ret, ret.
  simpl.
  rewrite !He by (unfold predeclared; repeat constructor).
  rewrite Hp. reflexivity.
Qed.

(** C6, as amended. [errf] returns a bottom to its caller and appends the
    failure, with the node, the message and the path of the visitor, to the
    diagnostics of the build. For a bad expression, a misplaced [*], an
    unsupported unary operator, an empty interpolation, an identifier
    without binding that is found nowhere and a struct literal with an
    emit, a bottom is the value that [walk] returns for the node; for an
    import that cannot be loaded [walk] returns nil, and only the
    diagnostic remains. Every walk keeps, in order, the diagnostics before
    it, and what the walk of a declaration of a file (of the expression of
    an emit) leaves in the list is still in it when the walk of the file
    returns. [insertFile] returns nil
    for a file whatever the list holds, the result of the walk being the
    root struct and no bottom: the state it ends in is the one the walk of
    the file ends in, diagnostics included. *)
Theorem errf_records_insertFile_nil :
  (forall n format args w,
      errf n format args w
      = Ok (VBottom (mkErr (newNode n) (ArgString format :: args)))
          (set_errors
             (errors w
              ++ [mkNodeError (appendPath (cur w) []) n format args]) w))
  /\ (forall id w,
        walk (BadExpr id) w = errf id "invalid expression" [] w)
  /\ (forall id x w,
        walk (UnaryExpr id MUL x) w
        = errf id "preference mark not allowed at this position" [] w)
  /\ (forall id Op x w,
        Op ∉ [NOT; ADD; SUB; GEQ; GTR; LSS; LEQ; NEQ; MAT; NMAT; MUL] ->
        walk (UnaryExpr id Op x) w
        = errf id "unsupported unary operator %q" [ArgToken Op] w)
  /\ (forall id w,
        walk (Interpolation id []) w = errf id "invalid interpolation" [] w)
  /\ (forall id name sc w,
        resolveRoot w = None -> name ∉ predeclared ->
        predefinedRanges name = None ->
        walk (Ident id name NodeNil sc) w
        = errf id "reference %q not found" [ArgString name] w)
  /\ (forall id lb es w r w',
        walk (StructLit id lb es) w = Ok r w' ->
        existsb isEmitDecl es = true ->
        isBottom r = true /\ (length (errors w) < length (errors w'))%nat)
  /\ (forall id p w,
        importFails p ->
        walk (ImportSpec id p) w
        = Ok VNil
            (set_errors (errors w ++ [importError (cur w) (id, p)]) w))
  /\ (forall n w r w',
        walk n w = Ok r w' -> errors w `prefix_of` errors w')
  /\ (forall id ds1 d ds2 w r w',
        walk (File id (ds1 ++ d :: ds2)) w = Ok r w' ->
        exists v1 w1 rd v2 w2,
          walkDecls_with walk ds1
            (mkVisitor (object (cur w)) None EmptyString None 0) w
          = Ok v1 w1
          /\ call v1 (walk (declExpr d)) w1 = Ok (rd, v2) w2
          /\ errors w2 `prefix_of` errors w')
  /\ (forall inst fid Decls w r w',
        insertFile inst fid Decls w = Ok r w' ->
        r = None
        /\ walk (File fid Decls) (startFile inst fid w)
           = Ok (VStructLit (rootStruct inst)) w').
Proof.
  split; [exact errf_run|].
  split; [reflexivity|]. split; [reflexivity|].
  split.
  { intros id Op x w HOp.
    destruct Op; try reflexivity; destruct HOp; repeat constructor. }
  split; [reflexivity|].
  split; [exact walk_Ident_unresolved|].
  split; [|split; [exact walkImportSpec_fails|]].
  { intros id lb es w r w' H Hes. simpl in H.
    apply bind_Ok in H as (m & w1 & Hm & H).
    apply mapScope_Ok in Hm as [_ Herr].
    destruct m as [obj|fn]; [|discriminate].
    apply bind_Ok in H as (v & w2 & Hv & H). injection Hv as <- <-.
    apply bind_Ok in H as ([ro v1'] & w3 & Hloop & H).
    apply walkElts_result in Hloop as [_ Hro]. rewrite Hes in Hro.
    destruct Hro as [[b ->] Hlt]. injection H as <- <-.
    split; [reflexivity|]. rewrite <- Herr. exact Hlt. }
  split; [|split].
  - intros n w r w' H. apply (frame_errors _ _ _ (walk_frame n _ _ _ H)).
  - intros id ds1 d ds2 w r w' H. simpl in H.
    apply bind_Ok in H as (v & w0 & Hv & H). injection Hv as <- <-.
    apply bind_Ok in H as (v' & w2 & Hds & H). injection H as _ <-.
    apply (walkDecls_decl _ _ _ _ _ _ _ Hds).
  - intros inst fid Decls w r w' H. unfold insertFile in H.
    apply bind_Ok in H as (u1 & w1 & H1 & H). injection H1 as _ <-.
    apply bind_Ok in H as (u2 & w2 & H2 & H). injection H2 as _ <-.
    apply bind_Ok in H as (res & w3 & Hres & H).
    pose proof (walk_File_value _ _ _ _ _ Hres) as ->.
    injection H as <- <-. split; [reflexivity|exact Hres].
Qed.

End Facts.

(** *** The theorems at the instance [demoExternals] *)

(** The field comprehension [y: x for x in [1,2] if x > 1] in the root
    struct: the struct gets one comprehension, a feed over the list whose
    lambda binds [_] and [x] and holds the guard, which holds the yield of
    [y: x]. *)
Example walk_comprehension_demo :
  match
    @walk demoTypes demoExternals
      (ComprehensionDecl 30
         (mkField 31 (Ident 32 "y" NodeNil None) false
            (Ident 33 "x" (NodeOther 20) None) [] [])
         (forIfClauses 20 21 22 23 24 25 26 27 (OtherToken 5) (OtherToken 5)
            (OtherToken 5))) demoWorld
  with
  | Ok r w =>
      r = VNil
      /\ comprehensions <$> structs w !! 0%nat
         = Some [VFieldComprehension (Some 30%nat)
                   (VFeed (Some 21%nat)
                      (VList (Some 21%nat) 1 (VTop (Some 21%nat))
                         (VExtern ("2"%string : @extern demoTypes)))
                      0)
                   false]
      /\ lambdas w
         = [mkLambdaExpr (Some 21%nat)
              [("_"%string : @label demoTypes,
                VBasicType None (["string"; "int"]%string : @kind demoTypes));
               ("x"%string : @label demoTypes, VTop None)]
              (VGuard (Some 25%nat)
                 (VBinaryExpr (Some 25%nat) (">"%string : @op demoTypes)
                    (VNodeRef (Some 26%nat) (ScopeLambda 0))
                    (VExtern ("1"%string : @extern demoTypes)))
                 (VYield 0))]
      /\ yields w
         = [mkYield (Some 33%nat) false (VStringLit (Some 32%nat) "y")
              (VNodeRef (Some 33%nat) (ScopeLambda 0))]
      /\ errors w = []
  | Panic _ => False
  end.
Proof. vm_compute. repeat split. Qed.

(** C6 as the specification states it fails. On [badFile] the lowering
    records a diagnostic, the top-level result is the root struct, and
    [insertFile] returns nil: the failure does not reach the caller. And an
    import that cannot be loaded lowers to nil: its failure is recorded and
    not returned as a bottom for the node. *)
Lemma insertFile_drops_diagnostics :
  @insertFile demoTypes demoExternals demoInstance 10 badFile demoWorld
  = Ok None afterBadFile
  /\ errors afterBadFile = [mkNodeError [] 12 "invalid expression" []]
  /\ @isBottom demoTypes (VStructLit (rootStruct demoInstance)) = false
  /\ ~ surfaced None (mkNodeError [] 12 "invalid expression" [])
  /\ @walk demoTypes demoExternals (ImportSpec 81 "a") demoWorld
     = Ok VNil
         (set_errors
            [mkNodeError [] 81 "package %q not found" [ArgString "a"]]
            demoWorld)
  /\ @isBottom demoTypes VNil = false.
Proof.
  split; [vm_compute; reflexivity|]. split; [reflexivity|].
  split; [reflexivity|]. split; [intros (l & Hl & _); discriminate Hl|].
  split; [vm_compute; reflexivity|reflexivity].
Qed.

Lemma errf_records_insertFile_nil_witness :
  @walk demoTypes demoExternals (BadExpr 12) demoWorld
  = Ok (VBottom (mkBottom (Some 12%nat) "invalid expression"))
      (set_errors [mkNodeError [] 12 "invalid expression" []] demoWorld)
  /\ @walk demoTypes demoExternals (ImportSpec 81 "a") demoWorld
     = Ok VNil
         (set_errors
            [mkNodeError [] 81 "package %q not found" [ArgString "a"]]
            demoWorld)
  /\ errors demoWorld `prefix_of` [mkNodeError [] 12 "invalid expression" []]
  /\ (exists v1 w1 rd v2 w2,
        @walkDecls_with demoTypes demoExternals
          (@walk demoTypes demoExternals) []
          (mkVisitor 0 None EmptyString None 0)
          (startFile demoInstance 10 demoWorld)
        = Ok v1 w1
        /\ call v1 (@walk demoTypes demoExternals (BadExpr 12)) w1
           = Ok (rd, v2) w2
        /\ errors w2 `prefix_of` errors afterBadFile)
  /\ (@None error = None
      /\ @walk demoTypes demoExternals (File 10 badFile)
           (startFile demoInstance 10 demoWorld)
         = Ok (VStructLit 0) afterBadFile).
Proof.
  destruct (@errf_records_insertFile_nil demoTypes demoExternals)
    as (Herrf & Hbad & _ & _ & _ & _ & _ & Himp & Hpre & Hdecl & Hins).
  split; [|split; [|split; [|split]]].
  - exact (eq_trans (Hbad 12%nat demoWorld)
             (Herrf 12%nat "invalid expression"%string [] demoWorld)).
  - apply (Himp 81%nat "a"%string demoWorld).
    right. exists "a"%string. repeat split; reflexivity.
  - apply (Hpre (BadExpr 12) demoWorld
             (VBottom (mkBottom (Some 12%nat) "invalid expression"))
             (set_errors [mkNodeError [] 12 "invalid expression" []]
                demoWorld)).
    vm_compute. reflexivity.
  - apply (Hdecl 10%nat [] (EmitDecl 11 (BadExpr 12)) []
             (startFile demoInstance 10 demoWorld) (VStructLit 0)
             afterBadFile).
    vm_compute. reflexivity.
  - apply (Hins demoInstance 10%nat badFile demoWorld None afterBadFile).
    vm_compute. reflexivity.
Defined.

Lemma wrapClauses_desugars_witness :
  astMap demoWorld !! 20%nat = None
  /\ exists src cond fn w',
      @wrapClauses demoTypes demoExternals (VYield 0)
        (forIfClauses 20 21 22 23 24 25 26 27 (OtherToken 5) (OtherToken 5)
           (OtherToken 5)) demoWorld
      = Ok (VFeed (newExpr 21) src fn) w'
      /\ lambdas w' !! fn
         = Some (@forLambda demoTypes demoExternals None "x"
                   (ListLit 21
                      [BasicLit 22 (OtherToken 5) "1";
                       BasicLit 23 (OtherToken 5) "2"] false None)
                   (VGuard (newExpr 25) cond (VYield 0))).
Proof.
  split; [reflexivity|].
  apply (proj2 (proj2 (@wrapClauses_desugars demoTypes demoExternals))).
  reflexivity.
Defined.

(** The struct literal 40 in [afterBadFile]: the file stays bound to the
    root struct. *)
Lemma walk_never_rebinds_witness :
  (forall k m, astMap afterBadFile !! k = Some m ->
               astMap afterStruct !! k = Some m)
  /\ (forall l f, lambdas afterBadFile !! l = Some f ->
                  lambdas afterStruct !! l = Some f).
Proof.
  apply (@walk_never_rebinds demoTypes demoExternals (StructLit 40 true [])
           afterBadFile (VStructLit 1) afterStruct).
  vm_compute. reflexivity.
Defined.

(** The selector [{}.b]: the count of selectors is back at 0. *)
Lemma walk_restores_receiver_witness :
  object (cur afterStruct) = object (cur afterBadFile)
  /\ parent (cur afterStruct) = parent (cur afterBadFile)
  /\ inSelector (cur afterStruct) = inSelector (cur afterBadFile)
  /\ resolveRoot afterStruct = resolveRoot afterBadFile
  /\ (length (structs afterBadFile) <= length (structs afterStruct))%nat
  /\ (length (yields afterBadFile) <= length (yields afterStruct))%nat.
Proof.
  apply (@walk_restores_receiver demoTypes demoExternals
           (SelectorExpr 60 (StructLit 40 true []) "b") afterBadFile
           (VSelectorExpr (Some 60%nat) (VStructLit 1)
              ("b"%string : @label demoTypes))
           afterStruct).
  vm_compute. reflexivity.
Defined.

(** The name [int] where the root of resolution has a field [int]. *)
Lemma root_scope_shadows_predeclared_witness :
  @walk demoTypes demoExternals (Ident 70 "int" NodeNil None) shadowWorld
  = Ok (VSelectorExpr (Some 70%nat) (VNodeRef (Some 70%nat) (ScopeStruct 0))
          ("int"%string : @label demoTypes)) shadowWorld.
Proof.
  apply (@root_scope_shadows_predeclared demoTypes demoExternals 70 "int" None
           shadowWorld 0%nat
           (mkStructLit None
              [mkArc ("int"%string : @label demoTypes) VNil false None None]
              VNil VNil [])).
  - reflexivity.
  - reflexivity.
  - simpl. left.
Defined.

Lemma walk_StructLit_result_witness :
  @isBottom demoTypes
    (VBottom (mkBottom (Some 41%nat)
                "emitting values is only allowed at top level")) = true
  /\ (length (errors demoWorld) < length (errors afterEmit))%nat.
Proof.
  apply (@walk_StructLit_result demoTypes demoExternals 40 true
           [EmitDecl 41 (BadExpr 42)] demoWorld
           (VBottom (mkBottom (Some 41%nat)
                       "emitting values is only allowed at top level"))
           afterEmit).
  vm_compute. reflexivity.
Defined.

(** Two imports of packages that do not exist: two diagnostics. *)
Lemma walk_ImportDecl_failures_witness :
  @walk demoTypes demoExternals (ImportDecl 80 [(81%nat, "a"); (82%nat, "b")]%string)
    demoWorld
  = Ok VNil
      (set_errors
         [mkNodeError [] 81 "package %q not found" [ArgString "a"];
          mkNodeError [] 82 "package %q not found" [ArgString "b"]]
         demoWorld).
Proof.
  apply (@walk_ImportDecl_failures demoTypes demoExternals 80
           [(81%nat, "a"); (82%nat, "b")]%string demoWorld).
  constructor; [|constructor; [|constructor]].
  - right. exists "a"%string. repeat split; reflexivity.
  - right. exists "b"%string. repeat split; reflexivity.
Defined.

(** The import 90 of the builtin package [list], and a reference to it. *)
Lemma walk_ImportSpec_builtin_witness :
  @walk demoTypes (withBuiltinPkg listPkg noPkg) (ImportSpec 90 "list") demoWorld
  = Ok VNil (set_astMap (<[90%nat := ScopeStruct 0]> ∅) demoWorld)
  /\ @walk demoTypes (withBuiltinPkg listPkg noPkg)
       (Ident 91 "list" (NodeOther 90) None)
       (set_astMap (<[90%nat := ScopeStruct 0]> ∅) demoWorld)
     = Ok (VNodeRef (Some 91%nat) (ScopeStruct 0))
         (set_astMap (<[90%nat := ScopeStruct 0]> ∅) demoWorld).
Proof.
  apply (@walk_ImportSpec_builtin demoTypes (withBuiltinPkg listPkg noPkg) 90
           "list" "list" 0%nat 91 "list" demoWorld).
  - reflexivity.
  - reflexivity.
  - reflexivity.
Defined.

(** The list [[1, 2]]: a struct with the arcs 0 and 1. *)
Lemma walk_ListLit_arcs_witness :
  exists s typ len,
    VList (Some 21%nat) 1 (VTop (Some 21%nat))
      (VExtern ("2"%string : @extern demoTypes))
    = VList (newExpr 21) s typ len
    /\ (length (structs demoWorld) <= s < length (structs afterList))%nat
    /\ (@None node = None ->
        exists st,
          structs afterList !! s = Some st
          /\ struct_base st = newExpr 21
          /\ map arc_feature (arcs st)
             = map (@indexLabel demoTypes demoExternals) (seq 0 2)).
Proof.
  apply (@walk_ListLit_arcs demoTypes demoExternals 21
           [BasicLit 22 (OtherToken 5) "1"; BasicLit 23 (OtherToken 5) "2"]
           false None demoWorld
           (VList (Some 21%nat) 1 (VTop (Some 21%nat))
              (VExtern ("2"%string : @extern demoTypes)))
           afterList).
  vm_compute. reflexivity.
Defined.

(** [badFile] in [demoWorld]: file 10 is bound to the root struct at 0. *)
Lemma insertFile_binds_file_witness :
  astMap afterBadFile !! 10%nat = Some (ScopeStruct (rootStruct demoInstance))
  /\ object (cur afterBadFile) = rootStruct demoInstance
  /\ parent (cur afterBadFile) = None
  /\ resolveRoot afterBadFile = inst_scope demoInstance
  /\ (length (structs demoWorld) <= length (structs afterBadFile))%nat
  /\ (forall l f, lambdas demoWorld !! l = Some f ->
                  lambdas afterBadFile !! l = Some f).
Proof.
  apply (@insertFile_binds_file demoTypes demoExternals demoInstance 10
           badFile demoWorld None afterBadFile).
  vm_compute. reflexivity.
Defined.

(** A reference to the struct literal 40, a bad declaration, then the
    literal: the reference and the literal share the struct at 1. *)
Lemma forward_reference_resolves_witness :
  exists l,
    @VNodeRef demoTypes (Some 50%nat) (ScopeStruct 1)
    = VNodeRef (newExpr 50) (ScopeStruct l)
    /\ @VStructLit demoTypes 1 = VStructLit l
    /\ astMap afterStruct !! 40%nat = Some (ScopeStruct l).
Proof.
  apply (@forward_reference_resolves demoTypes demoExternals 50 "x" 40
           (BadDecl 51) true [] afterBadFile
           (VNodeRef (Some 50%nat) (ScopeStruct 1)) afterStruct
           VNil afterStruct (VStructLit 1) afterStruct).
  - vm_compute. reflexivity.
  - vm_compute. reflexivity.
  - vm_compute. reflexivity.
  - reflexivity.
Defined.

(** [math.Pi] and [math[math].Pi] where the root of resolution has no
    field [math]; outside of a selector the name resolves to nothing. *)
Lemma shorthand_package_in_selector_witness :
  @resolve demoTypes (withBuiltinPkg noPkg mathPkg) 101 "math" shadowWorld
  = Ok VNil shadowWorld
  /\ @walk demoTypes (withBuiltinPkg noPkg mathPkg)
       (SelectorExpr 100 (Ident 101 "math" NodeNil None) "Pi") shadowWorld
     = Ok (VSelectorExpr (Some 100%nat)
             (VNodeRef (Some 101%nat) (ScopeStruct 0))
             ("Pi"%string : @label demoTypes)) shadowWorld
  /\ @walk demoTypes (withBuiltinPkg noPkg mathPkg)
       (SelectorExpr 100 (Ident 101 "math" NodeNil None) "Pi") shadowWorld
     = Ok (VSelectorExpr (Some 100%nat)
             (VNodeRef (Some 101%nat) (ScopeStruct 0))
             ("Pi"%string : @label demoTypes)) shadowWorld
  /\ @walk demoTypes (withBuiltinPkg noPkg mathPkg)
       (SelectorExpr 100
          (IndexExpr 102 (Ident 101 "math" NodeNil None)
             (Ident 103 "math" NodeNil None))
          "Pi") shadowWorld
     = Ok (VSelectorExpr (Some 100%nat)
             (VIndexExpr (Some 102%nat)
                (VNodeRef (Some 101%nat) (ScopeStruct 0))
                (VNodeRef (Some 103%nat) (ScopeStruct 0)))
             ("Pi"%string : @label demoTypes)) shadowWorld.
Proof.
  destruct (@shorthand_package_in_selector demoTypes
              (withBuiltinPkg noPkg mathPkg) 100 102 101 103 "math" None None
              "Pi" 0%nat 0%nat
              (mkStructLit None
                 [mkArc ("int"%string : @label demoTypes) VNil false None
                    None]
                 VNil VNil [])
              shadowWorld)
    as (Hres & Hsel & Hdirect & Hdeep).
  6: { split; [exact Hres|]. split; [|split; [exact Hdirect|exact Hdeep]].
       exact (Hsel (Ident 101 "math" NodeNil None)). }
  - reflexivity.
  - reflexivity.
  - reflexivity.
  - simpl. intros H. apply list_elem_of_singleton in H. discriminate H.
  - simpl. lia.
Defined.

End cue_facts.
